(** * The LKQ scrape / paginate / enrich / normalize pipeline

    A shallow embedding of the scraper core:
    - [utils/scraper-utils.js]   ([retry], [chunk]),
    - [scrapers/lkq/api.js]      ([makeApiRequest] and the three catalog calls),
    - [scrapers/lkq/index.js]    (the [LkqScraper] class),
    - [scrapers/lkq/mapper.js]   and the older mapper text that follows the
      class in [index.js],
    - [scripts/get-lkq-cookies.js].

    JavaScript values are an inductive type, numbers are integers ([Z]) plus
    [NaN] and, for the product limit, [Infinity].  Asynchronous code is run
    as a state-and-exception computation over a [world] that holds the
    replies the upstream API will give and the trace of what was issued. *)

From Stdlib Require Import ZArith List String Ascii Bool Lia Arith.
From Stdlib Require Import DecimalString.
Import ListNotations.
Local Open Scope string_scope.
Local Open Scope list_scope.
Local Open Scope Z_scope.

Set Implicit Arguments.
#[local] Set Warnings "-register-all".

(* ===================================================================== *)
(** ** JavaScript values *)
(* ===================================================================== *)

Module Js.

Inductive value : Type :=
| VUndefined
| VNull
| VBool (b : bool)
| VNum (z : Z)
| VNaN
| VStr (s : string)
| VArr (items : list value)
| VObj (fields : list (string * value)).

(** Thrown values: an [Error] object with its message, or [undefined]
    ([throw lastError] in [retry] when the loop body never ran). *)
Inductive exn : Type :=
| JsError (message : string)
| JsUndefined.

Inductive outcome (A : Type) : Type :=
| Ok (a : A)
| Throw (e : exn).
Arguments Ok {A} a.
Arguments Throw {A} e.

(** [Boolean(v)], the test behind [!v], [a || b], [c ? x : y]. *)
Definition truthy (v : value) : bool :=
  match v with
  | VUndefined | VNull | VNaN => false
  | VBool b => b
  | VNum z => negb (z =? 0)
  | VStr s => negb (String.eqb s "")
  | VArr _ | VObj _ => true
  end.

(** [a || b] *)
Definition or_ (a b : value) : value := if truthy a then a else b.

Definition string_of_Z (z : Z) : string := NilZero.string_of_int (Z.to_int z).

Definition join (sep : string) (l : list string) : string := String.concat sep l.

(** [String(v)], as used by template literals and by [parseInt]. *)
Fixpoint toString (v : value) : string :=
  match v with
  | VUndefined => "undefined"
  | VNull => "null"
  | VBool true => "true"
  | VBool false => "false"
  | VNum z => string_of_Z z
  | VNaN => "NaN"
  | VStr s => s
  | VArr l =>
      join "," (map (fun x => match x with
                              | VUndefined | VNull => ""
                              | _ => toString x
                              end) l)
  | VObj _ => "[object Object]"
  end.

Definition is_ws (c : ascii) : bool :=
  (c =? " ")%char || (c =? "009")%char || (c =? "010")%char ||
  (c =? "011")%char || (c =? "012")%char || (c =? "013")%char.

Fixpoint skip_ws (s : string) : string :=
  match s with
  | String c r => if is_ws c then skip_ws r else s
  | EmptyString => s
  end.

Definition digit_of (c : ascii) : option Z :=
  let n := Z.of_N (N_of_ascii c) in
  if (48 <=? n) && (n <=? 57) then Some (n - 48) else None.

(** Longest prefix of decimal digits; [acc] is [None] until a digit is read. *)
Fixpoint digits_prefix (s : string) (acc : option Z) : option Z :=
  match s with
  | String c r =>
      match digit_of c with
      | Some d => digits_prefix r (Some (10 * match acc with Some a => a | None => 0 end + d))
      | None => acc
      end
  | EmptyString => acc
  end.

(** [parseInt(s, 10)] on a string: [None] is [NaN]. *)
Definition parseInt_string (s : string) : option Z :=
  match skip_ws s with
  | String "-"%char r => option_map Z.opp (digits_prefix r None)
  | String "+"%char r => digits_prefix r None
  | s' => digits_prefix s' None
  end.

(** [parseInt(v, 10)]: the argument is first converted with [String]. *)
Definition parseInt (v : value) : value :=
  match parseInt_string (toString v) with
  | Some z => VNum z
  | None => VNaN
  end.

Fixpoint lookup (k : string) (fields : list (string * value)) : option value :=
  match fields with
  | [] => None
  | (k', v) :: rest => if String.eqb k k' then Some v else lookup k rest
  end.

(** [{ ...o, k: v }] and [o[k] = v]: an existing key keeps its place. *)
Fixpoint assign (k : string) (v : value) (fields : list (string * value))
  : list (string * value) :=
  match fields with
  | [] => [(k, v)]
  | (k', v') :: rest =>
      if String.eqb k k' then (k, v) :: rest else (k', v') :: assign k v rest
  end.

(** An array index written as a property key (["0"], ["1"], ...). *)
Definition index_of_key (k : string) : option nat :=
  match digits_prefix k None with
  | Some z => if String.eqb (string_of_Z z) k then Some (Z.to_nat z) else None
  | None => None
  end.

Definition char_at (s : string) (i : nat) : value :=
  match String.get i s with
  | Some c => VStr (String c EmptyString)
  | None => VUndefined
  end.

(** [v.k] / [v[k]].  Reading a property of [null] or [undefined] throws a
    [TypeError]; primitives have no own data properties besides the length
    and the indices of a string. *)
Definition get (v : value) (k : string) : outcome value :=
  match v with
  | VUndefined | VNull =>
      Throw (JsError ("Cannot read properties of " ++ toString v ++ " (reading '" ++ k ++ "')")%string)
  | VObj fields => Ok (match lookup k fields with Some x => x | None => VUndefined end)
  | VArr l =>
      if String.eqb k "length" then Ok (VNum (Z.of_nat (List.length l)))
      else Ok (match index_of_key k with
               | Some i => nth i l VUndefined
               | None => VUndefined
               end)
  | VStr s =>
      if String.eqb k "length" then Ok (VNum (Z.of_nat (String.length s)))
      else Ok (match index_of_key k with
               | Some i => char_at s i
               | None => VUndefined
               end)
  | VBool _ | VNum _ | VNaN => Ok VUndefined
  end.

(** [Object.keys(v)] for a value that is neither [null] nor [undefined]. *)
Definition keys (v : value) : list string :=
  match v with
  | VObj fields => map fst fields
  | VArr l => map (fun i => string_of_Z (Z.of_nat i)) (seq 0 (List.length l))
  | VStr s => map (fun i => string_of_Z (Z.of_nat i)) (seq 0 (String.length s))
  | _ => []
  end.

Definition isArray (v : value) : bool :=
  match v with VArr _ => true | _ => false end.

Definition isString (v : value) : bool :=
  match v with VStr _ => true | _ => false end.

(** [a === b] where [b] is a string literal. *)
Definition strict_eq_str (a : value) (b : string) : bool :=
  match a with VStr s => String.eqb s b | _ => false end.

Fixpoint all_digits (s : string) : bool :=
  match s with
  | String c r => match digit_of c with Some _ => all_digits r | None => false end
  | EmptyString => true
  end.

Fixpoint rev_string (s : string) (acc : string) : string :=
  match s with
  | String c r => rev_string r (String c acc)
  | EmptyString => acc
  end.

(** [s.trim()] *)
Definition trim (s : string) : string :=
  rev_string (skip_ws (rev_string (skip_ws s) "")) "".

(** [Number(s)] restricted to decimal integers; [None] is [NaN]. *)
Definition number_of_string (s : string) : option Z :=
  match trim s with
  | EmptyString => Some 0
  | String "-"%char r => if all_digits r then option_map Z.opp (digits_prefix r None) else None
  | String "+"%char r => if all_digits r then digits_prefix r None else None
  | s' => if all_digits s' then digits_prefix s' None else None
  end.

Definition toNumber (v : value) : option Z :=
  match v with
  | VUndefined | VNaN => None
  | VNull => Some 0
  | VBool b => Some (if b then 1 else 0)
  | VNum z => Some z
  | VStr s => number_of_string s
  | VArr _ | VObj _ => number_of_string (toString v)
  end.

(** [v > 0] *)
Definition gt_zero (v : value) : bool :=
  match toNumber v with Some z => 0 <? z | None => false end.

Definition quote : string := String (ascii_of_nat 34) EmptyString.
Definition backslash : string := String (ascii_of_nat 92) EmptyString.

Definition hex_digit (n : N) : ascii :=
  if (n <? 10)%N then ascii_of_N (48 + n) else ascii_of_N (87 + n).

(** The escape of one character inside a JSON string. *)
Definition escape_char (c : ascii) : string :=
  let n := N_of_ascii c in
  if (n =? 34)%N then backslash ++ quote
  else if (n =? 92)%N then backslash ++ backslash
  else if (n =? 8)%N then backslash ++ "b"
  else if (n =? 9)%N then backslash ++ "t"
  else if (n =? 10)%N then backslash ++ "n"
  else if (n =? 12)%N then backslash ++ "f"
  else if (n =? 13)%N then backslash ++ "r"
  else if (n <? 32)%N then
    backslash ++ "u00" ++ String (hex_digit (n / 16)) (String (hex_digit (n mod 16)) "")
  else String c "".

Fixpoint escape (s : string) : string :=
  match s with
  | String c r => escape_char c ++ escape r
  | EmptyString => ""
  end.

Definition quoted (s : string) : string := quote ++ escape s ++ quote.

(** [JSON.stringify(v)]; [None] is the [undefined] it returns for
    [undefined]. *)
Fixpoint stringify (v : value) : option string :=
  match v with
  | VUndefined => None
  | VNull | VNaN => Some "null"
  | VBool true => Some "true"
  | VBool false => Some "false"
  | VNum z => Some (string_of_Z z)
  | VStr s => Some (quoted s)
  | VArr l =>
      Some ("[" ++ join "," (map (fun x => match stringify x with
                                          | Some t => t
                                          | None => "null"
                                          end) l) ++ "]")
  | VObj fields =>
      Some ("{" ++ join ","
              ((fix members (fs : list (string * value)) : list string :=
                  match fs with
                  | [] => []
                  | (k, x) :: rest =>
                      match stringify x with
                      | Some t => (quoted k ++ ":" ++ t) :: members rest
                      | None => members rest
                      end
                  end) fields) ++ "}")
  end%string.

(** [JSON.stringify(v).substring(0, n)]: the method call throws when
    [stringify] returned [undefined]. *)
Definition stringify_prefix (v : value) (n : nat) : outcome string :=
  match stringify v with
  | Some t => Ok (String.substring 0 n t)
  | None => Throw (JsError "Cannot read properties of undefined (reading 'substring')")
  end.

(** [error.message], read when a handler formats its log line. *)
Definition message (e : exn) : outcome string :=
  match e with
  | JsError m => Ok m
  | JsUndefined =>
      Throw (JsError "Cannot read properties of undefined (reading 'message')")
  end.

End Js.

(* ===================================================================== *)
(** ** The world the asynchronous code runs in *)
(* ===================================================================== *)

Module Sim.
Import Js.

(** The calls [makeApiRequest] is asked to perform, named after the function
    of [api.js] (or of the scraper class) that builds the parameters. *)
Inductive request : Type :=
| GetSearchResults (category : string) (skip take : Z)
| GetByUrl (url : string) (skip take : Z)
| GetCategoryCounts (category : string)
| GetProductDetails (productId : value).

(** What one [makeApiRequest] call ends in: it throws an [Error] (transport
    failure, status of 500 or more, HTML body) or returns [response.data]. *)
Inductive reply : Type :=
| Fails (message : string)
| Returns (data : value).

(** The timers of the code; their random durations are not modelled. *)
Inductive pause : Type :=
| RetryBackoff    (* the [setTimeout] of [retry] *)
| HumanDelay      (* [randomNumber(300, 800)] before a catalog call *)
| PageWait        (* [randomWait(1000, 3000)] between pages *)
| PageBackoff     (* [delay] after a failed page *)
| GroupWait.      (* [randomWait(1500, 3500)] between detail groups *)

Inductive event : Type :=
| Issued (r : request) (a : reply)
| Slept (p : pause).

(** [upstream n] is the reply to the [n]-th call issued since the start;
    [served] counts the calls issued so far.  Quantifying over [upstream]
    covers every behaviour of the remote API on a given run. *)
Record world : Type := {
  upstream : nat -> reply;
  served : nat;
  trace : list event
}.

(** A computation either runs out of fuel ([None], an unbounded loop) or
    ends, normally or by a throw, in a new world. *)
Definition Comp (A : Type) : Type := world -> option (outcome A * world).

Definition ret {A} (a : A) : Comp A := fun w => Some (Ok a, w).

Definition throw {A} (e : exn) : Comp A := fun w => Some (Throw e, w).

Definition bind {A B} (c : Comp A) (k : A -> Comp B) : Comp B :=
  fun w =>
    match c w with
    | None => None
    | Some (Ok a, w') => k a w'
    | Some (Throw e, w') => Some (Throw e, w')
    end.

(** [try { c } catch (error) { h error }] *)
Definition try_catch {A} (c : Comp A) (h : exn -> Comp A) : Comp A :=
  fun w =>
    match c w with
    | None => None
    | Some (Ok a, w') => Some (Ok a, w')
    | Some (Throw e, w') => h e w'
    end.

(** A pure step that may throw. *)
Definition lift {A} (o : outcome A) : Comp A := fun w => Some (o, w).

Definition sleep (p : pause) : Comp unit :=
  fun w => Some (Ok tt, {| upstream := upstream w;
                           served := served w;
                           trace := trace w ++ [Slept p] |}).

Definition out_of_fuel {A} : Comp A := fun _ => None.

End Sim.

Declare Scope comp_scope.
Delimit Scope comp_scope with comp.
Notation "x <- c ;; k" := (Sim.bind c (fun x => k))
  (at level 61, c at next level, right associativity) : comp_scope.
Notation "c ;;; k" := (Sim.bind c (fun _ => k))
  (at level 61, right associativity) : comp_scope.
Local Open Scope comp_scope.

(* ===================================================================== *)
(** ** utils/scraper-utils.js *)
(* ===================================================================== *)

Module ScraperUtils.
Import Js Sim.

Section Retry.
Variable A : Type.
Variable fn : Comp A.
Variable maxRetries : Z.

(** Ghost counters of one [retry] call: how often [fn] was started and how
    often the backoff timer was awaited. *)
Record tally : Type := { attempts : nat; backoffs : nat }.

(** The [while (retries <= maxRetries)] loop.  [fuel] only makes the
    recursion structural; [retry] below passes more than the loop uses. *)
Fixpoint retry_loop (fuel : nat) (retries : Z) (lastError : exn) (t : tally)
         (w : world) : option (outcome A * world * tally) :=
  match fuel with
  | O => None
  | S fuel' =>
      if retries <=? maxRetries then
        match fn w with
        | None => None
        | Some (Ok v, w1) =>
            Some (Ok v, w1, {| attempts := S (attempts t); backoffs := backoffs t |})
        | Some (Throw error, w1) =>
            let t1 := {| attempts := S (attempts t); backoffs := backoffs t |} in
            let retries1 := retries + 1 in
            if retries1 >? maxRetries then Some (Throw error, w1, t1)
            else
              match message error with
              | Throw e' => Some (Throw e', w1, t1)
              | Ok _ =>
                  match sleep RetryBackoff w1 with
                  | Some (_, w2) =>
                      retry_loop fuel' retries1 error
                        {| attempts := attempts t1; backoffs := S (backoffs t1) |} w2
                  | None => None
                  end
              end
        end
      else Some (Throw lastError, w, t)
  end.

Definition retry_fuel : nat := S (S (Z.to_nat maxRetries)).

Definition retry_tally (w : world) : option (outcome A * world * tally) :=
  retry_loop retry_fuel 0 JsUndefined {| attempts := 0; backoffs := 0 |} w.

(** [retry(fn, maxRetries)] *)
Definition retry : Comp A :=
  fun w => option_map fst (retry_tally w).
End Retry.

(** [array.slice(i, j)] with JavaScript's treatment of negative and
  out-of-range bounds. *)
Definition clamp_index (len i : Z) : Z :=
if i <? 0 then Z.max (len + i) 0 else Z.min i len.

Definition slice {A} (array : list A) (i j : Z) : list A :=
let len := Z.of_nat (List.length array) in
let from := clamp_index len i in
let to := clamp_index len j in
firstn (Z.to_nat (to - from)) (skipn (Z.to_nat from) array).

(** The loop of [chunk]: [for (let i = 0; i < array.length; i += size)]. *)
Fixpoint chunk_loop {A} (fuel : nat) (array : list A) (size : Z) (i : Z)
       (chunks : list (list A)) : option (list (list A)) :=
match fuel with
| O => None
| S fuel' =>
    if i <? Z.of_nat (List.length array) then
      chunk_loop fuel' array size (i + size) (chunks ++ [slice array i (i + size)])
    else Some chunks
end.

(** [chunk(array, size)] for an argument that is an array. *)
Definition chunk {A} (fuel : nat) (array : list A) (size : Z) : option (list (list A)) :=
chunk_loop fuel array size 0 [].

End ScraperUtils.

(* ===================================================================== *)
(** ** scrapers/lkq/api.js *)
(* ===================================================================== *)

Module LkqApi.
Import Js Sim ScraperUtils.

(** [makeApiRequest]: the call is issued, logged in the trace, and ends the
  way the upstream decides. *)
Definition makeApiRequest (r : request) : Comp value :=
fun w =>
  let a := upstream w (served w) in
  let w' := {| upstream := upstream w;
               served := S (served w);
               trace := trace w ++ [Issued r a] |} in
  match a with
  | Fails m => Some (Throw (JsError m), w')
  | Returns data => Some (Ok data, w')
  end.

Section Api.
(** [config.scrapers.retryAttempts] *)
Variable retryAttempts : Z.

Definition getSearchResults (category : string) (skip take : Z) : Comp value :=
  retry (sleep HumanDelay ;;; makeApiRequest (GetSearchResults category skip take))
        retryAttempts.

Definition getProductDetails (productId : value) : Comp value :=
  retry (sleep HumanDelay ;;; makeApiRequest (GetProductDetails productId))
        retryAttempts.

Definition getCategoryCounts (category : string) : Comp value :=
  retry (response <- makeApiRequest (GetCategoryCounts category) ;;
         count <- lift (get response "count") ;;
         ret (VObj [("totalCount", if truthy count then parseInt count else VNum 0);
                    ("category", VStr category);
                    ("rawResponse", response)]))
        retryAttempts.

Definition testCategory : string := "Engine Compartment|Alternator".

(** The operation [initializeApi] hands to [retry(..., 3)]. *)
Definition connection_test : Comp value :=
  results <- getSearchResults testCategory 0 1 ;;
  if negb (truthy results) then throw (JsError "No results returned from API")
  else
    err <- lift (get results "error") ;;
    if truthy err then throw (JsError ("API error: " ++ toString err)%string)
    else
      data <- lift (get results "data") ;;
      if negb (truthy data) || negb (isArray data) then
        _ <- lift (stringify_prefix results 200) ;;
        throw (JsError "API returned unexpected format")
      else ret results.

(** [initializeApi]: both probes are wrapped; the outer handler only logs. *)
Definition initializeApi : Comp unit :=
  try_catch
    (try_catch (_ <- getCategoryCounts testCategory ;; ret tt)
               (fun countsError => _ <- lift (message countsError) ;; ret tt) ;;;
     _ <- retry connection_test 3 ;;
     ret tt)
    (fun error => _ <- lift (message error) ;; ret tt).
End Api.

(** The header scrubbing that precedes [logger.debug('Request headers: ...')]:
  [Cookie] and every [XvPW5hYbpt...] header are replaced by a placeholder
  that shows the length only. *)
Definition hidden (label value_ : string) : string :=
("[" ++ label ++ " HIDDEN - LENGTH: " ++ string_of_Z (Z.of_nat (String.length value_)) ++ "]")%string.

Definition sanitize_cookie (headers : list (string * string)) : list (string * string) :=
map (fun kv => if String.eqb (fst kv) "Cookie" && negb (String.eqb (snd kv) "")
               then (fst kv, hidden "COOKIE" (snd kv)) else kv) headers.

Definition sanitize_tokens (headers : list (string * string)) : list (string * string) :=
map (fun kv => if String.prefix "XvPW5hYbpt" (fst kv)
               then (fst kv, hidden "TOKEN" (snd kv)) else kv) headers.

Definition sanitizedHeaders (headers : list (string * string)) : list (string * string) :=
sanitize_tokens (sanitize_cookie headers).


End LkqApi.

(* ===================================================================== *)
(** ** scrapers/lkq/mapper.js, and the mapper text that follows the class
     in index.js *)
(* ===================================================================== *)

Declare Scope outcome_scope.
Delimit Scope outcome_scope with outcome.

Module MapperCommon.
Import Js.

Definition obind {A B} (o : outcome A) (k : A -> outcome B) : outcome B :=
match o with
| Ok a => k a
| Throw e => Throw e
end.

Notation "x <- c ;; k" := (obind c (fun x => k))
(at level 61, c at next level, right associativity) : outcome_scope.
Local Open Scope outcome_scope.

Fixpoint omap {A B} (f : A -> outcome B) (l : list A) : outcome (list B) :=
match l with
| [] => Ok []
| x :: rest => y <- f x ;; ys <- omap f rest ;; Ok (y :: ys)
end.

(** [v.map(f)]: only arrays have the method. *)
Definition array_map (f : value -> outcome value) (v : value) : outcome (list value) :=
match v with
| VArr l => omap f l
| VUndefined | VNull => _ <- get v "map" ;; Ok []
| _ => Throw (JsError "map is not a function")
end.

(** [s.split(c)] on a string. *)
Fixpoint split_on (c : ascii) (s : string) : list string :=
match s with
| EmptyString => [""]
| String a r =>
    let rest := split_on c r in
    if (a =? c)%char then "" :: rest
    else match rest with
         | h :: t => String a h :: t
         | [] => [String a ""]
         end
end.

(** [v.split(c)]: only strings have the method. *)
Definition split (v : value) (c : ascii) : outcome (list string) :=
match v with
| VStr s => Ok (split_on c s)
| VUndefined | VNull => _ <- get v "split" ;; Ok []
| _ => Throw (JsError "split is not a function")
end.

Section WithParser.
(** [JSON.parse]; [None] when it throws its [SyntaxError]. *)
Variable JSON_parse : string -> option value.

(** [let x = dflt; if (field && typeof field === 'string') { try { x =
    JSON.parse(field) } catch (error) { warn } }] *)
Definition parsed_or (dflt field : value) : value :=
  match field with
  | VStr s =>
      if truthy field then
        match JSON_parse s with
        | Some v => v
        | None => dflt
        end
      else dflt
  | _ => dflt
  end.

(** One image of [product.images]. *)
Definition image_entry (product image : value) : outcome value :=
  url <- get image "url" ;;
  idesc <- get image "description" ;;
  pdesc <- get product "description" ;;
  Ok (VObj [("url", or_ url (VStr ""));
            ("alt", or_ (or_ idesc pdesc) (VStr ""))]).

(** The images of the part: those of the product, then one per source
    vehicle picture. *)
Definition map_images (product sourceVehicle : value) : outcome (list value) :=
  pimgs <- get product "images" ;;
  images <- array_map (image_entry product) (or_ pimgs (VArr [])) ;;
  svi <- get sourceVehicle "SourceVehicleImages" ;;
  if truthy svi && isArray svi then
    year <- get sourceVehicle "Year" ;;
    make <- get sourceVehicle "Make" ;;
    model <- get sourceVehicle "Model" ;;
    let alt := ("Source Vehicle - " ++ toString (or_ year (VStr "")) ++ " " ++
                toString (or_ make (VStr "")) ++ " " ++
                toString (or_ model (VStr "")))%string in
    Ok (images ++
        map (fun url => VObj [("url", url); ("alt", VStr alt)])
            (match svi with VArr urls => urls | _ => [] end))
  else Ok images.

(** [part.split(' ')] destructured as [[key, value]], stored when both are
    non-empty. *)
Definition add_specification (specifications : list (string * value)) (part : string)
  : list (string * value) :=
  match split_on " " part with
  | key :: val :: _ =>
      if negb (String.eqb key "") && negb (String.eqb val "")
      then assign key (VStr val) specifications
      else specifications
  | _ => specifications
  end.

Definition map_specifications (product : value) : outcome value :=
  description <- get product "description" ;;
  parts <- split (or_ description (VStr "")) "," ;;
  Ok (VObj (fold_left add_specification (map trim parts) [])).

(** [(product.category || '').split('|')[1] || ''] *)
Definition map_category (product : value) : outcome value :=
  category <- get product "category" ;;
  parts <- split (or_ category (VStr "")) "|" ;;
  Ok (or_ (match nth_error parts 1 with Some s => VStr s | None => VUndefined end) (VStr "")).

(** [product.number || product.id || dflt] *)
Definition part_number (product : value) (dflt : string) : outcome value :=
  number <- get product "number" ;;
  id <- get product "id" ;;
  Ok (or_ (or_ number id) (VStr dflt)).

(** [product.descriptionRetail || product.description || dflt] *)
Definition part_name (product : value) (dflt : string) : outcome value :=
  retail <- get product "descriptionRetail" ;;
  description <- get product "description" ;;
  Ok (or_ (or_ retail description) (VStr dflt)).

Definition map_condition (ftcDisplay : value) : value :=
  if strict_eq_str ftcDisplay "Used" then VStr "used"
  else if strict_eq_str ftcDisplay "New" then VStr "new"
  else if strict_eq_str ftcDisplay "Refurbished" then VStr "refurbished"
  else VStr "unknown".

(** The fields of [metadata] that both mappers build. *)
Definition map_metadata (product sourceVehicle : value) : outcome (list (string * value)) :=
  id <- get product "id" ;;
  interchange <- get product "interchange" ;;
  pYear <- get product "sourceVehicleYear" ;;
  sYear <- get sourceVehicle "Year" ;;
  pMake <- get product "sourceVehicleMake" ;;
  sMake <- get sourceVehicle "Make" ;;
  pModel <- get product "sourceVehicleModel" ;;
  sModel <- get sourceVehicle "Model" ;;
  pMileage <- get product "mileage" ;;
  sMileage <- get sourceVehicle "Mileage" ;;
  location <- get product "location" ;;
  yardCity <- get product "yardCity" ;;
  yardState <- get product "yardState" ;;
  catalog <- get product "catalog" ;;
  catalogId <- (if truthy catalog then get catalog "id" else Ok (VNum 0)) ;;
  catalogName <- (if truthy catalog then get catalog "name" else Ok (VStr "")) ;;
  isReman <- get product "isReman" ;;
  Ok [("originalId", or_ id (VStr ""));
      ("interchange", or_ interchange (VStr ""));
      ("sourceVehicleYear", or_ (or_ pYear sYear) (VStr ""));
      ("sourceVehicleMake", or_ (or_ pMake sMake) (VStr ""));
      ("sourceVehicleModel", or_ (or_ pModel sModel) (VStr ""));
      ("mileage", or_ (or_ pMileage sMileage) (VNum 0));
      ("location", or_ location (VStr ""));
      ("yardCity", or_ yardCity (VStr ""));
      ("yardState", or_ yardState (VStr ""));
      ("catalogId", catalogId);
      ("catalogName", catalogName);
      ("isReman", or_ isReman (VBool false))].

(** [product.pricing[0].customerPrice || 0] when the pricing list is not
    empty, else the initial [0]. *)
Definition first_price (product : value) : outcome value :=
  pricing <- get product "pricing" ;;
  if truthy pricing then
    len <- get pricing "length" ;;
    if gt_zero len then
      first <- get pricing "0" ;;
      customerPrice <- get first "customerPrice" ;;
      Ok (or_ customerPrice (VNum 0))
    else Ok (VNum 0)
  else Ok (VNum 0).

Definition in_stock (availability : value) : value :=
  VBool (strict_eq_str availability "availableLocal" ||
         strict_eq_str availability "availableShip").

Definition source_url (partNumber : value) : value :=
  VStr ("https://www.lkqonline.com/parts/" ++ toString partNumber)%string.
End WithParser.

End MapperCommon.

(** *** mapper.js, the module the scraper class imports *)
Module Mapper.
Import Js MapperCommon.
Local Open Scope outcome_scope.

Section WithParser.
Variable JSON_parse : string -> option value.

(** One entry of [compatibility]: the year is kept as it is. *)
Definition compatibility_entry (fitment : value) : outcome value :=
  make <- get fitment "SystemMake" ;;
  model <- get fitment "SystemModel" ;;
  year <- get fitment "SystemYear" ;;
  Ok (VObj [("make", or_ make (VStr ""));
            ("model", or_ model (VStr ""));
            ("year", or_ year (VNum 0));
            ("trim", VStr "")]).

Definition explicitFields : list string :=
  ["number"; "id"; "descriptionRetail"; "description"; "price";
   "sourceVehicleMake"; "category"; "availability"; "ftcDisplay";
   "interchange"; "sourceVehicleYear"; "sourceVehicleModel";
   "mileage"; "location"; "yardCity"; "yardState"; "catalog";
   "isReman"; "images"; "pricing"; "_salvageSourceVehicle"; "fitmentJson"].

Definition includes (l : list string) (k : string) : bool :=
  existsb (String.eqb k) l.

(** Every field that is not mapped explicitly, then [details]. *)
Definition other_params (product : value) : outcome (list (string * value)) :=
  let copied :=
    fold_left (fun otherParams key =>
                 if includes explicitFields key then otherParams
                 else match get product key with
                      | Ok x => assign key x otherParams
                      | Throw _ => otherParams
                      end)
              (keys product) [] in
  details <- get product "details" ;;
  Ok (if truthy details then assign "details" details copied else copied).

(** [product.price] when it is not [undefined], else the first pricing
    entry, else [0]. *)
Definition map_price (product : value) : outcome value :=
  price <- get product "price" ;;
  match price with
  | VUndefined => first_price product
  | _ => Ok price
  end.

(** The [try] block of [mapProductToPart] after the test for an empty
    product. *)
Definition build_part (product : value) : outcome value :=
  sv <- get product "_salvageSourceVehicle" ;;
  let sourceVehicle := parsed_or JSON_parse (VObj []) sv in
  fj <- get product "fitmentJson" ;;
  let fitments := parsed_or JSON_parse (VArr []) fj in
  compatibility <- array_map compatibility_entry fitments ;;
  images <- map_images product sourceVehicle ;;
  price <- map_price product ;;
  specifications <- map_specifications product ;;
  otherParams <- other_params product ;;
  partNumber <- part_number product "" ;;
  name <- part_name product "" ;;
  description <- get product "description" ;;
  svMake <- get sourceVehicle "Make" ;;
  pMake <- get product "sourceVehicleMake" ;;
  category <- map_category product ;;
  availability <- get product "availability" ;;
  ftcDisplay <- get product "ftcDisplay" ;;
  metadata <- map_metadata product sourceVehicle ;;
  Ok (VObj [("partNumber", partNumber);
            ("name", name);
            ("description", or_ description (VStr ""));
            ("price", price);
            ("currency", VStr "USD");
            ("manufacturer", or_ (or_ svMake pMake) (VStr ""));
            ("category", category);
            ("subcategory", VStr "");
            ("compatibility", VArr compatibility);
            ("images", VArr images);
            ("specifications", specifications);
            ("source", VStr "lkq");
            ("sourceUrl", source_url partNumber);
            ("inStock", in_stock availability);
            ("quantity", VNum 1);
            ("condition", map_condition ftcDisplay);
            ("metadata", VObj metadata);
            ("otherParams", VObj otherParams)]).

(** [v?.k] *)
Definition optional_get (v : value) (k : string) : value :=
  match v with
  | VUndefined | VNull => VUndefined
  | _ => match get v k with Ok x => x | Throw _ => VUndefined end
  end.

(** The [catch] block: a basic part with the raw data and the error. *)
Definition minimal_part (product : value) (error : exn) : outcome value :=
  mappingError <- message error ;;
  Ok (VObj [("partNumber",
             or_ (or_ (optional_get product "number") (optional_get product "id"))
                 (VStr "unknown"));
            ("name",
             or_ (or_ (optional_get product "descriptionRetail")
                      (optional_get product "description"))
                 (VStr "Unknown part"));
            ("source", VStr "lkq");
            ("otherParams",
             VObj [("rawData",
                    if truthy product then
                      match stringify product with
                      | Some t => VStr t
                      | None => VUndefined
                      end
                    else VStr "Error mapping product");
                   ("mappingError", VStr mappingError)])]).

Definition mapProductToPart (product : value) : outcome value :=
  if negb (truthy product) then Ok VNull
  else
    match build_part product with
    | Ok part => Ok part
    | Throw error => minimal_part product error
    end.

(** [mapProductsToParts] for an argument that is an array. *)
Definition mapProductsToParts (products : list value) : outcome (list value) :=
  parts <- omap mapProductToPart products ;;
  Ok (filter (fun part => match part with VNull => false | _ => true end) parts).
End WithParser.

End Mapper.

(** *** The mapper text that follows the class in index.js *)
Module IndexMapper.
Import Js MapperCommon.
Local Open Scope outcome_scope.

Section WithParser.
Variable JSON_parse : string -> option value.

(** One entry of [compatibility]: the year goes through [parseInt]. *)
Definition compatibility_entry (fitment : value) : outcome value :=
  make <- get fitment "SystemMake" ;;
  model <- get fitment "SystemModel" ;;
  year <- get fitment "SystemYear" ;;
  Ok (VObj [("make", or_ make (VStr ""));
            ("model", or_ model (VStr ""));
            ("year", or_ (parseInt year) (VNum 0));
            ("trim", VStr "")]).

(** [product.price] when it is truthy, else the first pricing entry, else
    [0]. *)
Definition map_price (product : value) : outcome value :=
  price <- get product "price" ;;
  if truthy price then Ok price else first_price product.

Definition build_part (product : value) : outcome value :=
  sv <- get product "_salvageSourceVehicle" ;;
  let sourceVehicle := parsed_or JSON_parse (VObj []) sv in
  fj <- get product "fitmentJson" ;;
  let fitments := parsed_or JSON_parse (VArr []) fj in
  compatibility <- array_map compatibility_entry fitments ;;
  images <- map_images product sourceVehicle ;;
  price <- map_price product ;;
  specifications <- map_specifications product ;;
  partNumber <- part_number product "" ;;
  name <- part_name product "" ;;
  description <- get product "description" ;;
  svMake <- get sourceVehicle "Make" ;;
  pMake <- get product "sourceVehicleMake" ;;
  category <- map_category product ;;
  availability <- get product "availability" ;;
  ftcDisplay <- get product "ftcDisplay" ;;
  metadata <- map_metadata product sourceVehicle ;;
  Ok (VObj [("partNumber", partNumber);
            ("name", name);
            ("description", or_ description (VStr ""));
            ("price", price);
            ("currency", VStr "USD");
            ("manufacturer", or_ (or_ svMake pMake) (VStr ""));
            ("category", category);
            ("subcategory", VStr "");
            ("compatibility", VArr compatibility);
            ("images", VArr images);
            ("specifications", specifications);
            ("source", VStr "lkq");
            ("sourceUrl", source_url partNumber);
            ("inStock", in_stock availability);
            ("quantity", VNum 1);
            ("condition", map_condition ftcDisplay);
            ("metadata",
             VObj (metadata ++
                   [("rawData", match stringify product with
                                | Some t => VStr t
                                | None => VUndefined
                                end)]))]).

(** Here the [catch] block logs and returns [null]. *)
Definition mapProductToPart (product : value) : outcome value :=
  if negb (truthy product) then Ok VNull
  else
    match build_part product with
    | Ok part => Ok part
    | Throw error => _ <- message error ;; Ok VNull
    end.
End WithParser.

End IndexMapper.

(* ===================================================================== *)
(** ** scrapers/lkq/index.js: the LkqScraper class *)
(* ===================================================================== *)

Module LkqScraper.
Import Js Sim ScraperUtils LkqApi.

(** [maxProducts]: an integer, or the default [Infinity]. *)
Inductive limit : Type :=
| Finite (n : Z)
| Infinity.

(** [n < m] *)
Definition below (n : Z) (m : limit) : bool :=
match m with Finite k => n <? k | Infinity => true end.

(** [n >= m] *)
Definition reached (n : Z) (m : limit) : bool :=
match m with Finite k => n >=? k | Infinity => false end.

(** [n > m] *)
Definition over (n : Z) (m : limit) : bool :=
match m with Finite k => n >? k | Infinity => false end.

(** [m - n] *)
Definition minus (m : limit) (n : Z) : limit :=
match m with Finite k => Finite (k - n) | Infinity => Infinity end.

(** [Math.min(b, m)] *)
Definition min_with (b : Z) (m : limit) : Z :=
match m with Finite k => Z.min b k | Infinity => b end.

(** [m <= 0] *)
Definition exhausted (m : limit) : bool :=
match m with Finite k => k <=? 0 | Infinity => false end.

Definition len {A} (l : list A) : Z := Z.of_nat (List.length l).

(** [if (all.length > maxProducts) all = all.slice(0, maxProducts)] *)
Definition trim_to (maxProducts : limit) (all : list value) : list value :=
match maxProducts with
| Finite k => if len all >? k then slice all 0 k else all
| Infinity => all
end.

(** The part of [config.scrapers] the class reads. *)
Record config : Type := {
retryAttempts : Z;
batchSize : Z;
parallelRequests : Z;
requestDelay : Z;
categoryUrls : list string
}.

Record options : Type := {
maxProducts : limit;
fetchDetails : bool;
usePresetUrls : bool
}.

(** The variables of a pagination loop. *)
Record cursor : Type := {
allProducts : list value;
skip : Z;
hasMore : bool;
consecutiveErrors : Z
}.

(** How one turn of a loop ends: it falls through to the loop test or it
  leaves by [break]. *)
Inductive flow : Type :=
| Next (c : cursor)
| Break (c : cursor).

(** [response.data] when the response passes
  [!response || !Array.isArray(response.data)]. *)
Definition page_data (response : value) : option (list value) :=
if truthy response then
  match get response "data" with
  | Ok (VArr products) => Some products
  | _ => None
  end
else None.

(** [a < b] for a [b] that [parseInt] returned. *)
Definition lt_parsed (a : Z) (b : value) : bool :=
match b with VNum z => a <? z | _ => false end.

(** [hasMore] after a page that was not empty: from [response.count] when
  it is there ([window] is the take added to [skip]), else from the size
  of the page against the take that was [requested]. *)
Definition more_after (response : value) (products : list value)
         (skip window requested : Z) : bool :=
match get response "count" with
| Ok count =>
    if truthy count then lt_parsed (skip + window) (parseInt count)
    else len products =? requested
| Throw _ => false
end.

Definition invalid_response {A} (response : value) : Comp A :=
text <- lift (stringify_prefix response 100) ;;
throw (JsError ("Invalid response format: " ++ text ++ "...")%string).

Section Loops.
Variable fuel : nat.
Variable cfg : config.
(** [new URL(url)] accepts the string. *)
Variable URL_ok : string -> bool.

(** What both loops do with a response, from the format test on. *)
Definition absorb (maxProducts : limit) (c : cursor) (response : value)
           (window requested : Z) : Comp flow :=
  match page_data response with
  | None => invalid_response response
  | Some products =>
      if len products =? 0 then
        ret (Break {| allProducts := allProducts c; skip := skip c;
                      hasMore := false;
                      consecutiveErrors := consecutiveErrors c |})
      else
        let c' := {| allProducts := allProducts c ++ products;
                     skip := skip c + requested;
                     hasMore := more_after response products (skip c) window requested;
                     consecutiveErrors := 0 |} in
        if reached (len (allProducts c')) maxProducts then ret (Break c')
        else
          (if hasMore c' then sleep PageWait else ret tt) ;;;
          ret (Next c')
  end.

(** The [catch] of a loop turn. *)
Definition page_failed (maxRetries : Z) (c : cursor) (error : exn) : Comp flow :=
  let c' := {| allProducts := allProducts c; skip := skip c;
               hasMore := hasMore c;
               consecutiveErrors := consecutiveErrors c + 1 |} in
  _ <- lift (message error) ;;
  if consecutiveErrors c' >=? maxRetries then ret (Break c')
  else sleep PageBackoff ;;; ret (Next c').

(** [while (hasMore && allProducts.length < maxProducts &&
           consecutiveErrors < maxRetries) { try {...} catch {...} }] *)
Fixpoint paginate (turn : cursor -> Comp flow) (maxProducts : limit)
         (maxRetries : Z) (gas : nat) (c : cursor) : Comp cursor :=
  match gas with
  | O => out_of_fuel
  | S gas' =>
      if hasMore c && below (len (allProducts c)) maxProducts
         && (consecutiveErrors c <? maxRetries)
      then
        f <- turn c ;;
        match f with
        | Next c' => paginate turn maxProducts maxRetries gas' c'
        | Break c' => ret c'
        end
      else ret c
  end.

Definition start : cursor :=
  {| allProducts := []; skip := 0; hasMore := true; consecutiveErrors := 0 |}.

(** One turn of the loop of [fetchProductsByCategory]. *)
Definition category_turn (category : string) (maxProducts : limit) (c : cursor)
  : Comp flow :=
  try_catch
    (let take := min_with (batchSize cfg) (minus maxProducts (len (allProducts c))) in
     response <- getSearchResults (retryAttempts cfg) category (skip c) take ;;
     absorb maxProducts c response take take)
    (page_failed (retryAttempts cfg) c).

Definition category_cursor (category : string) (maxProducts : limit) : Comp cursor :=
  _ <- getCategoryCounts (retryAttempts cfg) category ;;
  paginate (category_turn category maxProducts) maxProducts (retryAttempts cfg)
           fuel start.

Definition fetchProductsByCategory (category : string) (maxProducts : limit)
  : Comp (list value) :=
  try_catch
    (c <- category_cursor category maxProducts ;;
     ret (trim_to maxProducts (allProducts c)))
    (fun error => _ <- lift (message error) ;; ret []).

(** One turn of the loop of [fetchProductsByUrl]; [take] is the constant
    50 and [maxRetries] the constant 3. *)
Definition url_turn (url : string) (maxProducts : limit) (c : cursor) : Comp flow :=
  try_catch
    (if URL_ok url then
       let currentTake := min_with 50 (minus maxProducts (len (allProducts c))) in
       response <- makeApiRequest (GetByUrl url (skip c) currentTake) ;;
       absorb maxProducts c response 50 currentTake
     else throw (JsError "Invalid URL"))
    (page_failed 3 c).

Definition url_cursor (url : string) (maxProducts : limit) : Comp cursor :=
  paginate (url_turn url maxProducts) maxProducts 3 fuel start.

Definition fetchProductsByUrl (url : string) (maxProducts : limit)
  : Comp (list value) :=
  if String.eqb url "" then throw (JsError "URL is required")
  else
    try_catch
      (c <- url_cursor url maxProducts ;;
       ret (trim_to maxProducts (allProducts c)))
      (fun error => _ <- lift (message error) ;; ret []).

(** The own enumerable properties that [{ ...v }] copies. *)
Definition spread (v : value) : list (string * value) :=
  match v with
  | VObj fields => fields
  | _ => map (fun k => (k, match get v k with Ok x => x | Throw _ => VUndefined end))
             (keys v)
  end.

(** The callback of [batch.map]: the product with its details, or the
    product as it came. *)
Definition with_details (product : value) : Comp value :=
  try_catch
    (id <- lift (get product "id") ;;
     pid <- lift (get product "productId") ;;
     let productId := or_ id pid in
     if negb (truthy productId) then
       _ <- lift (stringify_prefix product 100) ;;
       ret product
     else
       details <- getProductDetails (retryAttempts cfg) productId ;;
       if negb (truthy details) then ret product
       else ret (VObj (assign "details" details (spread product))))
    (fun error => _ <- lift (message error) ;; ret product).

(** [await Promise.all(batch.map(f))]: the results come in the order of
    the batch.  The calls of a group are run one after the other; every
    other interleaving gives each call some sequence of upstream replies,
    which the quantification over [upstream] covers. *)
Fixpoint all {A B} (f : A -> Comp B) (batch : list A) : Comp (list B) :=
  match batch with
  | [] => ret []
  | x :: rest => y <- f x ;; ys <- all f rest ;; ret (y :: ys)
  end.

(** [for (let i = 0; i < batches.length; i++)] *)
Fixpoint detail_batches (batches : list (list value))
         (productsWithDetails : list value) : Comp (list value) :=
  match batches with
  | [] => ret productsWithDetails
  | batch :: rest =>
      batchResults <- all with_details batch ;;
      (match rest with [] => ret tt | _ => sleep GroupWait end) ;;;
      detail_batches rest (productsWithDetails ++ batchResults)
  end.

(** [fetchProductDetails(products)] for an argument that is an array. *)
Definition fetchProductDetails (products : list value) : Comp (list value) :=
  match products with
  | [] => ret []
  | _ =>
      match chunk fuel products (parallelRequests cfg) with
      | None => out_of_fuel
      | Some batches => detail_batches batches []
      end
  end.

(** [JSON.parse], as in the mapper. *)
Variable JSON_parse : string -> option value.

(** [mapProducts]: [products.map(try mapProductToPart).filter(Boolean)] *)
Definition mapProducts (products : list value) : outcome (list value) :=
  MapperCommon.obind
    (MapperCommon.omap
       (fun product =>
          match Mapper.mapProductToPart JSON_parse product with
          | Ok part => Ok part
          | Throw error => MapperCommon.obind (message error) (fun _ => Ok VNull)
          end) products)
    (fun mapped => Ok (filter truthy mapped)).

(** [initialize]: the cookie and URL checks leave the catalog API alone;
    the API probe is awaited and a throw of it is logged and thrown on. *)
Definition initialize : Comp unit :=
  try_catch (initializeApi (retryAttempts cfg))
            (fun error => _ <- lift (message error) ;; throw error).

(** The body shared by the three [for ... of] loops of [scrape]; [fetch]
    is the call that collects the products of one input. *)
Fixpoint collect (fetch : string -> limit -> Comp (list value)) (opts : options)
         (inputs : list string) (all_ : list value) : Comp (list value) :=
  match inputs with
  | [] => ret all_
  | input :: rest =>
      let remainingProducts := minus (maxProducts opts) (len all_) in
      if exhausted remainingProducts then ret all_
      else
        products <- fetch input remainingProducts ;;
        if len products =? 0 then collect fetch opts rest all_
        else
          productsWithDetails <-
            (if fetchDetails opts then fetchProductDetails products
             else ret products) ;;
          collect fetch opts rest (all_ ++ productsWithDetails)
  end.

(** A category that starts with [http] is a URL. *)
Definition fetch_input (category : string) (remaining : limit) : Comp (list value) :=
  if String.prefix "http" category then fetchProductsByUrl category remaining
  else fetchProductsByCategory category remaining.

(** [scrape(categories, options)] for an array of categories. *)
Definition scrape (categoryList : list string) (opts : options) : Comp (list value) :=
  match categoryList with
  | [] => ret []
  | _ =>
      try_catch
        (initialize ;;;
         raw <- (if usePresetUrls opts && negb (len (categoryUrls cfg) =? 0)
                 then collect fetchProductsByUrl opts (categoryUrls cfg) []
                 else collect fetch_input opts categoryList []) ;;
         lift (mapProducts raw))
        (fun error => _ <- lift (message error) ;; throw error)
  end.
End Loops.

End LkqScraper.

(* ===================================================================== *)
(** ** Session acquisition: extractCookiesWithPuppeteer and
     scripts/get-lkq-cookies.js *)
(* ===================================================================== *)

Module GetLkqCookies.
Import Js MapperCommon.

(** [hay.includes(needle)] *)
Fixpoint includes (needle hay : string) : bool :=
String.prefix needle hay ||
match hay with
| String _ rest => includes needle rest
| EmptyString => false
end.




(** An axios response as the script reads it. *)
Record response : Type := {
status : Z;
data : value;
set_cookie : option (list string)
}.







Section Script.
Variable baseUrl : string.
Variable userAgent : string.



End Script.

End GetLkqCookies.

(* ===================================================================== *)
(** ** Vocabulary of the statements *)
(* ===================================================================== *)

Module Spec.
Import Js Sim ScraperUtils LkqApi LkqScraper.

(** The world right after the backoff timer of [retry] fired. *)
Definition after_backoff (w : world) : world :=
{| upstream := upstream w; served := served w;
   trace := trace w ++ [Slept RetryBackoff] |}.

(** [failing_run fn k w wk]: started in [w], [fn] throws an [Error] [k]
  times in a row, each throw followed by one backoff; [wk] is the world
  in which the next attempt starts. *)
Fixpoint failing_run {A} (fn : Comp A) (k : nat) (w wk : world) : Prop :=
match k with
| O => wk = w
| S k' =>
    exists m w1, fn w = Some (Throw (JsError m), w1) /\
                 failing_run fn k' (after_backoff w1) wk
end.

(** A computation that ends in every world, and never by throwing
  [undefined]. *)
Definition proper {A} (c : Comp A) : Prop :=
forall w, exists r w', c w = Some (r, w') /\ r <> Throw JsUndefined.

(** A computation that ends normally in every world. *)
Definition safe {A} (c : Comp A) : Prop :=
forall w, exists a w', c w = Some (Ok a, w').

(** A computation that, when it ends, ends normally. *)
Definition quiet {A} (c : Comp A) : Prop :=
forall w r w', c w = Some (r, w') -> exists a, r = Ok a.

(** The page requests of a trace, oldest first: skip, take and reply. *)
Fixpoint page_requests (t : list event) : list (Z * Z * reply) :=
match t with
| [] => []
| Issued (GetSearchResults _ skip take) a :: rest => (skip, take, a) :: page_requests rest
| Issued (GetByUrl _ skip take) a :: rest => (skip, take, a) :: page_requests rest
| _ :: rest => page_requests rest
end.

(** A reply moves the cursor on when it is a well-formed page with items. *)
Definition advances (a : reply) : bool :=
match a with
| Returns response =>
    match page_data response with
    | Some (_ :: _) => true
    | _ => false
    end
| Fails _ => false
end.

(** [contiguous sk l sk']: the requests of [l] start at skip [sk]; a request
  whose reply advances is followed by skip + take, any other by the same
  skip again; [sk'] is the skip after the last one. *)
Fixpoint contiguous (sk : Z) (l : list (Z * Z * reply)) (sk' : Z) : Prop :=
match l with
| [] => sk' = sk
| (s, t, a) :: rest =>
    s = sk /\ contiguous (if advances a then sk + t else sk) rest sk'
end.

Definition skips (l : list (Z * Z * reply)) : list Z := map (fun r => fst (fst r)) l.
Definition takes (l : list (Z * Z * reply)) : list Z := map (fun r => snd (fst r)) l.

(** A world whose upstream answers the calls with [script], then with
  [rest] for ever. *)
Definition scripted (script : list reply) (rest : reply) : world :=
{| upstream := fun n => nth n script rest; served := 0; trace := [] |}.

(** A page of [n] items without a total count. *)
Definition page_of (n : nat) : reply :=
Returns (VObj [("data", VArr (repeat (VObj [("id", VNum 1)]) n))]).

(** The outcomes of the detail callback for one product. *)
Inductive enrichment (retryAttempts : Z) (product : value) (w : world)
: value -> world -> Prop :=
| NoId : forall e,
  get product "id" = Throw e ->
  enrichment retryAttempts product w product w
| MissingId : forall id pid,
  get product "id" = Ok id -> get product "productId" = Ok pid ->
  truthy (or_ id pid) = false ->
  enrichment retryAttempts product w product w
| DetailFailed : forall id pid m w',
  get product "id" = Ok id -> get product "productId" = Ok pid ->
  truthy (or_ id pid) = true ->
  getProductDetails retryAttempts (or_ id pid) w = Some (Throw (JsError m), w') ->
  enrichment retryAttempts product w product w'
| DetailEmpty : forall id pid details w',
  get product "id" = Ok id -> get product "productId" = Ok pid ->
  truthy (or_ id pid) = true ->
  getProductDetails retryAttempts (or_ id pid) w = Some (Ok details, w') ->
  truthy details = false ->
  enrichment retryAttempts product w product w'
| Merged : forall id pid details w',
  get product "id" = Ok id -> get product "productId" = Ok pid ->
  truthy (or_ id pid) = true ->
  getProductDetails retryAttempts (or_ id pid) w = Some (Ok details, w') ->
  truthy details = true ->
  enrichment retryAttempts product w
             (VObj (assign "details" details (spread product))) w'.

(** [out] is what the detail callback made of [product] in some world of
  the run. *)
Definition enriched (retryAttempts : Z) (product out : value) : Prop :=
exists w w', enrichment retryAttempts product w out w'.

(** A computation that, when it ends by a throw, throws an [Error]. *)
Definition civil {A} (c : Comp A) : Prop :=
forall w r w', c w = Some (r, w') -> r <> Throw JsUndefined.

(** What a turn that falls through to the loop test did to the cursor: it
  added products and reset the error counter, or it counted one more
  error. *)
Definition progress (c c' : cursor) : Prop :=
(len (allProducts c) < len (allProducts c') /\ consecutiveErrors c' = 0) \/
(len (allProducts c') = len (allProducts c) /\
 consecutiveErrors c' = consecutiveErrors c + 1).

(** The variant of the pagination loop for a finite limit [k] and an error
  ceiling [R]. *)
Definition variant (k R : Z) (c : cursor) : Z :=
Z.max 0 (k - len (allProducts c)) * (R + 1) + Z.max 0 (R - consecutiveErrors c).

(** A pure step that, when it throws, throws an [Error]. *)
Definition polite {A} (o : outcome A) : Prop := o <> Throw JsUndefined.

(** The part [mapProducts] keeps for one product before it filters. *)
Definition mapped (JSON_parse : string -> option value) (product : value) : value :=
match Mapper.mapProductToPart JSON_parse product with
| Ok part => part
| Throw _ => VNull
end.

(** [part.k] of a part that is an object. *)
Definition field (part : value) (k : string) : value :=
match get part k with
| Ok x => x
| Throw _ => VUndefined
end.

(** The preset URLs are usable when none of them is empty. *)
Definition presets_ok (cfg : config) (opts : options) : Prop :=
usePresetUrls opts = true -> Forall (fun url => url <> "") (categoryUrls cfg).

(** The fuel that is enough for a limit of [k] products: the variant of the
  longest pagination loop, which also exceeds the size of every group
  list. *)
Definition enough (cfg : config) (k : Z) : nat :=
let R := Z.max (retryAttempts cfg) 3 in
S (Z.to_nat (Z.max 0 k * (R + 1) + R)).

Definition cursor_of (f : flow) : cursor :=
match f with Next c => c | Break c => c end.

(** [grows P c]: whenever [c] ends, it has added to the trace events that
  satisfy [P]. *)
Definition grows {A} (P : list event -> Prop) (c : Comp A) : Prop :=
forall w r w', c w = Some (r, w') ->
               exists new, trace w' = (trace w ++ new)%list /\ P new.

(** Events without a page request. *)
Definition no_pages (new : list event) : Prop := page_requests new = [].

(** The page requests among [new] start at skip [sk], follow each other as
  [contiguous] says, and each asks for at least [lo] items. *)
Definition paged (sk lo : Z) (new : list event) : Prop :=
(exists sk', contiguous sk (page_requests new) sk') /\
Forall (fun t => lo <= t) (takes (page_requests new)).

(** Where the cursor stands after a reply. *)
Definition lands (sk tk : Z) (a : reply) : Z :=
if advances a then sk + tk else sk.

(** What a loop turn adds to the trace, from a cursor at [skip c]. *)
Definition turn_paged (lo : Z) (c : cursor) (r : outcome flow) (w w' : world) : Prop :=
exists new,
  trace w' = (trace w ++ new)%list /\
  Forall (fun t => lo <= t) (takes (page_requests new)) /\
  match r with
  | Ok f => contiguous (skip c) (page_requests new) (skip (cursor_of f))
  | Throw _ => exists sk', contiguous (skip c) (page_requests new) sk'
  end.

(** The next [n] calls all fail. *)
Definition failing_window (w : world) (n : Z) : Prop :=
forall i : nat, (served w <= i)%nat -> Z.of_nat i < Z.of_nat (served w) + n ->
                exists m, upstream w i = Fails m.

(** The operation [getSearchResults] hands to [retry]. *)
Definition search (category : string) (sk tk : Z) : Comp value :=
sleep HumanDelay ;;; makeApiRequest (GetSearchResults category sk tk).

(** The headers whose values are session material. *)
Definition secret_header (k : string) : bool :=
String.eqb k "Cookie" || String.prefix "XvPW5hYbpt" k.


(** The years of the compatibility entries of a part. *)
Definition years (part : value) : list value :=
match field part "compatibility" with
| VArr entries => map (fun entry => field entry "year") entries
| _ => []
end.

(** *** Concrete inputs *)

(** The defaults of [config/index.js]. *)
Definition default_config : config :=
{| retryAttempts := 3;
   batchSize := 500;
   parallelRequests := 1;
   requestDelay := 1000;
   categoryUrls :=
     ["https://www.lkqonline.com/api/catalog/0/product?catalogId=0&category=Engine%20Compartment%7CAlternator&sort=closestFirst&skip=0&take=50";
      "https://www.lkqonline.com/api/catalog/0/product?catalogId=0&category=Engine%20Compartment%7CBattery&sort=closestFirst&skip=0&take=50"] |}.

(** The defaults with pages of 50 and groups of 2. *)
Definition small_config : config :=
{| retryAttempts := 3; batchSize := 50; parallelRequests := 2;
   requestDelay := 1000; categoryUrls := [] |}.

(** One retry only, to keep the failing scenario short. *)
Definition impatient_config : config :=
{| retryAttempts := 1; batchSize := 50; parallelRequests := 1;
   requestDelay := 1000; categoryUrls := [] |}.


Definition any_url : string -> bool := fun _ => true.
Definition no_json : string -> option value := fun _ => None.

Definition alternator_url : string :=
"https://www.lkqonline.com/api/catalog/0/product?catalogId=0&category=Engine%20Compartment%7CAlternator&sort=closestFirst&skip=0&take=50".

Definition limited (k : Z) : options :=
{| maxProducts := Finite k; fetchDetails := true; usePresetUrls := false |}.

Definition plain (k : Z) : options :=
{| maxProducts := Finite k; fetchDetails := false; usePresetUrls := false |}.

Definition item (id : Z) : value := VObj [("id", VNum id)].

(** A fitment list with the year as text, and its JSON text. *)
Definition fitments_2015 : value :=
VArr [VObj [("SystemMake", VStr "Honda"); ("SystemModel", VStr "Civic");
            ("SystemYear", VStr "2015")]].

Definition fitment_text : string := "[fitments of a 2015 Honda Civic]".

Definition parse_fitments (s : string) : option value :=
if String.eqb s fitment_text then Some fitments_2015 else None.

(** What a run of a pagination loop ended in. *)
Definition cursor_summary (r : option (outcome cursor * world))
: option (bool * Z * list Z) :=
match r with
| Some (Ok c, w') => Some (hasMore c, len (allProducts c), skips (page_requests (trace w')))
| _ => None
end.

Definition products_summary (r : option (outcome (list value) * world))
: option (Z * list Z) :=
match r with
| Some (Ok products, w') => Some (len products, skips (page_requests (trace w')))
| _ => None
end.

(** The upstream of the failing scenario: the count probe of the first
  category is answered, its page fetches fail, the second category is
  answered. *)
Definition one_bad_category : world :=
scripted [page_of 1; Fails "ETIMEDOUT"; Fails "ETIMEDOUT"] (page_of 2).

(** The years of what a mapper returned. *)
Definition result_years (o : outcome value) : option (list value) :=
match o with
| Ok part => Some (years part)
| Throw _ => None
end.

(** A product whose image list is not a list. *)
Definition broken_product : value :=
VObj [("number", VStr "ALT-1"); ("description", VStr "Alternator"); ("images", VNum 5)].





End Spec.

(* ===================================================================== *)
(** ** utils/scraper-utils.js: parseCookies *)
(* ===================================================================== *)

Module CookieUtils.
Import Js MapperCommon.


End CookieUtils.

(* ===================================================================== *)
(** ** scrapers/lkq/api.js: what makeApiRequest sends and what it makes
     of the response *)
(* ===================================================================== *)

Module Wire.
Import Js.

(** [c.toUpperCase()] for the letters of ASCII. *)
Definition upper (c : ascii) : ascii :=
let n := N_of_ascii c in
if ((97 <=? n) && (n <=? 122))%N then ascii_of_N (n - 32) else c.

Fixpoint toUpperCase (s : string) : string :=
match s with
| String c r => String (upper c) (toUpperCase r)
| EmptyString => EmptyString
end.

(** [method.toUpperCase() === 'GET'] *)
Definition isGET (method : string) : bool := String.eqb (toUpperCase method) "GET".

(** [params.k] *)
Definition prop (params : list (string * value)) (k : string) : value :=
match lookup k params with
| Some x => x
| None => VUndefined
end.

(** [delete params.k] *)
Definition remove (k : string) (params : list (string * value)) : list (string * value) :=
filter (fun kv => negb (String.eqb (fst kv) k)) params.

(** [v !== 0] *)
Definition not_zero (v : value) : bool :=
match v with
| VNum z => negb (z =? 0)
| _ => true
end.

(** The parameter object after the four adjustments [makeApiRequest] makes
  before it builds the URL: a default [action] for a GET, no truthy
  [latitude] or [longitude], a default [catalogId] for a GET. *)
Definition prepare (method : string) (params : list (string * value))
: list (string * value) :=
let p1 := if negb (truthy (prop params "action")) && isGET method
          then assign "action" (VStr "GetSearchResults") params
          else params in
let p2 := if truthy (prop p1 "latitude") then remove "latitude" p1 else p1 in
let p3 := if truthy (prop p2 "longitude") then remove "longitude" p2 else p2 in
if isGET method then
  if negb (truthy (prop p3 "catalogId")) && not_zero (prop p3 "catalogId")
  then assign "catalogId" (VNum 0) p3
  else p3
else p3.

(** The pairs [queryParams.append(key, value)] adds for a GET. *)
Definition query (params : list (string * value)) : list (string * string) :=
map (fun kv => (fst kv, toString (snd kv))) params.

(** What axios is given back: no response at all (a transport error with
  its message), or a response. *)
Record response : Type := {
status : Z;
contentType : option string;   (* [response.headers['content-type']] *)
data : value
}.

Inductive exchange : Type :=
| NoResponse (message : string)
| Answered (r : response).

(** [typeof data === 'string' ? data : JSON.stringify(data)]; [None] is
  the [undefined] of [JSON.stringify(undefined)]. *)
Definition responseStr (data : value) : option string :=
match data with
| VStr s => Some s
| _ => stringify data
end.

(** Reading a method of [responseStr] throws when it is [undefined]. *)
Definition method_of (o : option string) (name : string) : outcome string :=
match o with
| Some s => Ok s
| None =>
    Throw (JsError ("Cannot read properties of undefined (reading '" ++ name ++ "')")%string)
end.

Definition html_error : exn :=
JsError "Received HTML response instead of JSON. Authentication may have failed.".

(** From the response on: [validateStatus] rejects a status of 500 or
  more, the HTML test throws, everything else returns [response.data];
  the [catch] logs and throws the error on. *)
Definition settle (x : exchange) : outcome value :=
match x with
| NoResponse m => Throw (JsError m)
| Answered r =>
    if status r <? 500 then
      let contentType :=
        match contentType r with
        | Some h => if String.eqb h "" then "" else h
        | None => ""
        end in
      let str := responseStr (data r) in
      let html :=
        if GetLkqCookies.includes "text/html" contentType then Ok true
        else
          match method_of str "includes" with
          | Ok s => Ok (GetLkqCookies.includes "<!DOCTYPE html>" s ||
                        GetLkqCookies.includes "<html" s)
          | Throw e => Throw e
          end in
      match html with
      | Throw e => Throw e
      | Ok true =>
          match method_of str "substring" with
          | Ok _ => Throw html_error
          | Throw e => Throw e
          end
      | Ok false => Ok (data r)
      end
    else Throw (JsError ("Request failed with status code " ++ string_of_Z (status r))%string)
end.

(** The reply of the upstream as the pagination code sees it. *)
Definition reply_of (x : exchange) : option Sim.reply :=
match settle x with
| Ok v => Some (Sim.Returns v)
| Throw (JsError m) => Some (Sim.Fails m)
| Throw JsUndefined => None
end.

End Wire.

(* ===================================================================== *)
(** ** services/storage/index.js: storeScrapedData *)
(* ===================================================================== *)

Module Storage.
Import Js.

(** The counters of [result], and [totalItemsScraped] of what is
  returned. *)
Record counts : Type := {
total : Z;
created : Z;
updated : Z;
failed : Z;
errors : list (value * string)
}.

Record summary : Type := {
result : counts;
totalItemsScraped : Z
}.

Record options : Type := {
jobId : value;
updateTotalOnly : bool;
currentTotal : Z
}.

(** What a call of [ScraperJob.findOneAndUpdate] sets; dates and the
  duration are left out. *)
Inductive job_update : Type :=
| Running (first : bool)
| Progress (itemsScraped : Z)
| Completed (itemsScraped : Z)
| Failed (message : string).

Section Store.
(** The database and the calls of the two models; what a call does to
    the database and whether it throws is left open. *)
Variable DB : Type.

Definition Db (A : Type) : Type := DB -> outcome A * DB.

Variable Part_findOne : value -> string -> Db value.
Variable Part_findByIdAndUpdate : value -> list (string * value) -> Db unit.
Variable Part_create : list (string * value) -> Db unit.
Variable Job_findOneAndUpdate : value -> job_update -> Db unit.
Variable Job_startTime : value -> Db value.

Definition dret {A} (a : A) : Db A := fun db => (Ok a, db).

Definition dbind {A B} (c : Db A) (k : A -> Db B) : Db B :=
  fun db =>
    match c db with
    | (Ok a, db') => k a db'
    | (Throw e, db') => (Throw e, db')
    end.

Definition dlift {A} (o : outcome A) : Db A := fun db => (o, db).

Definition dtry {A} (c : Db A) (h : exn -> Db A) : Db A :=
  fun db =>
    match c db with
    | (Ok a, db') => (Ok a, db')
    | (Throw e, db') => h e db'
    end.

Definition item_number (item : list (string * value)) : value :=
  match lookup "partNumber" item with
  | Some x => x
  | None => VUndefined
  end.

(** The [try] block of the loop, for an item that is an object: the
    upsert by part number and source. *)
Definition upsert (source : string) (item : list (string * value)) (r : counts)
  : Db counts :=
  let item := assign "source" (VStr source) item in
  dbind (Part_findOne (item_number item) source) (fun existingPart =>
  if truthy existingPart then
    dbind (dlift (get existingPart "_id")) (fun id =>
    dbind (Part_findByIdAndUpdate id item) (fun _ =>
    dret {| total := total r; created := created r; updated := updated r + 1;
            failed := failed r; errors := errors r |}))
  else
    dbind (Part_create item) (fun _ =>
    dret {| total := total r; created := created r + 1; updated := updated r;
            failed := failed r; errors := errors r |})).

(** One turn of [for (const item of data)] with its [catch]. *)
Definition store_item (source : string) (item : list (string * value)) (r : counts)
  : Db counts :=
  dtry (upsert source item r)
       (fun error =>
          dbind (dlift (message error)) (fun m =>
          dret {| total := total r; created := created r; updated := updated r;
                  failed := failed r + 1;
                  errors := errors r ++
                            [(item_number (assign "source" (VStr source) item), m)] |})).

Fixpoint store_items (source : string) (data : list (list (string * value)))
         (r : counts) : Db counts :=
  match data with
  | [] => dret r
  | item :: rest => dbind (store_item source item r) (store_items source rest)
  end.

(** [storeScrapedData(source, data, options)] for an array of objects. *)
Definition storeScrapedData (source : string) (data : list (list (string * value)))
           (opts : options) : Db summary :=
  dtry
    (dbind (if truthy (jobId opts) && negb (updateTotalOnly opts)
            then Job_findOneAndUpdate (jobId opts) (Running (currentTotal opts =? 0))
            else dret tt) (fun _ =>
     dbind (store_items source data
              {| total := Z.of_nat (List.length data); created := 0; updated := 0;
                 failed := 0; errors := [] |}) (fun r =>
     let totalItemsScraped := currentTotal opts + created r + updated r in
     dbind (if truthy (jobId opts) then
              if updateTotalOnly opts
              then Job_findOneAndUpdate (jobId opts) (Progress totalItemsScraped)
              else dbind (Job_startTime (jobId opts)) (fun _ =>
                   Job_findOneAndUpdate (jobId opts) (Completed totalItemsScraped))
            else dret tt) (fun _ =>
     dret {| result := r; totalItemsScraped := totalItemsScraped |}))))
    (fun error =>
       dbind (dlift (message error)) (fun m =>
       dbind (if truthy (jobId opts) && negb (updateTotalOnly opts)
              then Job_findOneAndUpdate (jobId opts) (Failed m)
              else dret tt) (fun _ =>
       dlift (Throw error)))).
End Store.

End Storage.

(* ===================================================================== *)
(** ** Vocabulary of the further properties *)
(* ===================================================================== *)

Module Props.
Import Js Sim ScraperUtils LkqApi LkqScraper Spec.
Import MapperCommon.

(** The items a reply carries: the page of a well-formed response. *)
Definition items_of (a : reply) : list value :=
match a with
| Returns response =>
    match page_data response with
    | Some products => products
    | None => []
    end
| Fails _ => []
end.

(** The items of all page replies of a trace, oldest first. *)
Definition received (t : list event) : list value :=
flat_map (fun q => items_of (snd q)) (page_requests t).

(** [spends n c]: whenever [c] ends it has issued at most [n] calls and has
  left the replies of the upstream as they were. *)
Definition spends {A} (n : nat) (c : Comp A) : Prop :=
forall w r w', c w = Some (r, w') ->
               upstream w' = upstream w /\
               (served w <= served w')%nat /\
               (served w' <= served w + n)%nat.

(** The calls a catalog function may issue under a retry ceiling [R]. *)
Definition tries (R : Z) : nat := Z.to_nat (R + 1).

(** The timers of a trace that are the wait between two detail groups. *)
Fixpoint group_waits (t : list event) : nat :=
match t with
| [] => O
| Slept GroupWait :: rest => S (group_waits rest)
| _ :: rest => group_waits rest
end.

(** The detail requests of a trace: the product ids asked for. *)
Fixpoint detail_requests (t : list event) : list value :=
match t with
| [] => []
| Issued (GetProductDetails productId) _ :: rest => productId :: detail_requests rest
| _ :: rest => detail_requests rest
end.

(** The id the detail callback asks for: [product.id || product.productId]. *)
Definition product_id (product : value) : value :=
or_ (field product "id") (field product "productId").

(** What the batcher may add to the trace for [products]: a timer, or a
  detail request for the id of one of them. *)
Definition detail_event (products : list value) (e : event) : Prop :=
match e with
| Slept _ => True
| Issued (GetProductDetails productId) _ =>
    exists product, In product products /\ productId = product_id product
| Issued _ _ => False
end.

(** A page size that is within the batch size [b] and within the limit. *)
Definition within (b : Z) (m : limit) (take : Z) : Prop :=
take <= b /\ match m with Finite k => take <= k | Infinity => True end.

(** What [fetchProductsByCategory] may add to the trace: a timer, the
  count probe of the category, or a page request for the category. *)
Definition category_event (category : string) (b : Z) (m : limit) (e : event) : Prop :=
match e with
| Slept _ => True
| Issued (GetCategoryCounts c) _ => c = category
| Issued (GetSearchResults c _ take) _ => c = category /\ within b m take
| Issued _ _ => False
end.

(** What [fetchProductsByUrl] may add to the trace: a timer or a page
  request for the URL. *)
Definition url_event (url : string) (m : limit) (e : event) : Prop :=
match e with
| Slept _ => True
| Issued (GetByUrl u _ take) _ => u = url /\ within 50 m take
| Issued _ _ => False
end.

(** The result and the added events of a run that ended normally. *)
Definition products_of (run : option (outcome (list value) * world)) : list value :=
match run with
| Some (Ok products, _) => products
| _ => []
end.

Definition world_of {A} (run : option (outcome A * world)) (w : world) : world :=
match run with
| Some (_, w') => w'
| None => w
end.

(** The number of groups [chunk] makes of [n] items. *)
Definition groups (n size : Z) : nat := Z.to_nat ((n + size - 1) / size).




(** The parameters [makeApiRequest] adjusts. *)
Definition adjusted (k : string) : bool :=
String.eqb k "action" || String.eqb k "latitude" ||
String.eqb k "longitude" || String.eqb k "catalogId".

(** The two deletions of [makeApiRequest]. *)
Definition without_coordinates (p1 : list (string * value)) : list (string * value) :=
let p2 := if truthy (Wire.prop p1 "latitude") then Wire.remove "latitude" p1 else p1 in
if truthy (Wire.prop p2 "longitude") then Wire.remove "longitude" p2 else p2.

(** The response carries a page of HTML, as [makeApiRequest] tests it. *)
Definition html_like (r : Wire.response) : bool :=
match Wire.contentType r with
| Some h => GetLkqCookies.includes "text/html" h
| None => false
end ||
match Wire.responseStr (Wire.data r) with
| Some s => GetLkqCookies.includes "<!DOCTYPE html>" s || GetLkqCookies.includes "<html" s
| None => false
end.

(** The counters account for [n] items: each item was created, updated
  or failed, and each failure left one entry in [errors]. *)
Definition balanced (n : Z) (r : Storage.counts) : Prop :=
Storage.created r + Storage.updated r + Storage.failed r = n /\
Z.of_nat (List.length (Storage.errors r)) = Storage.failed r /\
0 <= Storage.created r /\ 0 <= Storage.updated r /\ 0 <= Storage.failed r.

(** The text [name=value] of a cookie. *)
Definition entry (c : string * string) : string := (fst c ++ "=" ++ snd c)%string.





(** The fields both mapper texts fill in the same way. *)
Definition shared_fields : list string :=
["partNumber"; "name"; "description"; "currency"; "manufacturer"; "category";
 "subcategory"; "images"; "specifications"; "source"; "sourceUrl"; "inStock";
 "quantity"; "condition"].

(** The values the Part model accepts for [condition]. *)
Definition conditions : list value :=
[VStr "new"; VStr "used"; VStr "refurbished"; VStr "unknown"].

Definition has_key (part : value) (k : string) : Prop :=
match part with
| VObj fields => lookup k fields <> None
| _ => False
end.

(** What the Part model asks of a record, as far as the mapper decides
  it: the three required fields are there, the source is the scraper's,
  and a condition, when there is one, is one of the model's. *)
Definition conforms (part : value) : Prop :=
has_key part "partNumber" /\ has_key part "name" /\
field part "source" = VStr "lkq" /\
(field part "condition" = VUndefined \/ In (field part "condition") conditions).

(** *** Concrete inputs *)

(** The upstream returns a page of two items, then empty pages. *)
Definition two_then_none : world := scripted [page_of 2] (page_of 0).

(** A run of each pagination entry point with a limit of three products. *)
Definition url_run : option (outcome (list value) * world) :=
fetchProductsByUrl 9 any_url alternator_url (Finite 3) two_then_none.

Definition category_run : option (outcome (list value) * world) :=
fetchProductsByCategory 9 small_config "Engine Compartment|Alternator" (Finite 3)
                        (scripted [page_of 1; page_of 2] (page_of 0)).

(** A run of [scrape] over one URL with a limit of three products. *)
Definition scrape_run : option (outcome (list value) * world) :=
scrape 40 small_config any_url no_json [alternator_url] (plain 3)
       (scripted [page_of 1; page_of 1; page_of 2] (page_of 0)).

(** No retries at all. *)
Definition no_retry_config : config :=
{| retryAttempts := 0; batchSize := 50; parallelRequests := 1;
   requestDelay := 1000; categoryUrls := [] |}.

Definition no_url : string -> bool := fun _ => false.

(** A product with a field the mapper does not know, and its details. *)
Definition alternator : list (string * value) :=
[("id", VNum 7); ("number", VStr "ALT-7"); ("warranty", VStr "6 months")].

Definition vin_details : value := VObj [("vin", VStr "1HG")].

(** A database that keeps the parts it is given in a list, finds the
  first one with the part number asked for, and refuses a part without a
  part number. *)
Definition shelf : Type := list (list (string * value)).

Definition same_number (partNumber : value) (part : list (string * value)) : bool :=
String.eqb (toString partNumber) (toString (Storage.item_number part)).

Definition shelf_findOne (partNumber : value) (source : string) : Storage.Db shelf value :=
fun db => (Ok (match find (same_number partNumber) db with
               | Some part => VObj (("_id", partNumber) :: part)
               | None => VNull
               end), db).

Definition shelf_update (id : value) (item : list (string * value))
: Storage.Db shelf unit :=
fun db => (Ok tt, map (fun part => if same_number id part then item else part) db).

Definition shelf_create (item : list (string * value)) : Storage.Db shelf unit :=
fun db => if truthy (Storage.item_number item) then (Ok tt, db ++ [item])
          else (Throw (JsError "Part validation failed: partNumber: Path `partNumber` is required."), db).

Definition shelf_job (jobId : value) (u : Storage.job_update) : Storage.Db shelf unit :=
fun db => (Ok tt, db).

Definition shelf_startTime (jobId : value) : Storage.Db shelf value :=
fun db => (Ok VNull, db).

Definition no_job : Storage.options :=
{| Storage.jobId := VUndefined; Storage.updateTotalOnly := false;
   Storage.currentTotal := 0 |}.

(** Two parts with the same number and one without a number. *)
Definition three_parts : list (list (string * value)) :=
[[("partNumber", VStr "ALT-7"); ("name", VStr "Alternator")];
 [("partNumber", VStr "ALT-7"); ("name", VStr "Alternator, used")];
 [("name", VStr "No number")]].

Definition shelf_run : outcome Storage.summary * shelf :=
Storage.storeScrapedData shelf_findOne shelf_update shelf_create shelf_job
                         shelf_startTime "lkq" three_parts no_job [].

Definition summary_of (run : outcome Storage.summary * shelf) : Storage.summary :=
match fst run with
| Ok s => s
| Throw _ =>
    {| Storage.result := {| Storage.total := 0; Storage.created := 0;
                            Storage.updated := 0; Storage.failed := 0;
                            Storage.errors := [] |};
       Storage.totalItemsScraped := 0 |}
end.

(** The parameters of a search with coordinates and without an action. *)
Definition located_search : list (string * value) :=
[("category", VStr "Engine Compartment|Alternator"); ("latitude", VNum 41);
 ("longitude", VNum (-87)); ("skip", VNum 0); ("take", VNum 50)].

(** A 400 with an empty body. *)
Definition bad_request : Wire.response :=
{| Wire.status := 400; Wire.contentType := Some "application/json";
   Wire.data := VStr "" |}.

End Props.

(* ===================================================================== *)
(** ** Computations: how they compose *)
(* ===================================================================== *)

Module CompFacts.
Import Js Sim Spec.

Lemma bind_inv {A B} (c : Comp A) (k : A -> Comp B) w r w' :
bind c k w = Some (r, w') ->
(exists e, c w = Some (Throw e, w') /\ r = Throw e) \/
(exists a w1, c w = Some (Ok a, w1) /\ k a w1 = Some (r, w')).
Proof.
unfold bind. destruct (c w) as [[[a|e] w1]|]; intros H.
- right. eauto.
- left. inversion H; subst. eauto.
- discriminate.
Qed.

Lemma try_catch_inv {A} (c : Comp A) (h : exn -> Comp A) w r w' :
try_catch c h w = Some (r, w') ->
(exists a, c w = Some (Ok a, w') /\ r = Ok a) \/
(exists e w1, c w = Some (Throw e, w1) /\ h e w1 = Some (r, w')).
Proof.
unfold try_catch. destruct (c w) as [[[a|e] w1]|]; intros H.
- left. inversion H; subst. eauto.
- right. eauto.
- discriminate.
Qed.

Lemma bind_ok {A B} (c : Comp A) (k : A -> Comp B) w a w1 :
c w = Some (Ok a, w1) -> bind c k w = k a w1.
Proof. unfold bind. intros ->. reflexivity. Qed.

Lemma bind_throw {A B} (c : Comp A) (k : A -> Comp B) w e w1 :
c w = Some (Throw e, w1) -> bind c k w = Some (Throw e, w1).
Proof. unfold bind. intros ->. reflexivity. Qed.

Lemma try_ok {A} (c : Comp A) h w a w1 :
c w = Some (Ok a, w1) -> try_catch c h w = Some (Ok a, w1).
Proof. unfold try_catch. intros ->. reflexivity. Qed.

Lemma try_throw {A} (c : Comp A) h w e w1 :
c w = Some (Throw e, w1) -> try_catch c h w = h e w1.
Proof. unfold try_catch. intros ->. reflexivity. Qed.

Lemma proper_ret {A} (a : A) : proper (ret a).
Proof. intros w. exists (Ok a), w. split; [reflexivity | discriminate]. Qed.

Lemma proper_error {A} (m : string) : proper (@throw A (JsError m)).
Proof. intros w. exists (Throw (JsError m)), w. split; [reflexivity | discriminate]. Qed.

Lemma proper_sleep (p : pause) : proper (sleep p).
Proof. intros w. eexists _, _. split; [reflexivity | discriminate]. Qed.

Lemma proper_bind {A B} (c : Comp A) (k : A -> Comp B) :
proper c -> (forall a, proper (k a)) -> proper (bind c k).
Proof.
intros Hc Hk w. destruct (Hc w) as (r & w1 & Hrun & Hr).
destruct r as [a|e].
- rewrite (bind_ok _ _ _ Hrun). apply Hk.
- rewrite (bind_throw _ _ _ Hrun). exists (Throw e), w1.
  split; [reflexivity|]. intros Heq. apply Hr. inversion Heq. reflexivity.
Qed.

Lemma proper_lift_get (v : value) (k : string) :
proper (lift (get v k)).
Proof.
intros w. unfold lift. eexists _, _. split; [reflexivity|].
destruct v; cbn; try discriminate;
  repeat match goal with |- context [if ?b then _ else _] => destruct b end;
  discriminate.
Qed.

Lemma proper_lift_prefix (v : value) (n : nat) :
proper (lift (stringify_prefix v n)).
Proof.
intros w. unfold lift, stringify_prefix. eexists _, _. split; [reflexivity|].
destruct (stringify v); discriminate.
Qed.

Lemma safe_proper {A} (c : Comp A) : safe c -> proper c.
Proof.
intros Hc w. destruct (Hc w) as (a & w' & H). exists (Ok a), w'.
split; [exact H | discriminate].
Qed.

Lemma safe_bind {A B} (c : Comp A) (k : A -> Comp B) :
safe c -> (forall a, safe (k a)) -> safe (bind c k).
Proof.
intros Hc Hk w. destruct (Hc w) as (a & w1 & Hrun).
rewrite (bind_ok _ _ _ Hrun). apply Hk.
Qed.

Lemma safe_ret {A} (a : A) : safe (ret a).
Proof. intros w. exists a, w. reflexivity. Qed.

Lemma safe_sleep (p : pause) : safe (sleep p).
Proof. intros w. eexists _, _. reflexivity. Qed.

(** A handler that reads the message and goes on normally tames every
  computation that throws [Error]s only. *)
Lemma safe_try_logged {A} (c : Comp A) (k : exn -> Comp A) :
proper c ->
(forall e, safe (k e)) ->
safe (try_catch c (fun error => _ <- lift (message error) ;; k error)).
Proof.
intros Hc Hk w. destruct (Hc w) as (r & w1 & Hrun & Hr).
destruct r as [a|e].
- rewrite (try_ok _ _ _ Hrun). eauto.
- rewrite (try_throw _ _ _ Hrun).
  destruct e as [m|]; [|congruence].
  apply Hk.
Qed.

Lemma safe_quiet {A} (c : Comp A) : safe c -> quiet c.
Proof.
intros Hc w r w' H. destruct (Hc w) as (a & w1 & Hrun).
rewrite Hrun in H. inversion H; subst. eauto.
Qed.

Lemma quiet_bind {A B} (c : Comp A) (k : A -> Comp B) :
quiet c -> (forall a, quiet (k a)) -> quiet (bind c k).
Proof.
intros Hc Hk w r w' H. apply bind_inv in H.
destruct H as [(e & Hrun & _)|(a & w1 & Hrun & Hk')].
- destruct (Hc _ _ _ Hrun) as (a & Ha). discriminate.
- eapply Hk; eauto.
Qed.

Lemma quiet_ret {A} (a : A) : quiet (ret a).
Proof. intros w r w' H. inversion H; subst. eauto. Qed.

Lemma quiet_out_of_fuel {A} : quiet (@out_of_fuel A).
Proof. intros w r w' H. discriminate. Qed.

Lemma proper_civil {A} (c : Comp A) : proper c -> civil c.
Proof.
intros Hc w r w' H. destruct (Hc w) as (r1 & w1 & Hrun & Hr).
rewrite Hrun in H. inversion H; subst. exact Hr.
Qed.

Lemma quiet_civil {A} (c : Comp A) : quiet c -> civil c.
Proof.
intros Hc w r w' H. destruct (Hc _ _ _ H) as (a & ->). discriminate.
Qed.

Lemma civil_bind {A B} (c : Comp A) (k : A -> Comp B) :
civil c -> (forall a, civil (k a)) -> civil (bind c k).
Proof.
intros Hc Hk w r w' H. apply bind_inv in H.
destruct H as [(e & Hrun & ->)|(a & w1 & Hrun & Hk')].
- intros Heq. apply (Hc _ _ _ Hrun). inversion Heq. reflexivity.
- eapply Hk; eauto.
Qed.

(** The partial form of [safe_try_logged]. *)
Lemma quiet_try_logged {A} (c : Comp A) (k : exn -> Comp A) :
civil c ->
(forall e, quiet (k e)) ->
quiet (try_catch c (fun error => _ <- lift (message error) ;; k error)).
Proof.
intros Hc Hk w r w' H. apply try_catch_inv in H.
destruct H as [(a & _ & ->)|(e & w1 & Hrun & Hh)]; [eauto|].
destruct e as [m|]; [|exfalso; eapply Hc; eauto].
eapply Hk. exact Hh.
Qed.

End CompFacts.

(* ===================================================================== *)
(** ** The retry policy *)
(* ===================================================================== *)

Module RetryFacts.
Import Js Sim ScraperUtils Spec.

Section Facts.
Variable A : Type.
Variable fn : Comp A.
Variable maxRetries : Z.

Lemma sleep_backoff (w : world) :
  sleep RetryBackoff w = Some (Ok tt, after_backoff w).
Proof. reflexivity. Qed.

(** After [k] failed attempts the loop is where it would be had it
    started there, with the counters moved on by [k]. *)
Lemma retry_loop_failing_run :
  forall (k fuel : nat) (retries : Z) (lastError : exn) (t : tally) (w wk : world),
    failing_run fn k w wk ->
    retries + Z.of_nat k <= maxRetries ->
    (0 < k)%nat ->
    exists lastError',
      retry_loop fn maxRetries (k + fuel) retries lastError t w =
      retry_loop fn maxRetries fuel (retries + Z.of_nat k) lastError'
                 {| attempts := attempts t + k; backoffs := backoffs t + k |} wk.
Proof.
  induction k as [|k IH]; intros fuel retries lastError t w wk Hrun Hle Hpos.
  - lia.
  - destruct Hrun as (m & w1 & Hfn & Hrun).
    cbn [retry_loop Nat.add].
    destruct (Z.leb_spec retries maxRetries) as [_|Hgt]; [|lia].
    rewrite Hfn.
    destruct (Z.gtb_spec (retries + 1) maxRetries) as [Hover|_].
    + (* the guard cannot fail: k more failures fit *)
      lia.
    + cbn [message].
      rewrite sleep_backoff.
      destruct k as [|k'].
      * cbn in Hrun. subst wk. exists (JsError m).
        cbn [Nat.add].
        replace (retries + Z.of_nat 1) with (retries + 1) by lia.
        f_equal. f_equal; cbn; lia.
      * destruct (IH fuel (retries + 1) (JsError m)
                     {| attempts := S (attempts t); backoffs := S (backoffs t) |}
                     (after_backoff w1) wk Hrun) as (e' & Heq); [lia | lia |].
        exists e'. cbn [attempts backoffs] in *. rewrite Heq.
        replace (retries + 1 + Z.of_nat (S k')) with (retries + Z.of_nat (S (S k'))) by lia.
        f_equal. f_equal; lia.
Qed.

(** [k] failures that fit the budget, then a success. *)
Lemma retry_succeeds_after (k : nat) (w wk wf : world) (v : A) :
  failing_run fn k w wk ->
  fn wk = Some (Ok v, wf) ->
  Z.of_nat k <= maxRetries ->
  retry_tally fn maxRetries w =
  Some (Ok v, wf, {| attempts := S k; backoffs := k |}).
Proof.
  intros Hrun Hok Hle. unfold retry_tally, retry_fuel.
  destruct k as [|k].
  - cbn in Hrun. subst wk. cbn [retry_loop].
    destruct (Z.leb_spec 0 maxRetries); [|lia].
    rewrite Hok. reflexivity.
  - replace (S (S (Z.to_nat maxRetries)))
      with (S k + S (S (Z.to_nat maxRetries - S k)))%nat by lia.
    destruct (@retry_loop_failing_run (S k) (S (S (Z.to_nat maxRetries - S k))) 0 JsUndefined
                {| attempts := 0; backoffs := 0 |} w wk Hrun) as (e' & Heq); [lia | lia |].
    rewrite Heq. cbn [retry_loop attempts backoffs Nat.add].
    destruct (Z.leb_spec (0 + Z.of_nat (S k)) maxRetries); [|lia].
    rewrite Hok. reflexivity.
Qed.

(** [maxRetries] failures, then one more: the last error is thrown on. *)
Lemma retry_exhausts (n : nat) (w wn wf : world) (e : exn) :
  failing_run fn n w wn ->
  fn wn = Some (Throw e, wf) ->
  Z.of_nat n = maxRetries ->
  retry_tally fn maxRetries w =
  Some (Throw e, wf, {| attempts := S n; backoffs := n |}).
Proof.
  intros Hrun Hfail Hn. unfold retry_tally, retry_fuel.
  destruct n as [|n].
  - cbn in Hrun. subst wn. cbn [retry_loop].
    destruct (Z.leb_spec 0 maxRetries); [|lia].
    rewrite Hfail.
    destruct (Z.gtb_spec (0 + 1) maxRetries); [reflexivity | lia].
  - replace (S (S (Z.to_nat maxRetries)))
      with (S n + S (S (Z.to_nat maxRetries - S n)))%nat by lia.
    destruct (@retry_loop_failing_run (S n) (S (S (Z.to_nat maxRetries - S n))) 0 JsUndefined
                {| attempts := 0; backoffs := 0 |} w wn Hrun) as (e' & Heq); [lia | lia |].
    rewrite Heq. cbn [retry_loop attempts backoffs Nat.add].
    destruct (Z.leb_spec (0 + Z.of_nat (S n)) maxRetries); [|lia].
    rewrite Hfail.
    destruct (Z.gtb_spec (0 + Z.of_nat (S n) + 1) maxRetries); [reflexivity | lia].
Qed.

(** Without a budget the operation is never started and [undefined] is
    thrown. *)
Lemma retry_negative (w : world) :
  maxRetries < 0 ->
  retry_tally fn maxRetries w =
  Some (Throw JsUndefined, w, {| attempts := 0; backoffs := 0 |}).
Proof.
  intros Hneg. unfold retry_tally, retry_fuel. cbn [retry_loop].
  destruct (Z.leb_spec 0 maxRetries); [lia | reflexivity].
Qed.

(** The loop ends, and what it throws is an [Error], when [fn] is so. *)
Lemma retry_loop_proper :
  proper fn ->
  forall (fuel : nat) (retries : Z) (lastError : exn) (t : tally) (w : world),
    retries <= maxRetries ->
    (Z.to_nat (maxRetries - retries) < fuel)%nat ->
    exists r w' t', retry_loop fn maxRetries fuel retries lastError t w = Some (r, w', t')
                    /\ r <> Throw JsUndefined.
Proof.
  intros Hfn. induction fuel as [|fuel IH]; intros retries lastError t w Hle Hfuel.
  - lia.
  - cbn [retry_loop].
    destruct (Z.leb_spec retries maxRetries); [|lia].
    destruct (Hfn w) as (r & w1 & Hrun & Hr). rewrite Hrun.
    destruct r as [v|e].
    + eexists _, _, _. split; [reflexivity | discriminate].
    + destruct (Z.gtb_spec (retries + 1) maxRetries).
      * eexists _, _, _. split; [reflexivity | exact Hr].
      * destruct e as [m|]; [|congruence].
        cbn [message]. rewrite sleep_backoff.
        apply IH; lia.
Qed.

Lemma retry_proper :
  proper fn -> 0 <= maxRetries -> proper (retry fn maxRetries).
Proof.
  intros Hfn Hpos w. unfold retry, retry_tally, retry_fuel.
  destruct (@retry_loop_proper Hfn (S (S (Z.to_nat maxRetries))) 0 JsUndefined
              {| attempts := 0; backoffs := 0 |} w) as (r & w' & t' & Heq & Hr);
    [lia | lia |].
  rewrite Heq. cbn. eauto.
Qed.
End Facts.
End RetryFacts.

(* ===================================================================== *)
(** ** chunk and the detail batcher *)
(* ===================================================================== *)

Module BatcherFacts.
Import Js Sim ScraperUtils LkqApi LkqScraper Spec CompFacts RetryFacts.

Section Chunk.
Variable A : Type.
Variable array : list A.
Variable size : Z.

Lemma slice_window (i : Z) :
  0 <= i < len array -> 0 < size ->
  slice array i (i + size) =
  firstn (Z.to_nat size) (skipn (Z.to_nat i) array).
Proof.
  intros Hi Hsize. unfold slice, clamp_index, len in *.
  destruct (Z.ltb_spec i 0); [lia|].
  destruct (Z.ltb_spec (i + size) 0); [lia|].
  replace (Z.min i (Z.of_nat (List.length array))) with i by lia.
  destruct (Z_le_gt_dec (i + size) (Z.of_nat (List.length array))) as [Hfit|Hover].
  - replace (Z.min (i + size) (Z.of_nat (List.length array))) with (i + size) by lia.
    f_equal. lia.
  - replace (Z.min (i + size) (Z.of_nat (List.length array)))
      with (Z.of_nat (List.length array)) by lia.
    rewrite !firstn_all2; try reflexivity; rewrite length_skipn; lia.
Qed.

(** With a positive size the chunks, put end to end, are the array. *)
Lemma chunk_loop_concat :
  0 < size ->
  forall (fuel : nat) (i : Z) (chunks r : list (list A)),
    0 <= i ->
    chunk_loop fuel array size i chunks = Some r ->
    exists rest, r = (chunks ++ rest)%list /\ List.concat rest = skipn (Z.to_nat i) array.
Proof.
  intros Hsize. induction fuel as [|fuel IH]; intros i chunks r Hi Hrun.
  - discriminate.
  - cbn [chunk_loop] in Hrun.
    destruct (Z.ltb_spec i (Z.of_nat (List.length array))) as [Hin|Hout].
    + apply IH in Hrun; [|lia].
      destruct Hrun as (rest & -> & Hcat).
      exists (slice array i (i + size) :: rest). split.
      * rewrite <- app_assoc. reflexivity.
      * cbn [List.concat]. rewrite Hcat, slice_window by (unfold len; lia).
        replace (Z.to_nat (i + size)) with (Z.to_nat size + Z.to_nat i)%nat by lia.
        rewrite <- skipn_skipn. apply firstn_skipn.
    + inversion Hrun; subst. exists []. split.
      * rewrite app_nil_r. reflexivity.
      * rewrite skipn_all2 by lia. reflexivity.
Qed.

Lemma chunk_loop_ends :
  0 < size ->
  forall (fuel : nat) (i : Z) (chunks : list (list A)),
    0 <= i ->
    (Z.to_nat (len array - i) < fuel)%nat ->
    exists r, chunk_loop fuel array size i chunks = Some r.
Proof.
  intros Hsize. induction fuel as [|fuel IH]; intros i chunks Hi Hfuel.
  - lia.
  - cbn [chunk_loop].
    destruct (Z.ltb_spec i (Z.of_nat (List.length array))) as [Hin|Hout].
    + apply IH; unfold len in *; lia.
    + eauto.
Qed.

(** With a size of zero or less the index never passes the end. *)
Lemma chunk_loop_diverges :
  size <= 0 ->
  forall (fuel : nat) (i : Z) (chunks : list (list A)),
    i < len array ->
    chunk_loop fuel array size i chunks = None.
Proof.
  intros Hsize. induction fuel as [|fuel IH]; intros i chunks Hi.
  - reflexivity.
  - cbn [chunk_loop]. unfold len in *.
    destruct (Z.ltb_spec i (Z.of_nat (List.length array))); [|lia].
    apply IH. lia.
Qed.

Lemma chunk_concat (fuel : nat) (batches : list (list A)) :
  array <> [] ->
  chunk fuel array size = Some batches ->
  0 < size /\ List.concat batches = array.
Proof.
  intros Hne Hrun. unfold chunk in Hrun.
  destruct (Z_lt_le_dec 0 size) as [Hpos|Hneg].
  - split; [exact Hpos|].
    destruct (@chunk_loop_concat Hpos fuel 0 [] batches) as (rest & -> & Hcat);
      [lia | exact Hrun |].
    exact Hcat.
  - rewrite chunk_loop_diverges in Hrun; [discriminate | exact Hneg |].
    unfold len. destruct array; [congruence | cbn; lia].
Qed.

Lemma chunk_ends (fuel : nat) :
  0 < size -> (List.length array < fuel)%nat ->
  exists batches, chunk fuel array size = Some batches.
Proof.
  intros Hpos Hfuel. unfold chunk. apply chunk_loop_ends; unfold len; lia.
Qed.
End Chunk.

Lemma Forall2_nth {X Y} (P : X -> Y -> Prop) (l : list X) (l' : list Y) :
Forall2 P l l' ->
forall i,
  match nth_error l i, nth_error l' i with
  | Some x, Some y => P x y
  | None, None => True
  | _, _ => False
  end.
Proof.
induction 1 as [|x y l l' Hxy _ IH]; intros i.
- destruct i; exact I.
- destruct i as [|i]; cbn [nth_error]; [exact Hxy | apply IH].
Qed.

Section Details.
Variable cfg : config.

Lemma get_ok_any (v : value) (k k' : string) (x : value) :
  get v k = Ok x -> exists y, get v k' = Ok y.
Proof.
  destruct v; cbn; intros H; try discriminate; eauto;
    repeat match goal with |- context [if ?b then _ else _] => destruct b end; eauto.
Qed.

Lemma proper_makeApiRequest (r : request) : proper (makeApiRequest r).
Proof.
  intros w. unfold makeApiRequest.
  destruct (upstream w (served w)); eexists _, _; (split; [reflexivity | discriminate]).
Qed.

Lemma proper_getProductDetails (productId : value) :
  0 <= retryAttempts cfg -> proper (getProductDetails (retryAttempts cfg) productId).
Proof.
  intros HR. unfold getProductDetails. apply retry_proper; [|exact HR].
  apply proper_bind; [apply proper_sleep | intros _; apply proper_makeApiRequest].
Qed.

Lemma proper_getSearchResults (category : string) (skip take : Z) :
  0 <= retryAttempts cfg ->
  proper (getSearchResults (retryAttempts cfg) category skip take).
Proof.
  intros HR. unfold getSearchResults. apply retry_proper; [|exact HR].
  apply proper_bind; [apply proper_sleep | intros _; apply proper_makeApiRequest].
Qed.

Lemma proper_getCategoryCounts (category : string) :
  0 <= retryAttempts cfg ->
  proper (getCategoryCounts (retryAttempts cfg) category).
Proof.
  intros HR. unfold getCategoryCounts. apply retry_proper; [|exact HR].
  apply proper_bind; [apply proper_makeApiRequest | intros response].
  apply proper_bind; [apply proper_lift_get | intros count; apply proper_ret].
Qed.

(** What the callback returns is one of the five enrichments. *)
Lemma with_details_enrichment (product out : value) (w w' : world) :
  with_details cfg product w = Some (Ok out, w') ->
  enrichment (retryAttempts cfg) product w out w'.
Proof.
  unfold with_details, try_catch, bind, lift, ret.
  destruct (get product "id") as [id|e] eqn:Hid.
  - destruct (get_ok_any product "id" "productId" Hid) as (pid & Hpid).
    rewrite Hpid.
    destruct (truthy (or_ id pid)) eqn:Htruthy; cbn [negb].
    + destruct (getProductDetails (retryAttempts cfg) (or_ id pid) w)
        as [[[details|e] w1]|] eqn:Hcall; [| |discriminate].
      * destruct (truthy details) eqn:Hdetails; cbn [negb];
          intros H; inversion H; subst.
        -- eapply Merged; eauto.
        -- eapply DetailEmpty; eauto.
      * destruct e as [m|]; cbn [message]; intros H; inversion H; subst.
        eapply DetailFailed; eauto.
    + destruct (stringify_prefix product 100) as [text|e];
        [|destruct e as [m|]]; cbn [message]; intros H; inversion H; subst;
        eapply MissingId; eauto.
  - destruct e as [m|]; cbn [message]; intros H; inversion H; subst.
    eapply NoId; eauto.
Qed.

Lemma with_details_safe (product : value) :
  0 <= retryAttempts cfg -> safe (with_details cfg product).
Proof.
  intros HR. unfold with_details.
  apply (@safe_try_logged _ _ (fun _ => ret product)); [|intros _; apply safe_ret].
  apply proper_bind; [apply proper_lift_get | intros id].
  apply proper_bind; [apply proper_lift_get | intros pid].
  destruct (negb (truthy (or_ id pid))).
  - apply proper_bind; [apply proper_lift_prefix | intros _; apply proper_ret].
  - apply proper_bind; [apply proper_getProductDetails; exact HR | intros details].
    destruct (negb (truthy details)); apply proper_ret.
Qed.

Lemma all_Forall2 {X Y} (f : X -> Comp Y) (batch : list X) :
  forall (outs : list Y) (w w' : world),
    all f batch w = Some (Ok outs, w') ->
    Forall2 (fun x y => exists w1 w2, f x w1 = Some (Ok y, w2)) batch outs.
Proof.
  induction batch as [|x rest IH]; intros outs w w' Hrun.
  - inversion Hrun; subst. constructor.
  - cbn [all] in Hrun.
    apply bind_inv in Hrun. destruct Hrun as [(e & _ & Habs)|(y & w1 & Hx & Hrun)];
      [discriminate|].
    apply bind_inv in Hrun. destruct Hrun as [(e & _ & Habs)|(ys & w2 & Hrest & Hrun)];
      [discriminate|].
    inversion Hrun; subst. constructor; eauto.
Qed.

Lemma all_safe {X Y} (f : X -> Comp Y) (batch : list X) :
  (forall x, safe (f x)) -> safe (all f batch).
Proof.
  intros Hf. induction batch as [|x rest IH].
  - apply safe_ret.
  - cbn [all]. apply safe_bind; [apply Hf | intros y].
    apply safe_bind; [exact IH | intros ys; apply safe_ret].
Qed.

Lemma detail_batches_Forall2 (batches : list (list value)) :
  forall (acc outs : list value) (w w' : world),
    detail_batches cfg batches acc w = Some (Ok outs, w') ->
    exists news, outs = (acc ++ news)%list /\
                 Forall2 (enriched (retryAttempts cfg)) (List.concat batches) news.
Proof.
  induction batches as [|batch rest IH]; intros acc outs w w' Hrun.
  - inversion Hrun; subst. exists []. rewrite app_nil_r. split; [reflexivity | constructor].
  - cbn [detail_batches] in Hrun.
    apply bind_inv in Hrun. destruct Hrun as [(e & _ & Habs)|(res & w1 & Hbatch & Hrun)];
      [discriminate|].
    apply bind_inv in Hrun. destruct Hrun as [(e & _ & Habs)|(u & w2 & _ & Hrun)];
      [discriminate|].
    apply IH in Hrun. destruct Hrun as (news & -> & Hrest).
    exists (res ++ news). split; [rewrite app_assoc; reflexivity|].
    cbn [List.concat]. apply Forall2_app; [|exact Hrest].
    apply all_Forall2 in Hbatch.
    eapply Forall2_impl; [|exact Hbatch].
    intros p o (wa & wb & Hcall). exists wa, wb.
    apply with_details_enrichment. exact Hcall.
Qed.

Lemma detail_batches_safe (batches : list (list value)) :
  0 <= retryAttempts cfg ->
  forall acc, safe (detail_batches cfg batches acc).
Proof.
  intros HR. induction batches as [|batch rest IH]; intros acc.
  - apply safe_ret.
  - cbn [detail_batches].
    apply safe_bind; [apply all_safe; intros p; apply with_details_safe; exact HR|].
    intros res. apply safe_bind; [destruct rest; [apply safe_ret | apply safe_sleep]|].
    intros _. apply IH.
Qed.

(** The batcher: one output per product, in the order of the products. *)
Lemma fetchProductDetails_Forall2 (fuel : nat) (products outs : list value)
      (w w' : world) :
  fetchProductDetails fuel cfg products w = Some (Ok outs, w') ->
  Forall2 (enriched (retryAttempts cfg)) products outs.
Proof.
  unfold fetchProductDetails. destruct products as [|p rest].
  - intros H. inversion H; subst. constructor.
  - destruct (chunk fuel (p :: rest) (parallelRequests cfg)) as [batches|] eqn:Hchunk;
      [|discriminate].
    intros Hrun. apply detail_batches_Forall2 in Hrun.
    destruct Hrun as (news & -> & Hall).
    apply chunk_concat in Hchunk; [|discriminate].
    destruct Hchunk as (_ & Hcat). rewrite Hcat in Hall. exact Hall.
Qed.

Lemma fetchProductDetails_safe (fuel : nat) (products : list value) :
  0 <= retryAttempts cfg ->
  0 < parallelRequests cfg ->
  (List.length products < fuel)%nat ->
  safe (fetchProductDetails fuel cfg products).
Proof.
  intros HR Hsize Hfuel. unfold fetchProductDetails. destruct products as [|p rest].
  - apply safe_ret.
  - destruct (chunk_ends (p :: rest) Hsize Hfuel) as (batches & ->).
    apply detail_batches_safe. exact HR.
Qed.


Lemma fetchProductDetails_quiet (fuel : nat) (products : list value) :
  0 <= retryAttempts cfg -> quiet (fetchProductDetails fuel cfg products).
Proof.
  intros HR. unfold fetchProductDetails. destruct products as [|p rest].
  - apply quiet_ret.
  - destruct (chunk fuel (p :: rest) (parallelRequests cfg));
      [|apply quiet_out_of_fuel].
    apply safe_quiet, detail_batches_safe. exact HR.
Qed.
End Details.
End BatcherFacts.

(* ===================================================================== *)
(** ** The pagination loops *)
(* ===================================================================== *)

Module PagingFacts.
Import Js Sim ScraperUtils LkqApi LkqScraper Spec CompFacts RetryFacts BatcherFacts.

Lemma len_app {A} (l l' : list A) : len (l ++ l') = len l + len l'.
Proof. unfold len. rewrite length_app. lia. Qed.

Lemma len_nonneg {A} (l : list A) : 0 <= len l.
Proof. unfold len. lia. Qed.

Lemma trim_to_bound (k : Z) (all : list value) :
0 <= k -> len (trim_to (Finite k) all) <= k.
Proof.
intros Hk. unfold trim_to.
destruct (Z.gtb_spec (len all) k) as [Hover|Hfit]; [|exact Hfit].
unfold slice, clamp_index, len in *. change (0 <? 0) with false. cbv iota.
destruct (Z.ltb_spec k 0); [exfalso; lia|].
rewrite length_firstn. lia.
Qed.

Lemma trim_to_le (m : limit) (all : list value) :
len (trim_to m all) <= len all.
Proof.
unfold trim_to. destruct m as [k|]; [|lia].
destruct (len all >? k); [|lia].
unfold slice, len. rewrite length_firstn, length_skipn. lia.
Qed.

Lemma proper_invalid_response {A} (response : value) :
proper (@invalid_response A response).
Proof.
unfold invalid_response.
apply proper_bind; [apply proper_lift_prefix | intros text; apply proper_error].
Qed.

Lemma proper_absorb (m : limit) (c : cursor) (response : value) (window requested : Z) :
proper (absorb m c response window requested).
Proof.
unfold absorb. destruct (page_data response) as [products|];
  [|apply proper_invalid_response].
destruct (len products =? 0); [apply proper_ret|].
match goal with |- context [if ?b then _ else _] => destruct b end;
  [apply proper_ret|].
apply proper_bind; [|intros _; apply proper_ret].
match goal with |- context [if ?b then _ else _] => destruct b end;
  [apply proper_sleep | apply proper_ret].
Qed.

(** A page that lets the loop go on added at least one product. *)
Lemma absorb_next (m : limit) (c c' : cursor) (response : value)
    (window requested : Z) (w w' : world) :
absorb m c response window requested w = Some (Ok (Next c'), w') ->
exists products,
  page_data response = Some products /\ products <> [] /\
  allProducts c' = (allProducts c ++ products)%list /\
  skip c' = skip c + requested /\
  consecutiveErrors c' = 0 /\
  reached (len (allProducts c')) m = false.
Proof.
unfold absorb. destruct (page_data response) as [products|] eqn:Hdata.
- destruct (Z.eqb_spec (len products) 0) as [Hempty|Hfull].
  + intros H. inversion H.
  + match goal with |- context [if reached ?n m then _ else _] =>
      destruct (reached n m) eqn:Hreached end.
    * intros H. inversion H.
    * intros H. apply bind_inv in H.
      destruct H as [(e & _ & Habs)|(u & w1 & _ & H)]; [discriminate|].
      inversion H; subst. exists products. cbn.
      repeat split; try reflexivity; try exact Hreached.
      intros ->. apply Hfull. reflexivity.
- intros H. unfold invalid_response in H. apply bind_inv in H.
  destruct H as [(e & _ & Habs)|(t & w1 & _ & H)]; [discriminate|].
  inversion H.
Qed.

Lemma page_failed_next (R : Z) (c c' : cursor) (e : exn) (w w' : world) :
page_failed R c e w = Some (Ok (Next c'), w') ->
allProducts c' = allProducts c /\ skip c' = skip c /\
consecutiveErrors c' = consecutiveErrors c + 1.
Proof.
unfold page_failed. intros H. apply bind_inv in H.
destruct H as [(e' & _ & Habs)|(t & w1 & _ & H)]; [discriminate|].
cbn [consecutiveErrors] in H.
destruct (consecutiveErrors c + 1 >=? R).
- inversion H.
- apply bind_inv in H.
  destruct H as [(e' & _ & Habs)|(u & w2 & _ & H)]; [discriminate|].
  inversion H; subst. cbn. auto.
Qed.

Lemma safe_try_page_failed (body : Comp flow) (R : Z) (c : cursor) :
proper body -> safe (try_catch body (page_failed R c)).
Proof.
intros Hbody w. destruct (Hbody w) as (r & w1 & Hrun & Hr).
destruct r as [f|e].
- rewrite (try_ok _ _ _ Hrun). eauto.
- rewrite (try_throw _ _ _ Hrun). destruct e as [msg|]; [|congruence].
  unfold page_failed, bind, lift, message, sleep, ret. cbn [consecutiveErrors].
  destruct (consecutiveErrors c + 1 >=? R); eexists _, _; reflexivity.
Qed.

Section Turns.
Variable cfg : config.
Variable URL_ok : string -> bool.

Lemma category_turn_safe (category : string) (m : limit) (c : cursor) :
  0 <= retryAttempts cfg -> safe (category_turn cfg category m c).
Proof.
  intros HR. unfold category_turn. apply safe_try_page_failed.
  apply proper_bind; [apply proper_getSearchResults; exact HR|].
  intros response. apply proper_absorb.
Qed.

Lemma url_turn_safe (url : string) (m : limit) (c : cursor) :
  safe (url_turn URL_ok url m c).
Proof.
  unfold url_turn. apply safe_try_page_failed.
  destruct (URL_ok url); [|apply proper_error].
  apply proper_bind; [apply proper_makeApiRequest|].
  intros response. apply proper_absorb.
Qed.

Lemma try_page_failed_progress (body : Comp flow) (R : Z) (c c' : cursor) (w w' : world) :
  (forall w1 w2, body w1 = Some (Ok (Next c'), w2) ->
                 len (allProducts c) < len (allProducts c') /\
                 consecutiveErrors c' = 0) ->
  try_catch body (page_failed R c) w = Some (Ok (Next c'), w') ->
  progress c c'.
Proof.
  intros Hbody H. apply try_catch_inv in H.
  destruct H as [(f & Hrun & Heq)|(e & w1 & _ & Hh)].
  - inversion Heq; subst. left. eapply Hbody. exact Hrun.
  - right. apply page_failed_next in Hh. destruct Hh as (Hall & _ & Herr).
    rewrite Hall. auto.
Qed.

Lemma absorb_grows (m : limit) (c c' : cursor) (response : value)
      (window requested : Z) (w w' : world) :
  absorb m c response window requested w = Some (Ok (Next c'), w') ->
  len (allProducts c) < len (allProducts c') /\ consecutiveErrors c' = 0.
Proof.
  intros H. apply absorb_next in H.
  destruct H as (products & _ & Hne & Hall & _ & Herr & _).
  rewrite Hall, len_app. split; [|exact Herr].
  destruct products; [congruence|]. unfold len. cbn [List.length]. lia.
Qed.

Lemma category_turn_progress (category : string) (m : limit) (c c' : cursor)
      (w w' : world) :
  category_turn cfg category m c w = Some (Ok (Next c'), w') -> progress c c'.
Proof.
  unfold category_turn. apply try_page_failed_progress.
  intros w1 w2 H. apply bind_inv in H.
  destruct H as [(e & _ & Habs)|(response & w3 & _ & H)]; [discriminate|].
  eapply absorb_grows. exact H.
Qed.

Lemma url_turn_progress (url : string) (m : limit) (c c' : cursor) (w w' : world) :
  url_turn URL_ok url m c w = Some (Ok (Next c'), w') -> progress c c'.
Proof.
  unfold url_turn. apply try_page_failed_progress.
  intros w1 w2 H. destruct (URL_ok url); [|discriminate].
  apply bind_inv in H.
  destruct H as [(e & _ & Habs)|(response & w3 & _ & H)]; [discriminate|].
  eapply absorb_grows. exact H.
Qed.
End Turns.

Lemma paginate_quiet (turn : cursor -> Comp flow) (m : limit) (R : Z) :
(forall c, quiet (turn c)) ->
forall gas c, quiet (paginate turn m R gas c).
Proof.
intros Hturn. induction gas as [|gas IH]; intros c.
- apply quiet_out_of_fuel.
- cbn [paginate].
  match goal with |- context [if ?b then _ else _] => destruct b end;
    [|apply quiet_ret].
  apply quiet_bind; [apply Hturn|]. intros [c'|c']; [apply IH | apply quiet_ret].
Qed.

Lemma variant_decreases (k R : Z) (c c' : cursor) :
progress c c' ->
len (allProducts c) < k ->
0 <= consecutiveErrors c < R ->
variant k R c' < variant k R c /\ 0 <= consecutiveErrors c'.
Proof.
unfold progress, variant. intros [(Hgrow & Herr)|(Hsame & Herr)] Hlen Herrs.
- rewrite Herr. split; [|lia].
  assert (Hmul : Z.max 0 (k - len (allProducts c')) * (R + 1)
                 <= (k - len (allProducts c) - 1) * (R + 1))
    by (apply Z.mul_le_mono_nonneg_r; lia).
  replace (Z.max 0 (k - len (allProducts c))) with (k - len (allProducts c)) by lia.
  replace (Z.max 0 (R - 0)) with R by lia.
  replace (Z.max 0 (R - consecutiveErrors c)) with (R - consecutiveErrors c) by lia.
  lia.
- rewrite Herr, Hsame. split; [|lia].
  replace (Z.max 0 (R - (consecutiveErrors c + 1)))
    with (Z.max 0 (R - consecutiveErrors c) - 1) by lia.
  lia.
Qed.

(** With a finite limit the loop ends: every turn that goes on lowers the
  variant. *)
Lemma paginate_ends (turn : cursor -> Comp flow) (k R : Z) :
(forall c, safe (turn c)) ->
(forall c w c' w', turn c w = Some (Ok (Next c'), w') -> progress c c') ->
forall gas c,
  0 <= consecutiveErrors c ->
  (Z.to_nat (variant k R c) < gas)%nat ->
  safe (paginate turn (Finite k) R gas c).
Proof.
intros Hsafe Hprogress. induction gas as [|gas IH]; intros c Herr Hgas.
- lia.
- cbn [paginate].
  destruct (hasMore c && below (len (allProducts c)) (Finite k)
            && (consecutiveErrors c <? R)) eqn:Hguard; [|apply safe_ret].
  apply andb_prop in Hguard. destruct Hguard as (Hguard & Herrs).
  apply andb_prop in Hguard. destruct Hguard as (_ & Hbelow).
  cbn [below] in Hbelow. apply Z.ltb_lt in Hbelow. apply Z.ltb_lt in Herrs.
  intros w. destruct (Hsafe c w) as (f & w1 & Hrun).
  rewrite (bind_ok _ _ _ Hrun). destruct f as [c'|c']; [|apply safe_ret].
  destruct (@variant_decreases k R c c') as (Hdec & Herr');
    [eapply Hprogress; exact Hrun | exact Hbelow | lia |].
  apply IH; [exact Herr'|].
  assert (0 <= variant k R c').
  { unfold variant. assert (0 <= Z.max 0 (k - len (allProducts c')) * (R + 1))
      by (apply Z.mul_nonneg_nonneg; lia). lia. }
  lia.
Qed.

Lemma variant_start (k R : Z) :
variant k R start = Z.max 0 k * (R + 1) + Z.max 0 R.
Proof.
unfold variant, start, len. cbn [allProducts consecutiveErrors List.length].
replace (k - Z.of_nat 0) with k by lia. replace (R - 0) with R by lia.
reflexivity.
Qed.

End PagingFacts.

(* ===================================================================== *)
(** ** Collecting one input, and the orchestrator *)
(* ===================================================================== *)

Module PipelineFacts.
Import Js Sim ScraperUtils LkqApi LkqScraper Spec.
Import CompFacts RetryFacts BatcherFacts PagingFacts.

Lemma quiet_try {A} (c : Comp A) (h : exn -> Comp A) :
quiet c -> quiet (try_catch c h).
Proof.
intros Hc w r w' H. apply try_catch_inv in H.
destruct H as [(a & _ & ->)|(e & w1 & Hrun & _)]; [eauto|].
destruct (Hc _ _ _ Hrun) as (a & Habs). discriminate.
Qed.

Lemma safe_try {A} (c : Comp A) (h : exn -> Comp A) :
safe c -> safe (try_catch c h).
Proof.
intros Hc w. destruct (Hc w) as (a & w1 & Hrun).
rewrite (try_ok _ _ _ Hrun). eauto.
Qed.

Section Fetch.
Variable fuel : nat.
Variable cfg : config.
Variable URL_ok : string -> bool.

Let R := retryAttempts cfg.

Lemma fetchProductsByCategory_quiet (category : string) (m : limit) :
  0 <= R -> quiet (fetchProductsByCategory fuel cfg category m).
Proof.
  intros HR. unfold fetchProductsByCategory.
  apply (@quiet_try_logged _ _ (fun _ => ret [])); [|intros _; apply quiet_ret].
  apply civil_bind; [|intros c; apply quiet_civil, quiet_ret].
  unfold category_cursor. apply civil_bind.
  - apply proper_civil, proper_getCategoryCounts. exact HR.
  - intros _. apply quiet_civil, paginate_quiet.
    intros c. apply safe_quiet, category_turn_safe. exact HR.
Qed.

Lemma fetchProductsByUrl_quiet (url : string) (m : limit) :
  url <> "" -> quiet (fetchProductsByUrl fuel URL_ok url m).
Proof.
  intros Hurl. unfold fetchProductsByUrl.
  destruct (String.eqb_spec url ""); [congruence|].
  apply (@quiet_try_logged _ _ (fun _ => ret [])); [|intros _; apply quiet_ret].
  apply civil_bind; [|intros c; apply quiet_civil, quiet_ret].
  unfold url_cursor. apply quiet_civil, paginate_quiet.
  intros c. apply safe_quiet, url_turn_safe.
Qed.

Lemma fetchProductsByCategory_safe (category : string) (k : Z) :
  0 <= R ->
  (Z.to_nat (variant k R start) < fuel)%nat ->
  safe (fetchProductsByCategory fuel cfg category (Finite k)).
Proof.
  intros HR Hfuel. unfold fetchProductsByCategory.
  apply (@safe_try_logged _ _ (fun _ => ret [])); [|intros _; apply safe_ret].
  apply proper_bind; [|intros c; apply proper_ret].
  unfold category_cursor. apply proper_bind.
  - apply proper_getCategoryCounts. exact HR.
  - intros _. apply safe_proper. apply paginate_ends.
    + intros c. apply category_turn_safe. exact HR.
    + intros c w c' w'. apply category_turn_progress.
    + cbn. lia.
    + exact Hfuel.
Qed.

Lemma fetchProductsByUrl_safe (url : string) (k : Z) :
  url <> "" ->
  (Z.to_nat (variant k 3 start) < fuel)%nat ->
  safe (fetchProductsByUrl fuel URL_ok url (Finite k)).
Proof.
  intros Hurl Hfuel. unfold fetchProductsByUrl.
  destruct (String.eqb_spec url ""); [congruence|].
  apply (@safe_try_logged _ _ (fun _ => ret [])); [|intros _; apply safe_ret].
  apply proper_bind; [|intros c; apply proper_ret].
  unfold url_cursor. apply safe_proper. apply paginate_ends.
  - intros c. apply url_turn_safe.
  - intros c w c' w'. apply url_turn_progress.
  - cbn. lia.
  - exact Hfuel.
Qed.

(** What a handler that logs and returns the empty list leaves of the
    bound. *)
Lemma trimmed_or_empty (body : Comp cursor) (k : Z) (products : list value)
      (w w' : world) :
  0 <= k ->
  try_catch (c <- body ;; ret (trim_to (Finite k) (allProducts c)))
            (fun error => _ <- lift (message error) ;; ret []) w
  = Some (Ok products, w') ->
  len products <= k.
Proof.
  intros Hk H. apply try_catch_inv in H.
  destruct H as [(a & Hrun & Heq)|(e & w1 & _ & Hh)].
  - inversion Heq; subst a. apply bind_inv in Hrun.
    destruct Hrun as [(e & _ & Habs)|(c & w1 & _ & Hret)]; [discriminate|].
    inversion Hret; subst. apply trim_to_bound. exact Hk.
  - apply bind_inv in Hh.
    destruct Hh as [(e' & _ & Habs)|(t & w2 & _ & Hret)]; [discriminate|].
    inversion Hret; subst. exact Hk.
Qed.

Lemma fetchProductsByCategory_bound (category : string) (k : Z)
      (products : list value) (w w' : world) :
  0 <= k ->
  fetchProductsByCategory fuel cfg category (Finite k) w = Some (Ok products, w') ->
  len products <= k.
Proof. intros Hk. apply trimmed_or_empty. exact Hk. Qed.

Lemma fetchProductsByUrl_bound (url : string) (k : Z)
      (products : list value) (w w' : world) :
  0 <= k ->
  fetchProductsByUrl fuel URL_ok url (Finite k) w = Some (Ok products, w') ->
  len products <= k.
Proof.
  intros Hk. unfold fetchProductsByUrl. destruct (String.eqb url ""); [discriminate|].
  apply trimmed_or_empty. exact Hk.
Qed.

Lemma http_not_empty (category : string) :
  String.prefix "http" category = true -> category <> "".
Proof. intros H ->. discriminate. Qed.

Lemma fetch_input_quiet (category : string) (m : limit) :
  0 <= R -> quiet (fetch_input fuel cfg URL_ok category m).
Proof.
  intros HR. unfold fetch_input.
  destruct (String.prefix "http" category) eqn:Hhttp.
  - apply fetchProductsByUrl_quiet, http_not_empty, Hhttp.
  - apply fetchProductsByCategory_quiet, HR.
Qed.

Lemma fetch_input_safe (category : string) (k : Z) :
  0 <= R ->
  (Z.to_nat (variant k (Z.max R 3) start) < fuel)%nat ->
  safe (fetch_input fuel cfg URL_ok category (Finite k)).
Proof.
  intros HR Hfuel. unfold fetch_input.
  assert (Hmono : forall R', 0 <= R' <= Z.max R 3 ->
                             variant k R' start <= variant k (Z.max R 3) start).
  { intros R' HR'. rewrite !variant_start.
    assert (Z.max 0 k * (R' + 1) <= Z.max 0 k * (Z.max R 3 + 1))
      by (apply Z.mul_le_mono_nonneg_l; lia).
    lia. }
  destruct (String.prefix "http" category) eqn:Hhttp.
  - apply fetchProductsByUrl_safe; [apply http_not_empty, Hhttp|].
    specialize (Hmono 3). lia.
  - apply fetchProductsByCategory_safe; [exact HR|].
    specialize (Hmono R). fold R. lia.
Qed.

Lemma fetch_input_bound (category : string) (k : Z)
      (products : list value) (w w' : world) :
  0 <= k ->
  fetch_input fuel cfg URL_ok category (Finite k) w = Some (Ok products, w') ->
  len products <= k.
Proof.
  intros Hk. unfold fetch_input. destruct (String.prefix "http" category).
  - apply fetchProductsByUrl_bound, Hk.
  - apply fetchProductsByCategory_bound, Hk.
Qed.

Variable opts : options.

(** The accumulated list never passes a finite limit. *)
Lemma collect_bound (fetch : string -> limit -> Comp (list value)) (k : Z) :
  (forall input k' products w w',
      0 <= k' -> fetch input (Finite k') w = Some (Ok products, w') ->
      len products <= k') ->
  maxProducts opts = Finite k ->
  forall inputs acc raw w w',
    len acc <= Z.max 0 k ->
    collect fuel cfg fetch opts inputs acc w = Some (Ok raw, w') ->
    len raw <= Z.max 0 k.
Proof.
  intros Hfetch Hmax. induction inputs as [|input rest IH]; intros acc raw w w' Hacc Hrun.
  - inversion Hrun; subst. exact Hacc.
  - cbn [collect] in Hrun. rewrite Hmax in Hrun. cbn [minus exhausted] in Hrun.
    destruct (Z.leb_spec (k - len acc) 0) as [Hdone|Hleft].
    + inversion Hrun; subst. exact Hacc.
    + apply bind_inv in Hrun.
      destruct Hrun as [(e & _ & Habs)|(products & w1 & Hget & Hrun)]; [discriminate|].
      apply Hfetch in Hget; [|lia].
      destruct (len products =? 0); [eapply IH; eauto|].
      apply bind_inv in Hrun.
      destruct Hrun as [(e & _ & Habs)|(detailed & w2 & Hdet & Hrun)]; [discriminate|].
      eapply IH; [|exact Hrun].
      rewrite len_app.
      assert (len detailed = len products).
      { destruct (fetchDetails opts).
        - apply fetchProductDetails_Forall2, Forall2_length in Hdet.
          unfold len. lia.
        - inversion Hdet; subst. reflexivity. }
      lia.
Qed.

Lemma collect_quiet (fetch : string -> limit -> Comp (list value)) :
  0 <= R ->
  forall inputs,
    (forall input m, In input inputs -> quiet (fetch input m)) ->
    forall acc, quiet (collect fuel cfg fetch opts inputs acc).
Proof.
  intros HR. induction inputs as [|input rest IH]; intros Hfetch acc.
  - apply quiet_ret.
  - cbn [collect]. destruct (exhausted _); [apply quiet_ret|].
    apply quiet_bind; [apply Hfetch; left; reflexivity|]. intros products.
    assert (Hrest : forall acc', quiet (collect fuel cfg fetch opts rest acc'))
      by (apply IH; intros i m Hi; apply Hfetch; right; exact Hi).
    destruct (len products =? 0); [apply Hrest|].
    apply quiet_bind; [|intros detailed; apply Hrest].
    destruct (fetchDetails opts); [|apply quiet_ret].
    apply fetchProductDetails_quiet. exact HR.
Qed.

(** With a finite limit, a sane configuration and enough fuel, the loop
    over the inputs ends normally. *)
Lemma collect_safe (fetch : string -> limit -> Comp (list value)) (k : Z) :
  0 <= R ->
  (fetchDetails opts = true -> 0 < parallelRequests cfg) ->
  (Z.to_nat k < fuel)%nat ->
  maxProducts opts = Finite k ->
  (forall input k' products w w',
      0 <= k' -> fetch input (Finite k') w = Some (Ok products, w') ->
      len products <= k') ->
  forall inputs,
    (forall input k', In input inputs -> k' <= k -> safe (fetch input (Finite k'))) ->
    forall acc, safe (collect fuel cfg fetch opts inputs acc).
Proof.
  intros HR Hsize Hfuel Hmax Hbound.
  induction inputs as [|input rest IH]; intros Hfetch acc.
  - apply safe_ret.
  - cbn [collect]. rewrite Hmax. cbn [minus exhausted].
    destruct (Z.leb_spec (k - len acc) 0) as [Hdone|Hleft]; [apply safe_ret|].
    assert (Hrest : forall acc', safe (collect fuel cfg fetch opts rest acc'))
      by (apply IH; intros i k' Hi; apply Hfetch; right; exact Hi).
    intros w.
    destruct (Hfetch input (k - len acc) (or_introl eq_refl)
                     ltac:(pose proof (len_nonneg acc); lia) w)
      as (products & w1 & Hget).
    rewrite (bind_ok _ _ _ Hget).
    destruct (len products =? 0); [apply Hrest|].
    apply safe_bind; [|intros detailed; apply Hrest].
    destruct (fetchDetails opts) eqn:Hdetails; [|apply safe_ret].
    apply fetchProductDetails_safe; [exact HR | apply Hsize; reflexivity |].
    apply Hbound in Hget; [|lia].
    pose proof (len_nonneg acc). unfold len in *. lia.
Qed.
End Fetch.

End PipelineFacts.

(* ===================================================================== *)
(** ** The mapper *)
(* ===================================================================== *)

Module MapperFacts.
Import Js MapperCommon Spec.
Local Open Scope outcome_scope.

Lemma polite_get (v : value) (k : string) : polite (get v k).
Proof.
unfold polite. destruct v; cbn; try discriminate;
  repeat match goal with |- context [if ?b then _ else _] => destruct b end;
  discriminate.
Qed.

Lemma or_default (x d : value) : truthy d = true -> truthy (or_ x d) = true.
Proof. intros Hd. unfold or_. destruct (truthy x) eqn:Hx; assumption. Qed.

Lemma polite_ok {A} (a : A) : polite (Ok a).
Proof. discriminate. Qed.

Lemma polite_obind {A B} (o : outcome A) (k : A -> outcome B) :
polite o -> (forall a, polite (k a)) -> polite (obind o k).
Proof.
unfold polite. intros Ho Hk. destruct o as [a|e]; cbn [obind].
- apply Hk.
- intros H. apply Ho. inversion H. reflexivity.
Qed.

Lemma polite_omap {A B} (f : A -> outcome B) (l : list A) :
(forall x, polite (f x)) -> polite (omap f l).
Proof.
intros Hf. induction l as [|x rest IH]; cbn [omap].
- apply polite_ok.
- apply polite_obind; [apply Hf | intros y].
  apply polite_obind; [exact IH | intros ys; apply polite_ok].
Qed.

Lemma polite_array_map (f : value -> outcome value) (v : value) :
(forall x, polite (f x)) -> polite (array_map f v).
Proof.
intros Hf. destruct v; cbn [array_map]; try discriminate.
apply polite_omap, Hf.
Qed.

Lemma polite_split (v : value) (c : ascii) : polite (split v c).
Proof. destruct v; cbn [split]; discriminate. Qed.

Ltac polite_steps :=
repeat first
  [ apply polite_ok
  | apply polite_get
  | apply polite_split
  | apply polite_obind; [|intro]
  | match goal with |- polite (if ?b then _ else _) => destruct b end
  | match goal with |- polite (match ?x with VUndefined => _ | _ => _ end) =>
      destruct x end ].

Section WithParser.
Variable JSON_parse : string -> option value.

Lemma polite_image_entry (product image : value) :
  polite (image_entry product image).
Proof. unfold image_entry. polite_steps. Qed.

Lemma polite_map_images (product sourceVehicle : value) :
  polite (map_images product sourceVehicle).
Proof.
  unfold map_images. apply polite_obind; [apply polite_get | intros pimgs].
  apply polite_obind; [apply polite_array_map; intros x; apply polite_image_entry|].
  intros images. polite_steps.
Qed.

Lemma polite_first_price (product : value) : polite (first_price product).
Proof. unfold first_price. polite_steps. Qed.

Lemma polite_map_specifications (product : value) :
  polite (map_specifications product).
Proof. unfold map_specifications. polite_steps. Qed.

Lemma polite_map_category (product : value) : polite (map_category product).
Proof. unfold map_category. polite_steps. Qed.

Lemma polite_part_number (product : value) (d : string) :
  polite (part_number product d).
Proof. unfold part_number. polite_steps. Qed.

Lemma polite_part_name (product : value) (d : string) :
  polite (part_name product d).
Proof. unfold part_name. polite_steps. Qed.

Lemma polite_map_metadata (product sourceVehicle : value) :
  polite (map_metadata product sourceVehicle).
Proof. unfold map_metadata. polite_steps. Qed.

Lemma polite_compatibility_entry (fitment : value) :
  polite (Mapper.compatibility_entry fitment).
Proof. unfold Mapper.compatibility_entry. polite_steps. Qed.

Lemma polite_other_params (product : value) :
  polite (Mapper.other_params product).
Proof. unfold Mapper.other_params. polite_steps. Qed.

Lemma polite_map_price (product : value) : polite (Mapper.map_price product).
Proof.
  unfold Mapper.map_price. apply polite_obind; [apply polite_get | intros price].
  destruct price; try apply polite_ok. apply polite_first_price.
Qed.

(** The [try] block throws [Error]s only. *)
Lemma polite_build_part (product : value) :
  polite (Mapper.build_part JSON_parse product).
Proof.
  unfold Mapper.build_part.
  apply polite_obind; [apply polite_get | intros sv].
  apply polite_obind; [apply polite_get | intros fj].
  apply polite_obind;
    [apply polite_array_map; intros x; apply polite_compatibility_entry | intros compatibility].
  apply polite_obind; [apply polite_map_images | intros images].
  apply polite_obind; [apply polite_map_price | intros price].
  apply polite_obind; [apply polite_map_specifications | intros specifications].
  apply polite_obind; [apply polite_other_params | intros otherParams].
  apply polite_obind; [apply polite_part_number | intros partNumber].
  apply polite_obind; [apply polite_part_name | intros name].
  apply polite_obind; [apply polite_get | intros description].
  apply polite_obind; [apply polite_get | intros svMake].
  apply polite_obind; [apply polite_get | intros pMake].
  apply polite_obind; [apply polite_map_category | intros category].
  apply polite_obind; [apply polite_get | intros availability].
  apply polite_obind; [apply polite_get | intros ftcDisplay].
  apply polite_obind; [apply polite_map_metadata | intros metadata].
  apply polite_ok.
Qed.

Lemma obind_ok_inv {A B} (o : outcome A) (k : A -> outcome B) (b : B) :
  obind o k = Ok b -> exists a, o = Ok a /\ k a = Ok b.
Proof. destruct o as [a|e]; cbn [obind]; [eauto | discriminate]. Qed.

(** What the [try] block returns is an object. *)
Lemma build_part_object (product part : value) :
  Mapper.build_part JSON_parse product = Ok part ->
  exists fields, part = VObj fields.
Proof.
  unfold Mapper.build_part. intros H.
  repeat (apply obind_ok_inv in H; destruct H as (? & _ & H)).
  inversion H. eauto.
Qed.

(** [mapProductToPart] never throws; it returns [null] for a falsy
    product, an object for every other. *)
Lemma mapProductToPart_cases (product : value) :
  (truthy product = false /\ Mapper.mapProductToPart JSON_parse product = Ok VNull) \/
  (truthy product = true /\
   exists fields, Mapper.mapProductToPart JSON_parse product = Ok (VObj fields)).
Proof.
  unfold Mapper.mapProductToPart. destruct (truthy product) eqn:Htruthy; cbn [negb].
  - right. split; [reflexivity|].
    destruct (Mapper.build_part JSON_parse product) as [part|error] eqn:Hbuild.
    + destruct (build_part_object _ Hbuild) as (fields & ->). eauto.
    + pose proof (polite_build_part product) as Hpolite.
      rewrite Hbuild in Hpolite. destruct error as [m|]; [|congruence].
      unfold Mapper.minimal_part. cbn [message obind]. eauto.
  - left. auto.
Qed.

Lemma mapped_eq (product : value) :
  Mapper.mapProductToPart JSON_parse product = Ok (mapped JSON_parse product).
Proof.
  unfold mapped. destruct (mapProductToPart_cases product) as [(_ & ->)|(_ & f & ->)];
    reflexivity.
Qed.

Lemma omap_total {A B} (f : A -> outcome B) (g : A -> B) (l : list A) :
  (forall x, f x = Ok (g x)) -> omap f l = Ok (map g l).
Proof.
  intros Hf. induction l as [|x rest IH]; cbn [omap map]; [reflexivity|].
  rewrite Hf, IH. reflexivity.
Qed.

(** [mapProducts] never throws: it keeps the truthy parts, in order. *)
Lemma mapProducts_eq (products : list value) :
  LkqScraper.mapProducts JSON_parse products =
  Ok (filter truthy (map (mapped JSON_parse) products)).
Proof.
  unfold LkqScraper.mapProducts.
  rewrite (@omap_total _ _ _ (mapped JSON_parse)); [reflexivity|].
  intros product. rewrite mapped_eq. reflexivity.
Qed.

Lemma filter_len {A} (f : A -> bool) (l : list A) :
  LkqScraper.len (filter f l) <= LkqScraper.len l.
Proof.
  unfold LkqScraper.len. induction l as [|x rest IH]; cbn [filter List.length]; [lia|].
  destruct (f x); cbn [List.length]; lia.
Qed.

Lemma mapProducts_len (products : list value) :
  exists records,
    LkqScraper.mapProducts JSON_parse products = Ok records /\
    LkqScraper.len records <= LkqScraper.len products.
Proof.
  rewrite mapProducts_eq. eexists. split; [reflexivity|].
  etransitivity; [apply filter_len|].
  unfold LkqScraper.len. rewrite length_map. lia.
Qed.
End WithParser.

End MapperFacts.

(* ===================================================================== *)
(** ** scrape *)
(* ===================================================================== *)

Module ScrapeFacts.
Import Js Sim ScraperUtils LkqApi LkqScraper Spec.
Import CompFacts RetryFacts BatcherFacts PagingFacts PipelineFacts MapperFacts.

Section Scrape.
Variable fuel : nat.
Variable cfg : config.
Variable URL_ok : string -> bool.
Variable JSON_parse : string -> option value.

Let R := retryAttempts cfg.

Lemma proper_connection_test : 0 <= R -> proper (connection_test R).
Proof.
  intros HR. unfold connection_test.
  apply proper_bind; [apply proper_getSearchResults with (cfg := cfg); exact HR|].
  intros results. destruct (negb (truthy results)); [apply proper_error|].
  apply proper_bind; [apply proper_lift_get | intros err].
  destruct (truthy err); [apply proper_error|].
  apply proper_bind; [apply proper_lift_get | intros data].
  destruct (negb (truthy data) || negb (isArray data)); [|apply proper_ret].
  apply proper_bind; [apply proper_lift_prefix | intros _; apply proper_error].
Qed.

Lemma initializeApi_safe : 0 <= R -> safe (initializeApi R).
Proof.
  intros HR. unfold initializeApi.
  apply (@safe_try_logged _ _ (fun _ => ret tt)); [|intros _; apply safe_ret].
  apply proper_bind.
  - apply safe_proper.
    apply (@safe_try_logged _ _ (fun _ => ret tt)); [|intros _; apply safe_ret].
    apply proper_bind; [|intros _; apply proper_ret].
    apply proper_getCategoryCounts with (cfg := cfg). exact HR.
  - intros _. apply proper_bind; [|intros _; apply proper_ret].
    apply retry_proper; [|lia]. apply proper_connection_test. exact HR.
Qed.

Lemma initialize_safe : 0 <= R -> safe (initialize cfg).
Proof. intros HR. unfold initialize. apply safe_try, initializeApi_safe, HR. Qed.

Variable opts : options.

Lemma quiet_lift_mapProducts (raw : list value) :
  quiet (lift (mapProducts JSON_parse raw)).
Proof.
  intros w r w' H. unfold lift in H. rewrite mapProducts_eq in H.
  inversion H; subst. eauto.
Qed.

(** [scrape] does not end by a throw. *)
Lemma scrape_quiet (categoryList : list string) :
  0 <= R -> presets_ok cfg opts ->
  quiet (scrape fuel cfg URL_ok JSON_parse categoryList opts).
Proof.
  intros HR Hpresets. unfold scrape. destruct categoryList as [|c0 rest];
    [apply quiet_ret|].
  apply quiet_try. apply quiet_bind; [apply safe_quiet, initialize_safe, HR|].
  intros _. apply quiet_bind; [|intros raw; apply quiet_lift_mapProducts].
  destruct (usePresetUrls opts && negb (len (categoryUrls cfg) =? 0)) eqn:Hpre.
  - apply collect_quiet; [exact HR|].
    intros input m Hin. apply fetchProductsByUrl_quiet.
    apply andb_prop in Hpre. destruct Hpre as (Huse & _).
    specialize (Hpresets Huse). rewrite Forall_forall in Hpresets.
    apply Hpresets, Hin.
  - apply collect_quiet; [exact HR|].
    intros input m _. apply fetch_input_quiet. exact HR.
Qed.

(** The number of records is at most a finite, non-negative limit. *)
Lemma scrape_bound (categoryList : list string) (k : Z)
      (records : list value) (w w' : world) :
  maxProducts opts = Finite k -> 0 <= k ->
  scrape fuel cfg URL_ok JSON_parse categoryList opts w = Some (Ok records, w') ->
  len records <= k.
Proof.
  intros Hmax Hk. unfold scrape. destruct categoryList as [|c0 rest].
  - intros H. inversion H; subst. exact Hk.
  - intros H. apply try_catch_inv in H.
    destruct H as [(a & Hrun & Heq)|(e & w1 & _ & Hh)].
    + inversion Heq; subst a. apply bind_inv in Hrun.
      destruct Hrun as [(e & _ & Habs)|(u & w1 & _ & Hrun)]; [discriminate|].
      apply bind_inv in Hrun.
      destruct Hrun as [(e & _ & Habs)|(raw & w2 & Hraw & Hmap)]; [discriminate|].
      unfold lift in Hmap. rewrite mapProducts_eq in Hmap. inversion Hmap; subst.
      assert (Hlen : len raw <= Z.max 0 k).
      { destruct (usePresetUrls opts && negb (len (categoryUrls cfg) =? 0)).
        - eapply collect_bound; [| exact Hmax | | exact Hraw]; [|cbn; lia].
          intros input k' products wa wb Hk'. apply fetchProductsByUrl_bound, Hk'.
        - eapply collect_bound; [| exact Hmax | | exact Hraw]; [|cbn; lia].
          intros input k' products wa wb Hk'. apply fetch_input_bound, Hk'. }
      pose proof (filter_len truthy (map (mapped JSON_parse) raw)) as Hfilter.
      unfold len in *. rewrite length_map in Hfilter. lia.
    + apply bind_inv in Hh.
      destruct Hh as [(e' & _ & Habs)|(t & w2 & _ & Hthrow)]; [discriminate|].
      inversion Hthrow.
Qed.

Lemma enough_variant (k k' : Z) :
  0 <= R -> k' <= k -> (enough cfg k <= fuel)%nat ->
  (Z.to_nat (variant k' (Z.max R 3) start) < fuel)%nat.
Proof.
  intros HR Hk Hfuel. unfold enough in Hfuel. rewrite variant_start.
  assert (Z.max 0 k' * (Z.max R 3 + 1) <= Z.max 0 k * (Z.max R 3 + 1))
    by (apply Z.mul_le_mono_nonneg_r; lia).
  assert (0 <= Z.max 0 k' * (Z.max R 3 + 1)) by (apply Z.mul_nonneg_nonneg; lia).
  lia.
Qed.

Lemma enough_products (k : Z) :
  (enough cfg k <= fuel)%nat -> (Z.to_nat k < fuel)%nat.
Proof.
  intros Hfuel. unfold enough in Hfuel.
  assert (Z.max 0 k * 1 <= Z.max 0 k * (Z.max R 3 + 1))
    by (apply Z.mul_le_mono_nonneg_l; lia).
  lia.
Qed.

(** With a finite limit, a sane configuration and enough fuel, [scrape]
    returns. *)
Lemma scrape_safe (categoryList : list string) (k : Z) :
  0 <= R ->
  (fetchDetails opts = true -> 0 < parallelRequests cfg) ->
  presets_ok cfg opts ->
  maxProducts opts = Finite k ->
  (enough cfg k <= fuel)%nat ->
  safe (scrape fuel cfg URL_ok JSON_parse categoryList opts).
Proof.
  intros HR Hsize Hpresets Hmax Hfuel. unfold scrape.
  destruct categoryList as [|c0 rest]; [apply safe_ret|].
  apply safe_try. apply safe_bind; [apply initialize_safe, HR|].
  intros _. apply safe_bind.
  - destruct (usePresetUrls opts && negb (len (categoryUrls cfg) =? 0)) eqn:Hpre.
    + apply collect_safe with (k := k); try assumption.
      * apply enough_products, Hfuel.
      * intros input k' products wa wb Hk'. apply fetchProductsByUrl_bound, Hk'.
      * intros input k' Hin Hk'. apply fetchProductsByUrl_safe with (cfg := cfg).
        -- apply andb_prop in Hpre. destruct Hpre as (Huse & _).
           specialize (Hpresets Huse). rewrite Forall_forall in Hpresets.
           apply Hpresets, Hin.
        -- assert (Hmono : variant k' 3 start <= variant k' (Z.max R 3) start).
           { rewrite !variant_start.
             assert (Z.max 0 k' * (3 + 1) <= Z.max 0 k' * (Z.max R 3 + 1))
               by (apply Z.mul_le_mono_nonneg_l; lia).
             lia. }
           pose proof (@enough_variant k k' HR Hk' Hfuel). lia.
    + apply collect_safe with (k := k); try assumption.
      * apply enough_products, Hfuel.
      * intros input k' products wa wb Hk'. apply fetch_input_bound, Hk'.
      * intros input k' Hin Hk'. apply fetch_input_safe; [exact HR|].
        apply (@enough_variant k k' HR Hk' Hfuel).
  - intros raw w. unfold lift. rewrite mapProducts_eq. eauto.
Qed.
End Scrape.

End ScrapeFacts.

(* ===================================================================== *)
(** ** The page requests of a run *)
(* ===================================================================== *)

Module TraceFacts.
Import Js Sim ScraperUtils LkqApi LkqScraper Spec.
Import CompFacts RetryFacts BatcherFacts PagingFacts.

Lemma page_requests_app (t1 t2 : list event) :
page_requests (t1 ++ t2) = (page_requests t1 ++ page_requests t2)%list.
Proof.
induction t1 as [|ev rest IH]; [reflexivity|].
cbn [app page_requests]. destruct ev as [[cat sk tk|url sk tk|cat|pid] a|p];
  rewrite IH; reflexivity.
Qed.

Lemma contiguous_app (a b c : Z) (l1 l2 : list (Z * Z * reply)) :
contiguous a l1 b -> contiguous b l2 c -> contiguous a (l1 ++ l2) c.
Proof.
revert a. induction l1 as [|[[s t] r] rest IH]; intros a H1 H2.
- cbn in H1. subst b. exact H2.
- cbn [contiguous app] in *. destruct H1 as (-> & H1). split; [reflexivity|].
  eapply IH; eauto.
Qed.

Lemma no_pages_nil : no_pages [].
Proof. reflexivity. Qed.

Lemma no_pages_app (l1 l2 : list event) :
no_pages l1 -> no_pages l2 -> no_pages (l1 ++ l2).
Proof. unfold no_pages. intros H1 H2. rewrite page_requests_app, H1, H2. reflexivity. Qed.

Lemma grows_ret {A} (P : list event -> Prop) (a : A) : P [] -> grows P (ret a).
Proof.
intros HP w r w' H. inversion H; subst. exists []. rewrite app_nil_r. auto.
Qed.

Lemma grows_lift {A} (P : list event -> Prop) (o : outcome A) : P [] -> grows P (lift o).
Proof.
intros HP w r w' H. inversion H; subst. exists []. rewrite app_nil_r. auto.
Qed.

Lemma grows_throw {A} (P : list event -> Prop) (e : exn) : P [] -> grows P (@throw A e).
Proof.
intros HP w r w' H. inversion H; subst. exists []. rewrite app_nil_r. auto.
Qed.

Lemma grows_sleep (p : pause) : grows no_pages (sleep p).
Proof.
intros w r w' H. inversion H; subst. exists [Slept p]. split; reflexivity.
Qed.

Lemma grows_out_of_fuel {A} (P : list event -> Prop) : grows P (@out_of_fuel A).
Proof. intros w r w' H. discriminate. Qed.

Lemma grows_bind {A B} (c : Comp A) (k : A -> Comp B) :
grows no_pages c -> (forall a, grows no_pages (k a)) -> grows no_pages (bind c k).
Proof.
intros Hc Hk w r w' H. apply bind_inv in H.
destruct H as [(e & Hrun & _)|(a & w1 & Hrun & Hrest)].
- eapply Hc. exact Hrun.
- destruct (Hc _ _ _ Hrun) as (n1 & E1 & P1).
  destruct (Hk _ _ _ _ Hrest) as (n2 & E2 & P2).
  exists (n1 ++ n2)%list. rewrite E2, E1, app_assoc. split; [reflexivity|].
  apply no_pages_app; assumption.
Qed.

Lemma grows_try {A} (c : Comp A) (h : exn -> Comp A) :
grows no_pages c -> (forall e, grows no_pages (h e)) -> grows no_pages (try_catch c h).
Proof.
intros Hc Hh w r w' H. apply try_catch_inv in H.
destruct H as [(a & Hrun & _)|(e & w1 & Hrun & Hrest)].
- eapply Hc. exact Hrun.
- destruct (Hc _ _ _ Hrun) as (n1 & E1 & P1).
  destruct (Hh _ _ _ _ Hrest) as (n2 & E2 & P2).
  exists (n1 ++ n2)%list. rewrite E2, E1, app_assoc. split; [reflexivity|].
  apply no_pages_app; assumption.
Qed.

Lemma grows_makeApiRequest (r : request) :
match r with
| GetSearchResults _ _ _ | GetByUrl _ _ _ => False
| _ => True
end ->
grows no_pages (makeApiRequest r).
Proof.
intros Hkind w o w' H. unfold makeApiRequest in H.
exists [Issued r (upstream w (served w))]. split.
- destruct (upstream w (served w)); inversion H; subst; reflexivity.
- destruct r; try contradiction; reflexivity.
Qed.

(** [retry] adds what its attempts add. *)
Lemma grows_retry_loop {A} (fn : Comp A) (R : Z) :
grows no_pages fn ->
forall fuel retries lastError t w r w' t',
  retry_loop fn R fuel retries lastError t w = Some (r, w', t') ->
  exists new, trace w' = (trace w ++ new)%list /\ no_pages new.
Proof.
intros Hfn. induction fuel as [|fuel IH]; intros retries lastError t w r w' t' H.
- discriminate.
- cbn [retry_loop] in H. destruct (retries <=? R).
  + destruct (fn w) as [[[v|e] w1]|] eqn:Hrun; [| |discriminate].
    * inversion H; subst. eapply Hfn. exact Hrun.
    * destruct (Hfn _ _ _ Hrun) as (n1 & E1 & P1).
      destruct (retries + 1 >? R).
      -- inversion H; subst. eauto.
      -- destruct (message e); [|inversion H; subst; eauto].
         cbn [sleep] in H. apply IH in H. destruct H as (n2 & E2 & P2).
         cbn [trace] in E2.
         exists (n1 ++ [Slept RetryBackoff] ++ n2)%list.
         rewrite E2, E1, <- !app_assoc. split; [reflexivity|].
         apply no_pages_app; [exact P1|]. apply no_pages_app; [reflexivity | exact P2].
  + inversion H; subst. exists []. rewrite app_nil_r. split; reflexivity.
Qed.

Lemma grows_retry {A} (fn : Comp A) (R : Z) :
grows no_pages fn -> grows no_pages (retry fn R).
Proof.
intros Hfn w r w' H. unfold retry, retry_tally in H.
destruct (retry_loop fn R (retry_fuel R) 0 JsUndefined
                     {| attempts := 0; backoffs := 0 |} w)
  as [[[r1 w1] t1]|] eqn:Hloop; [|discriminate].
cbn in H. inversion H; subst. eapply grows_retry_loop; eauto.
Qed.

Lemma grows_getCategoryCounts (R : Z) (category : string) :
grows no_pages (getCategoryCounts R category).
Proof.
unfold getCategoryCounts. apply grows_retry.
apply grows_bind; [apply grows_makeApiRequest; exact I | intros response].
apply grows_bind; [apply grows_lift, no_pages_nil | intros count].
apply grows_ret, no_pages_nil.
Qed.

(** The attempts of [getSearchResults] all ask for the same page; only a
  reply that is returned can move the cursor. *)
Lemma getSearchResults_loop_trace (R : Z) (category : string) (sk tk : Z) :
forall fuel retries lastError t w r w' t',
  retry_loop (sleep HumanDelay ;;; makeApiRequest (GetSearchResults category sk tk))
             R fuel retries lastError t w = Some (r, w', t') ->
  exists new,
    trace w' = (trace w ++ new)%list /\
    Forall (fun t => t = tk) (takes (page_requests new)) /\
    contiguous sk (page_requests new)
               (match r with
                | Ok response => lands sk tk (Returns response)
                | Throw _ => sk
                end).
Proof.
induction fuel as [|fuel IH]; intros retries lastError t w r w' t' H.
- discriminate.
- cbn [retry_loop] in H. destruct (retries <=? R).
  + unfold bind at 1, sleep at 1, makeApiRequest at 1 in H. cbn [upstream served trace] in H.
    destruct (upstream w (served w)) as [m|data] eqn:Hreply.
    * destruct (retries + 1 >? R).
      -- inversion H; subst. cbn [trace].
         exists [Slept HumanDelay; Issued (GetSearchResults category sk tk) (Fails m)].
         rewrite <- app_assoc. repeat split; cbn; auto.
      -- cbn [message sleep] in H. apply IH in H.
         destruct H as (n2 & E2 & T2 & K2). cbn [trace] in E2.
         exists ([Slept HumanDelay; Issued (GetSearchResults category sk tk) (Fails m);
                  Slept RetryBackoff] ++ n2)%list.
         rewrite E2, <- !app_assoc. split; [reflexivity|].
         cbn [app page_requests takes map fst snd contiguous advances].
         split; [constructor; [reflexivity | exact T2] | split; [reflexivity | exact K2]].
    * inversion H; subst. cbn [trace].
      exists [Slept HumanDelay; Issued (GetSearchResults category sk tk) (Returns data)].
      rewrite <- app_assoc. split; [reflexivity|].
      cbn [page_requests takes map fst snd contiguous].
      split; [constructor; [reflexivity | constructor]|].
      split; reflexivity.
  + inversion H; subst. exists []. rewrite app_nil_r. repeat split; constructor.
Qed.

Lemma getSearchResults_trace (R : Z) (category : string) (sk tk : Z) w r w' :
getSearchResults R category sk tk w = Some (r, w') ->
exists new,
  trace w' = (trace w ++ new)%list /\
  Forall (fun t => t = tk) (takes (page_requests new)) /\
  contiguous sk (page_requests new)
             (match r with
              | Ok response => lands sk tk (Returns response)
              | Throw _ => sk
              end).
Proof.
unfold getSearchResults, retry, retry_tally. intros H.
match type of H with option_map _ ?x = _ => destruct x as [[[r1 w1] t1]|] eqn:Hloop end;
  [|discriminate].
cbn in H. inversion H; subst. eapply getSearchResults_loop_trace. exact Hloop.
Qed.

(** What [absorb] does: no request, and the cursor lands where the reply
  says; a response it rejects does not advance. *)
Lemma absorb_trace (m : limit) (c : cursor) (response : value)
    (window requested : Z) w r w' :
absorb m c response window requested w = Some (r, w') ->
(exists new, trace w' = (trace w ++ new)%list /\ no_pages new) /\
match r with
| Ok f => skip (cursor_of f) = lands (skip c) requested (Returns response)
| Throw _ => advances (Returns response) = false
end.
Proof.
unfold absorb, lands, advances.
destruct (page_data response) as [products|] eqn:Hdata.
- destruct (Z.eqb_spec (len products) 0) as [Hempty|Hfull].
  + intros H. inversion H; subst. split.
    * exists []. rewrite app_nil_r. split; reflexivity.
    * destruct products; [reflexivity | discriminate].
  + assert (Hsome : match products with [] => false | _ :: _ => true end = true)
      by (destruct products; [exfalso; apply Hfull; reflexivity | reflexivity]).
    rewrite Hsome.
    match goal with |- context [if reached ?n m then _ else _] => destruct (reached n m) end.
    * intros H. inversion H; subst. split; [|reflexivity].
      exists []. rewrite app_nil_r. split; reflexivity.
    * intros H. apply bind_inv in H.
      destruct H as [(e & Hrun & ->)|(u & w1 & Hrun & Hret)].
      -- exfalso. revert Hrun.
         match goal with |- context [if ?b then _ else _] => destruct b end; discriminate.
      -- inversion Hret; subst. split; [|reflexivity].
         revert Hrun.
         match goal with |- context [if ?b then _ else _] => destruct b end;
           intros Hrun; inversion Hrun; subst.
         ++ exists [Slept PageWait]. split; reflexivity.
         ++ exists []. rewrite app_nil_r. split; reflexivity.
- intros H. unfold invalid_response in H. apply bind_inv in H.
  destruct H as [(e & Hrun & ->)|(text & w1 & Hrun & Hthrow)].
  + inversion Hrun; subst. split; [|reflexivity].
    exists []. rewrite app_nil_r. split; reflexivity.
  + inversion Hrun; subst. inversion Hthrow; subst. split; [|reflexivity].
    exists []. rewrite app_nil_r. split; reflexivity.
Qed.

Lemma page_failed_trace (R : Z) (c : cursor) (e : exn) w r w' :
page_failed R c e w = Some (r, w') ->
(exists new, trace w' = (trace w ++ new)%list /\ no_pages new) /\
forall f, r = Ok f -> skip (cursor_of f) = skip c.
Proof.
unfold page_failed. intros H. apply bind_inv in H.
destruct H as [(e' & Hrun & ->)|(text & w1 & Hrun & H)].
- inversion Hrun; subst. split; [|discriminate].
  exists []. rewrite app_nil_r. split; reflexivity.
- unfold lift in Hrun. destruct (message e); inversion Hrun; subst.
  cbn [consecutiveErrors] in H. destruct (consecutiveErrors c + 1 >=? R).
  + inversion H; subst. split.
    * exists []. rewrite app_nil_r. split; reflexivity.
    * intros f Hf. inversion Hf; subst. reflexivity.
  + inversion H; subst. split.
    * exists [Slept PageBackoff]. split; reflexivity.
    * intros f Hf. inversion Hf; subst. reflexivity.
Qed.

(** A turn made of a fetch that lands as [lands] says, then [absorb], with
  [page_failed] as handler. *)
Lemma turn_paged_intro (lo tk : Z) (m : limit) (c : cursor) (window : Z)
    (fetch : Comp value) (guard : bool) w r w' :
lo <= tk ->
(forall w0 r0 w1, fetch w0 = Some (r0, w1) ->
   exists new,
     trace w1 = (trace w0 ++ new)%list /\
     Forall (fun t => t = tk) (takes (page_requests new)) /\
     contiguous (skip c) (page_requests new)
                (match r0 with
                 | Ok response => lands (skip c) tk (Returns response)
                 | Throw _ => skip c
                 end)) ->
forall R,
try_catch (if guard then response <- fetch ;; absorb m c response window tk
           else throw (JsError "Invalid URL"))
          (page_failed R c) w = Some (r, w') ->
turn_paged lo c r w w'.
Proof.
intros Hlo Hfetch R H. unfold turn_paged.
assert (Hweaken : forall l, Forall (fun t => t = tk) l -> Forall (fun t => lo <= t) l).
{ intros l Hl. eapply Forall_impl; [|exact Hl]. intros t ->. exact Hlo. }
apply try_catch_inv in H.
destruct H as [(f & Hbody & ->)|(e & w1 & Hbody & Hhandler)].
- destruct guard; [|discriminate].
  apply bind_inv in Hbody.
  destruct Hbody as [(e & _ & Habs)|(response & w1 & Hget & Habsorb)]; [discriminate|].
  destruct (Hfetch _ _ _ Hget) as (n1 & E1 & T1 & K1).
  apply absorb_trace in Habsorb. destruct Habsorb as ((n2 & E2 & P2) & Hskip).
  exists (n1 ++ n2)%list. rewrite E2, E1, app_assoc. split; [reflexivity|].
  rewrite page_requests_app, P2, app_nil_r. split; [apply Hweaken, T1|].
  rewrite Hskip. exact K1.
- apply page_failed_trace in Hhandler. destruct Hhandler as ((n3 & E3 & P3) & Hskip).
  assert (Hbefore : exists n1, trace w1 = (trace w ++ n1)%list /\
                               Forall (fun t => lo <= t) (takes (page_requests n1)) /\
                               contiguous (skip c) (page_requests n1) (skip c)).
  { destruct guard.
    - apply bind_inv in Hbody.
      destruct Hbody as [(e0 & Hget & _)|(response & w2 & Hget & Habsorb)].
      + destruct (Hfetch _ _ _ Hget) as (n1 & E1 & T1 & K1). eauto.
      + destruct (Hfetch _ _ _ Hget) as (n1 & E1 & T1 & K1).
        apply absorb_trace in Habsorb. destruct Habsorb as ((n2 & E2 & P2) & Hstay).
        exists (n1 ++ n2)%list. rewrite E2, E1, app_assoc. split; [reflexivity|].
        rewrite page_requests_app, P2, app_nil_r. split; [apply Hweaken, T1|].
        unfold lands in K1. rewrite Hstay in K1. exact K1.
    - inversion Hbody; subst. exists []. rewrite app_nil_r.
      repeat split; constructor. }
  destruct Hbefore as (n1 & E1 & T1 & K1).
  exists (n1 ++ n3)%list. rewrite E3, E1, app_assoc. split; [reflexivity|].
  rewrite page_requests_app, P3, app_nil_r. split; [exact T1|].
  destruct r as [f|e']; [rewrite (Hskip f eq_refl); exact K1 | eauto].
Qed.

Lemma min_with_positive (b : Z) (m : limit) (n : Z) :
1 <= b -> below n m = true -> 1 <= min_with b (minus m n).
Proof.
intros Hb Hbelow. destruct m as [k|]; cbn in *; [|exact Hb].
apply Z.ltb_lt in Hbelow. lia.
Qed.

Section Turns.
Variable cfg : config.
Variable URL_ok : string -> bool.

Lemma category_turn_paged (category : string) (m : limit) (c : cursor) w r w' :
  1 <= batchSize cfg ->
  below (len (allProducts c)) m = true ->
  category_turn cfg category m c w = Some (r, w') ->
  turn_paged 1 c r w w'.
Proof.
  intros Hb Hbelow H. unfold category_turn in H.
  eapply (@turn_paged_intro 1 _ m c _ _ true); [| |exact H].
  - apply min_with_positive; assumption.
  - intros w0 r0 w1. apply getSearchResults_trace.
Qed.

Lemma makeApiRequest_url_trace (url : string) (sk tk : Z) w0 r0 w1 :
  makeApiRequest (GetByUrl url sk tk) w0 = Some (r0, w1) ->
  exists new,
    trace w1 = (trace w0 ++ new)%list /\
    Forall (fun t => t = tk) (takes (page_requests new)) /\
    contiguous sk (page_requests new)
               (match r0 with
                | Ok response => lands sk tk (Returns response)
                | Throw _ => sk
                end).
Proof.
  unfold makeApiRequest. intros H.
  exists [Issued (GetByUrl url sk tk) (upstream w0 (served w0))].
  destruct (upstream w0 (served w0)) as [msg|data]; inversion H; subst;
    cbn [trace page_requests takes map fst snd contiguous advances];
    (split; [reflexivity|]); (split; [constructor; [reflexivity | constructor]|]);
    split; reflexivity.
Qed.

Lemma url_turn_paged (url : string) (m : limit) (c : cursor) w r w' :
  below (len (allProducts c)) m = true ->
  url_turn URL_ok url m c w = Some (r, w') ->
  turn_paged 1 c r w w'.
Proof.
  intros Hbelow H. unfold url_turn in H.
  eapply (@turn_paged_intro 1 _ m c _ _ (URL_ok url)); [| |exact H].
  - apply min_with_positive; [lia | assumption].
  - intros w0 r0 w1. apply makeApiRequest_url_trace.
Qed.
End Turns.

(** The loop strings the turns together. *)
Lemma paginate_paged (turn : cursor -> Comp flow) (m : limit) (R lo : Z) :
(forall c w r w', below (len (allProducts c)) m = true ->
                  turn c w = Some (r, w') -> turn_paged lo c r w w') ->
forall gas c w r w',
  paginate turn m R gas c w = Some (r, w') ->
  exists new, trace w' = (trace w ++ new)%list /\ paged (skip c) lo new.
Proof.
intros Hturn. induction gas as [|gas IH]; intros c w r w' H.
- discriminate.
- cbn [paginate] in H.
  destruct (hasMore c && below (len (allProducts c)) m && (consecutiveErrors c <? R))
           eqn:Hguard.
  + apply andb_prop in Hguard. destruct Hguard as (Hguard & _).
    apply andb_prop in Hguard. destruct Hguard as (_ & Hbelow).
    apply bind_inv in H.
    destruct H as [(e & Hrun & ->)|(f & w1 & Hrun & Hrest)].
    * destruct (Hturn _ _ _ _ Hbelow Hrun) as (n1 & E1 & T1 & (sk' & K1)).
      exists n1. split; [exact E1|]. split; eauto.
    * destruct (Hturn _ _ _ _ Hbelow Hrun) as (n1 & E1 & T1 & K1).
      destruct f as [c'|c']; cbn [cursor_of] in K1.
      -- apply IH in Hrest. destruct Hrest as (n2 & E2 & (sk' & K2) & T2).
         exists (n1 ++ n2)%list. rewrite E2, E1, app_assoc. split; [reflexivity|].
         split.
         ++ exists sk'. rewrite page_requests_app. eapply contiguous_app; eauto.
         ++ rewrite page_requests_app. unfold takes in *. rewrite map_app.
            apply Forall_app. auto.
      -- inversion Hrest; subst. exists n1. split; [exact E1|]. split; eauto.
  + inversion H; subst. exists []. rewrite app_nil_r. split; [reflexivity|].
    split; [exists (skip c); reflexivity | constructor].
Qed.

Lemma paged_after_silence (sk lo : Z) (n1 n2 : list event) :
no_pages n1 -> paged sk lo n2 -> paged sk lo (n1 ++ n2).
Proof.
unfold paged, no_pages. intros H1 H2. rewrite page_requests_app, H1. exact H2.
Qed.

Lemma paged_before_silence (sk lo : Z) (n1 n2 : list event) :
paged sk lo n1 -> no_pages n2 -> paged sk lo (n1 ++ n2).
Proof.
unfold paged, no_pages. intros H1 H2. rewrite page_requests_app, H2, app_nil_r. exact H1.
Qed.

Lemma paged_nil (sk lo : Z) : paged sk lo [].
Proof. split; [exists sk; reflexivity | constructor]. Qed.

(** A [try] whose handler only logs and returns keeps what the body
  added. *)
Lemma paged_try_logged {A} (body : Comp A) (a0 : A) (sk lo : Z) w r w' :
(forall r1 w1, body w = Some (r1, w1) ->
               exists new, trace w1 = (trace w ++ new)%list /\ paged sk lo new) ->
try_catch body (fun error => _ <- lift (message error) ;; ret a0) w = Some (r, w') ->
exists new, trace w' = (trace w ++ new)%list /\ paged sk lo new.
Proof.
intros Hbody H. apply try_catch_inv in H.
destruct H as [(a & Hrun & _)|(e & w1 & Hrun & Hh)]; [eauto|].
destruct (Hbody _ _ Hrun) as (n1 & E1 & P1).
assert (w' = w1).
{ unfold bind, lift in Hh. destruct (message e); inversion Hh; reflexivity. }
subst w'. eauto.
Qed.

Section Entry.
Variable fuel : nat.
Variable cfg : config.
Variable URL_ok : string -> bool.

Lemma fetchProductsByCategory_paged (category : string) (m : limit) w r w' :
  1 <= batchSize cfg ->
  fetchProductsByCategory fuel cfg category m w = Some (r, w') ->
  exists new, trace w' = (trace w ++ new)%list /\ paged 0 1 new.
Proof.
  intros Hb. unfold fetchProductsByCategory. apply paged_try_logged.
  intros r1 w1 H. apply bind_inv in H.
  assert (Hcursor : forall rc wc, category_cursor fuel cfg category m w = Some (rc, wc) ->
              exists new, trace wc = (trace w ++ new)%list /\ paged 0 1 new).
  { intros rc wc Hc. unfold category_cursor in Hc. apply bind_inv in Hc.
    destruct Hc as [(e & Hcounts & _)|(v & w2 & Hcounts & Hloop)].
    - apply grows_getCategoryCounts in Hcounts. destruct Hcounts as (n1 & E1 & P1).
      exists n1. split; [exact E1|].
      rewrite <- (app_nil_r n1). apply paged_after_silence; [exact P1 | apply paged_nil].
    - apply grows_getCategoryCounts in Hcounts. destruct Hcounts as (n1 & E1 & P1).
      eapply paginate_paged in Hloop;
        [|intros c0 w0 r0 w0' Hbelow; apply category_turn_paged; assumption].
      destruct Hloop as (n2 & E2 & P2).
      exists (n1 ++ n2)%list. rewrite E2, E1, app_assoc. split; [reflexivity|].
      apply paged_after_silence; assumption. }
  destruct H as [(e & Hrun & _)|(c & w2 & Hrun & Hret)].
  - eapply Hcursor. exact Hrun.
  - inversion Hret; subst. eapply Hcursor. exact Hrun.
Qed.

Lemma fetchProductsByUrl_paged (url : string) (m : limit) w r w' :
  fetchProductsByUrl fuel URL_ok url m w = Some (r, w') ->
  exists new, trace w' = (trace w ++ new)%list /\ paged 0 1 new.
Proof.
  unfold fetchProductsByUrl. destruct (String.eqb url "").
  - intros H. inversion H; subst. exists []. rewrite app_nil_r.
    split; [reflexivity | apply paged_nil].
  - apply paged_try_logged.
    intros r1 w1 H. apply bind_inv in H.
    assert (Hcursor : forall rc wc, url_cursor fuel URL_ok url m w = Some (rc, wc) ->
                exists new, trace wc = (trace w ++ new)%list /\ paged 0 1 new).
    { intros rc wc Hc. unfold url_cursor in Hc.
      eapply paginate_paged in Hc; [exact Hc|].
      intros c0 w0 r0 w0' Hbelow. apply url_turn_paged. assumption. }
    destruct H as [(e & Hrun & _)|(c & w2 & Hrun & Hret)].
    + eapply Hcursor. exact Hrun.
    + inversion Hret; subst. eapply Hcursor. exact Hrun.
Qed.
End Entry.

End TraceFacts.

(* ===================================================================== *)
(** ** A category whose page fetches all fail *)
(* ===================================================================== *)

Module FailureFacts.
Import Js Sim ScraperUtils LkqApi LkqScraper Spec.
Import CompFacts RetryFacts BatcherFacts PagingFacts PipelineFacts.

Lemma search_fails (category : string) (sk tk : Z) (w : world) (m : string) :
upstream w (served w) = Fails m ->
exists w', search category sk tk w = Some (Throw (JsError m), w') /\
           served w' = S (served w) /\ upstream w' = upstream w.
Proof.
intros Hreply. unfold search, bind, sleep, makeApiRequest. cbn [upstream served trace].
rewrite Hreply. eexists. split; [reflexivity|]. split; reflexivity.
Qed.

Lemma failing_window_shrink (w w' : world) (n : Z) (d : nat) :
failing_window w n ->
upstream w' = upstream w -> served w' = (served w + d)%nat ->
failing_window w' (n - Z.of_nat d).
Proof.
intros Hwin Hup Hserved i Hlo Hhi. rewrite Hup. apply Hwin; lia.
Qed.

(** [k] failing attempts in a window of at least [k] failing replies. *)
Lemma failing_run_in_window (category : string) (sk tk : Z) :
forall (k : nat) (w : world),
  failing_window w (Z.of_nat k) ->
  exists wk, failing_run (search category sk tk) k w wk /\
             served wk = (served w + k)%nat /\ upstream wk = upstream w.
Proof.
induction k as [|k IH]; intros w Hwin.
- exists w. cbn. repeat split. lia.
- destruct (Hwin (served w)) as (m & Hreply); [lia | lia |].
  destruct (search_fails category sk tk w Hreply) as (w1 & Hrun & Hserved & Hup).
  destruct (IH (after_backoff w1)) as (wk & Hrest & Hsk & Hupk).
  + assert (Hshrink := @failing_window_shrink w (after_backoff w1) (Z.of_nat (S k)) 1 Hwin).
    replace (Z.of_nat (S k) - Z.of_nat 1) with (Z.of_nat k) in Hshrink by lia.
    apply Hshrink; cbn [after_backoff upstream served]; [exact Hup | lia].
  + exists wk. cbn [failing_run]. split; [eauto|].
    cbn [after_backoff upstream served] in *. split; [lia | congruence].
Qed.

(** In a window of [R + 1] failing replies [getSearchResults] gives up. *)
Lemma getSearchResults_gives_up (R : Z) (category : string) (sk tk : Z) (w : world) :
0 <= R ->
failing_window w (R + 1) ->
exists m w', getSearchResults R category sk tk w = Some (Throw (JsError m), w') /\
             Z.of_nat (served w') = Z.of_nat (served w) + (R + 1) /\
             upstream w' = upstream w.
Proof.
intros HR Hwin.
destruct (@failing_run_in_window category sk tk (Z.to_nat R) w) as (wn & Hrun & Hserved & Hup).
{ intros i Hlo Hhi. apply Hwin; lia. }
destruct (Hwin (served wn)) as (m & Hreply); [lia | lia |].
rewrite <- Hup in Hreply.
destruct (search_fails category sk tk wn Hreply) as (wf & Hlast & Hservedf & Hupf).
exists m, wf. split.
- unfold getSearchResults, retry.
  fold (search category sk tk).
  rewrite (@retry_exhausts _ (search category sk tk) R (Z.to_nat R) w wn wf (JsError m));
    [reflexivity | exact Hrun | exact Hlast | lia].
- split; [lia | congruence].
Qed.

Section Category.
Variable cfg : config.
Variable category : string.
Variable m : limit.

Let R := retryAttempts cfg.

(** [j] more failing turns bring the error counter to the ceiling; no
    product is added. *)
Lemma paginate_gives_up :
  0 <= R ->
  below 0 m = true ->
  forall (j : nat) (gas : nat) (c : cursor) (w : world),
    (0 < j)%nat -> (j < gas)%nat ->
    allProducts c = [] -> hasMore c = true ->
    consecutiveErrors c = R - Z.of_nat j ->
    0 <= consecutiveErrors c ->
    failing_window w (Z.of_nat j * (R + 1)) ->
    exists c' w',
      paginate (category_turn cfg category m) m R gas c w = Some (Ok c', w') /\
      allProducts c' = [] /\
      Z.of_nat (served w') = Z.of_nat (served w) + Z.of_nat j * (R + 1) /\
      upstream w' = upstream w.
Proof.
  intros HR Hbelow. induction j as [|j IH];
    intros gas c w Hj Hgas Hall Hmore Herrs Hpos Hwin; [lia|].
  destruct gas as [|gas]; [lia|]. cbn [paginate].
  rewrite Hmore, Hall. change (len (@nil value)) with 0. rewrite Hbelow.
  destruct (Z.ltb_spec (consecutiveErrors c) R) as [_|Hno]; [|lia]. cbn [andb].
  destruct (@getSearchResults_gives_up R category (skip c)
              (min_with (batchSize cfg) (minus m 0)) w HR) as (msg & w1 & Hget & Hserved & Hup).
  { intros i Hlo Hhi. apply Hwin; [exact Hlo|].
    assert (1 * (R + 1) <= Z.of_nat (S j) * (R + 1))
      by (apply Z.mul_le_mono_nonneg_r; lia).
    lia. }
  assert (Hturn : category_turn cfg category m c w =
                  page_failed R c (JsError msg) w1).
  { unfold category_turn. rewrite Hall. change (len (@nil value)) with 0.
    fold R. apply try_throw. apply bind_throw. exact Hget. }
  unfold bind at 1. rewrite Hturn. unfold page_failed, bind, lift, message.
  cbn [consecutiveErrors].
  destruct (Z.geb_spec (consecutiveErrors c + 1) R) as [Hceil|Hmore'].
  - (* the ceiling: break *)
    cbn [ret]. eexists _, w1. split; [reflexivity|]. cbn [allProducts].
    assert (j = 0)%nat by lia. subst j.
    split; [exact Hall|]. split; [lia | exact Hup].
  - cbn [sleep ret].
    match goal with |- context [paginate _ _ _ gas ?c1 ?w2] =>
      destruct (IH gas c1 w2) as (c' & w' & Hrest & Hall' & Hserved' & Hup')
    end; try (cbn [allProducts hasMore consecutiveErrors]; first [assumption | lia]).
    + intros i Hlo Hhi. cbn [upstream served] in *. rewrite Hup.
      apply Hwin; [lia|]. lia.
    + cbn [upstream served] in *. exists c', w'. split; [exact Hrest|].
      split; [exact Hall'|]. split; [lia | congruence].
Qed.
End Category.

Lemma trim_to_nil (m : limit) : trim_to m [] = [].
Proof.
unfold trim_to. destruct m as [k|]; [|reflexivity].
destruct (len (@nil value) >? k); [|reflexivity].
unfold slice. rewrite skipn_nil, firstn_nil. reflexivity.
Qed.

Section Isolation.
Variable fuel : nat.
Variable cfg : config.
Variable URL_ok : string -> bool.

Let R := retryAttempts cfg.

(** The count probe answered, every page fetch failed: the category
    yields the empty list, without a throw. *)
Lemma fetchProductsByCategory_gives_up (category : string) (m : limit)
      (counts : value) (w w1 : world) :
  0 <= R -> (Z.to_nat R < fuel)%nat ->
  below 0 m = true ->
  getCategoryCounts R category w = Some (Ok counts, w1) ->
  failing_window w1 (R * (R + 1)) ->
  exists w2,
    fetchProductsByCategory fuel cfg category m w = Some (Ok [], w2) /\
    Z.of_nat (served w2) = Z.of_nat (served w1) + R * (R + 1) /\
    upstream w2 = upstream w1.
Proof.
  intros HR Hfuel Hbelow Hcounts Hwin.
  assert (Hcursor : category_cursor fuel cfg category m w =
                    paginate (category_turn cfg category m) m R fuel start w1).
  { unfold category_cursor. fold R. unfold bind. rewrite Hcounts. reflexivity. }
  unfold fetchProductsByCategory.
  destruct (Z.eq_dec R 0) as [Hzero|Hsome].
  - (* no turn at all *)
    exists w1. split; [|split; [lia | reflexivity]].
    apply try_ok. unfold bind. rewrite Hcursor.
    destruct fuel as [|gas]; [lia|]. cbn [paginate start hasMore consecutiveErrors].
    destruct (Z.ltb_spec 0 R); [lia|]. rewrite andb_false_r.
    unfold ret. cbn [allProducts]. rewrite trim_to_nil. reflexivity.
  - destruct (@paginate_gives_up cfg category m HR Hbelow (Z.to_nat R) fuel start w1)
      as (c' & w2 & Hloop & Hall & Hserved & Hup);
      try (cbn [start allProducts hasMore consecutiveErrors]; fold R;
           first [reflexivity | lia]).
    + replace (Z.of_nat (Z.to_nat R)) with R by lia. exact Hwin.
    + exists w2. split; [|split; [lia | exact Hup]].
      apply try_ok. unfold bind. rewrite Hcursor.
      fold R in Hloop. rewrite Hloop. unfold ret. rewrite Hall, trim_to_nil.
      reflexivity.
Qed.

Variable opts : options.

(** An input that yields nothing is passed over. *)
Lemma collect_skips (fetch : string -> limit -> Comp (list value))
      (input : string) (rest : list string) (acc : list value) (w w2 : world) :
  exhausted (minus (maxProducts opts) (len acc)) = false ->
  fetch input (minus (maxProducts opts) (len acc)) w = Some (Ok [], w2) ->
  collect fuel cfg fetch opts (input :: rest) acc w =
  collect fuel cfg fetch opts rest acc w2.
Proof.
  intros Hleft Hfetch. cbn [collect]. rewrite Hleft.
  rewrite (bind_ok _ _ _ Hfetch). reflexivity.
Qed.
End Isolation.

End FailureFacts.

(* ===================================================================== *)
(** ** What the log shows of the session material *)
(* ===================================================================== *)

Module LogFacts.
Import Js LkqApi GetLkqCookies Spec.



Lemma sanitizedHeaders_map (headers : list (string * string)) :
sanitizedHeaders headers =
map (fun kv =>
       let kv' := if String.eqb (fst kv) "Cookie" && negb (String.eqb (snd kv) "")
                  then (fst kv, hidden "COOKIE" (snd kv)) else kv in
       if String.prefix "XvPW5hYbpt" (fst kv')
       then (fst kv', hidden "TOKEN" (snd kv')) else kv') headers.
Proof. unfold sanitizedHeaders, sanitize_tokens, sanitize_cookie. apply map_map. Qed.




Section Script.
Variable baseUrl userAgent : string.


End Script.

End LogFacts.

(* ===================================================================== *)
(** ** The claims *)
(* ===================================================================== *)

Import Js Sim ScraperUtils LkqApi LkqScraper Spec.
Import CompFacts RetryFacts BatcherFacts PagingFacts PipelineFacts.
Import MapperFacts ScrapeFacts TraceFacts FailureFacts LogFacts.

(** C1.  For every list of inputs and every limit [k] that is not negative,
  [scrape] returns at most [k] records: whatever it returns is within the
  limit, and with a sane configuration (a retry ceiling that is not
  negative, a positive group size when details are fetched, no empty
  preset URL) and enough fuel it does return.  Each input is collected
  within what is left of the limit, and once nothing is left no further
  input is issued. *)
Theorem scrape_at_most_maxProducts :
forall (fuel : nat) (cfg : config) (URL_ok : string -> bool)
       (JSON_parse : string -> option value)
       (categoryList : list string) (opts : options) (k : Z) (w : world),
  maxProducts opts = Finite k -> 0 <= k ->
  (forall records w',
      scrape fuel cfg URL_ok JSON_parse categoryList opts w = Some (Ok records, w') ->
      len records <= k) /\
  (0 <= retryAttempts cfg ->
   (fetchDetails opts = true -> 0 < parallelRequests cfg) ->
   presets_ok cfg opts ->
   (enough cfg k <= fuel)%nat ->
   exists records w',
     scrape fuel cfg URL_ok JSON_parse categoryList opts w = Some (Ok records, w') /\
     len records <= k) /\
  (forall input (acc : list value) products w1 w2,
      len acc <= k ->
      fetch_input fuel cfg URL_ok input (minus (Finite k) (len acc)) w1
      = Some (Ok products, w2) ->
      len acc + len products <= k) /\
  (forall fetch inputs acc w1,
      k <= len acc ->
      collect fuel cfg fetch opts inputs acc w1 = Some (Ok acc, w1)).
Proof.
intros fuel cfg URL_ok JSON_parse categoryList opts k w Hmax Hk.
split; [|split; [|split]].
- intros records w' Hrun. eapply scrape_bound; eauto.
- intros HR Hsize Hpresets Hfuel.
  destruct (@scrape_safe fuel cfg URL_ok JSON_parse opts categoryList k
              HR Hsize Hpresets Hmax Hfuel w) as (records & w' & Hrun).
  exists records, w'. split; [exact Hrun|]. eapply scrape_bound; eauto.
- intros input acc products w1 w2 Hacc Hrun. cbn [minus] in Hrun.
  apply fetch_input_bound in Hrun; lia.
- intros fetch inputs acc w1 Hfull. destruct inputs as [|input rest]; [reflexivity|].
  cbn [collect]. rewrite Hmax. cbn [minus exhausted].
  destruct (Z.leb_spec (k - len acc) 0); [reflexivity | lia].
Qed.

Lemma scrape_at_most_maxProducts_witness :
exists records w',
  scrape 20 small_config any_url no_json ["Engine Compartment|Alternator"; alternator_url]
         (limited 1) (scripted [] (page_of 2)) = Some (Ok records, w') /\
  len records <= 1.
Proof.
destruct (@scrape_at_most_maxProducts 20 small_config any_url no_json
            ["Engine Compartment|Alternator"; alternator_url] (limited 1) 1
            (scripted [] (page_of 2)) eq_refl ltac:(lia)) as (_ & Hreturns & _).
apply Hreturns.
- cbn. lia.
- intros _. cbn. lia.
- intros Hpreset. discriminate Hpreset.
- vm_compute. lia.
Defined.

(** C2, as the code has it.  [retry(fn, maxRetries)] starts [fn] up to
  [maxRetries + 1] times.  When [fn] throws an [Error] [k] times,
  [k <= maxRetries], and then returns, [retry] returns that value after
  [k + 1] attempts and [k] backoff delays.  When [fn] throws
  [maxRetries + 1] times in a row, [retry] throws the last error as it is,
  after [maxRetries + 1] attempts and [maxRetries] delays. *)
Theorem retry_contract :
forall (A : Type) (fn : Comp A) (maxRetries : Z),
  (forall (k : nat) (w wk wf : world) (v : A),
      failing_run fn k w wk ->
      fn wk = Some (Ok v, wf) ->
      Z.of_nat k <= maxRetries ->
      retry_tally fn maxRetries w
      = Some (Ok v, wf, {| attempts := S k; backoffs := k |}) /\
      retry fn maxRetries w = Some (Ok v, wf)) /\
  (forall (n : nat) (w wn wf : world) (e : exn),
      failing_run fn n w wn ->
      fn wn = Some (Throw e, wf) ->
      Z.of_nat n = maxRetries ->
      retry_tally fn maxRetries w
      = Some (Throw e, wf, {| attempts := S n; backoffs := n |}) /\
      retry fn maxRetries w = Some (Throw e, wf)).
Proof.
intros A fn maxRetries. split.
- intros k w wk wf v Hrun Hok Hle.
  pose proof (@retry_succeeds_after A fn maxRetries k w wk wf v Hrun Hok Hle) as Htally.
  split; [exact Htally|]. unfold retry. rewrite Htally. reflexivity.
- intros n w wn wf e Hrun Hfail Hn.
  pose proof (@retry_exhausts A fn maxRetries n w wn wf e Hrun Hfail Hn) as Htally.
  split; [exact Htally|]. unfold retry. rewrite Htally. reflexivity.
Qed.

Lemma retry_contract_witness :
exists wf,
  retry_tally (makeApiRequest (GetCategoryCounts "Alternator")) 3
              (scripted [Fails "ETIMEDOUT"; Fails "ECONNRESET"] (Returns (VNum 7)))
  = Some (Ok (VNum 7), wf, {| attempts := 3; backoffs := 2 |}).
Proof.
eexists.
refine (proj1 (proj1 (@retry_contract value (makeApiRequest (GetCategoryCounts "Alternator")) 3)
                     2%nat _ _ _ (VNum 7) _ _ _)).
- cbn [failing_run]. eexists _, _. split; [reflexivity|].
  eexists _, _. split; [reflexivity|]. reflexivity.
- reflexivity.
- lia.
Defined.

(** C2, as the claim states it, fails: with [maxRetries = 3] an operation
  that always throws is started four times, not three. *)
Lemma retry_attempts_counterexample :
option_map (fun x => (fst (fst x), attempts (snd x)))
           (retry_tally (makeApiRequest (GetCategoryCounts "Alternator")) 3
                        (scripted [] (Fails "ETIMEDOUT")))
= Some (Throw (JsError "ETIMEDOUT"), 4%nat) /\
4%nat <> Z.to_nat 3.
Proof. split; [reflexivity | cbn; lia]. Qed.

(** C3, as the code has it.  In every run of either entry point the page
  requests start at skip 0; a request answered by a well-formed page with
  items is followed by a request at skip + take, with a take of at least
  1 (for the category loop: when the batch size is at least 1); a request
  that failed, or was answered by an empty or malformed page, is followed
  by a request at the same skip, if by any. *)
Theorem page_requests_are_contiguous :
forall (fuel : nat) (cfg : config) (URL_ok : string -> bool)
       (input : string) (m : limit) (w : world),
  (1 <= batchSize cfg ->
   match fetchProductsByCategory fuel cfg input m w with
   | Some (_, w') => exists new, trace w' = (trace w ++ new)%list /\ paged 0 1 new
   | None => True
   end) /\
  match fetchProductsByUrl fuel URL_ok input m w with
  | Some (_, w') => exists new, trace w' = (trace w ++ new)%list /\ paged 0 1 new
  | None => True
  end.
Proof.
intros fuel cfg URL_ok input m w. split.
- intros Hb.
  destruct (fetchProductsByCategory fuel cfg input m w) as [[r w']|] eqn:Hrun; [|exact I].
  eapply fetchProductsByCategory_paged; eauto.
- destruct (fetchProductsByUrl fuel URL_ok input m w) as [[r w']|] eqn:Hrun; [|exact I].
  eapply fetchProductsByUrl_paged; eauto.
Qed.

Lemma page_requests_are_contiguous_witness :
match fetchProductsByCategory 10 small_config "Engine Compartment|Alternator" Infinity
        (scripted [page_of 1; page_of 50; Fails "ETIMEDOUT"; page_of 12] (page_of 0)) with
| Some (_, w') =>
    exists new, trace w' = (trace (scripted [page_of 1; page_of 50; Fails "ETIMEDOUT";
                                             page_of 12] (page_of 0)) ++ new)%list /\
                paged 0 1 new
| None => True
end.
Proof.
apply (proj1 (@page_requests_are_contiguous 10 small_config any_url
                "Engine Compartment|Alternator" Infinity
                (scripted [page_of 1; page_of 50; Fails "ETIMEDOUT"; page_of 12] (page_of 0)))).
cbn. lia.
Defined.

(** C3, as the claim states it, fails: after a failed page the same skip is
  requested again. *)
Lemma same_skip_twice_counterexample :
products_summary
  (fetchProductsByUrl 10 any_url alternator_url Infinity
                      (scripted [Fails "ETIMEDOUT"; page_of 50; page_of 12] (page_of 0)))
= Some (62, [0; 0; 50]) /\
~ NoDup [0; 0; 50].
Proof.
split; [vm_compute; reflexivity|].
intros H. inversion H as [|x l Hnotin _]; subst. apply Hnotin. left. reflexivity.
Qed.

(** C4.  Without a total count in the response [hasMore] is whether the
  page has as many items as were asked for; pages of 50, 50 and 12 items,
  asked for 50 at a time, end the loop with [hasMore = false] after the
  third request and 112 products, through either entry point. *)
Theorem heuristic_continuation :
forall (response : value) (products : list value) (sk window requested : Z),
  truthy response = true ->
  truthy (field response "count") = false ->
  more_after response products sk window requested = (len products =? requested) /\
  cursor_summary
    (url_cursor 10 any_url alternator_url Infinity
                (scripted [page_of 50; page_of 50; page_of 12] (page_of 0)))
  = Some (false, 112, [0; 50; 100]) /\
  products_summary
    (fetchProductsByUrl 10 any_url alternator_url Infinity
                        (scripted [page_of 50; page_of 50; page_of 12] (page_of 0)))
  = Some (112, [0; 50; 100]) /\
  products_summary
    (fetchProductsByCategory 10 small_config "Engine Compartment|Alternator" Infinity
                             (scripted [page_of 1; page_of 50; page_of 50; page_of 12]
                                       (page_of 0)))
  = Some (112, [0; 50; 100]).
Proof.
intros response products sk window requested Hresponse Hcount.
split; [|split; [|split]]; try (vm_compute; reflexivity).
unfold more_after. unfold field in Hcount.
destruct (get response "count") as [count|e] eqn:Hget.
- rewrite Hcount. reflexivity.
- destruct response; cbn in Hresponse, Hget; try discriminate;
    repeat match type of Hget with
           | context [if ?b then _ else _] => destruct b
           end; discriminate.
Qed.

Lemma heuristic_continuation_witness :
more_after (VObj [("data", VArr (repeat (item 1) 12))]) (repeat (item 1) 12) 100 50 50
= false.
Proof.
exact (proj1 (@heuristic_continuation (VObj [("data", VArr (repeat (item 1) 12))])
                (repeat (item 1) 12) 100 50 50 eq_refl eq_refl)).
Defined.

(** C5.  When the count probe of an input category is answered and every
  page fetch of it then fails, up to the ceiling of consecutive errors,
  [fetchProductsByCategory] returns the empty list instead of throwing,
  after [R * (R + 1)] failed calls, and the loop over the inputs goes on
  with the next input exactly as if this one had not been there.  No
  exhausted category makes [scrape] throw: with a retry ceiling that is
  not negative and no empty preset URL, [scrape] never ends by a throw. *)
Theorem exhausted_category_is_isolated :
forall (fuel : nat) (cfg : config) (URL_ok : string -> bool) (opts : options)
       (category : string) (rest : list string) (acc : list value)
       (counts : value) (w w1 : world),
  0 <= retryAttempts cfg ->
  (Z.to_nat (retryAttempts cfg) < fuel)%nat ->
  String.prefix "http" category = false ->
  exhausted (minus (maxProducts opts) (len acc)) = false ->
  getCategoryCounts (retryAttempts cfg) category w = Some (Ok counts, w1) ->
  failing_window w1 (retryAttempts cfg * (retryAttempts cfg + 1)) ->
  (exists w2,
      fetchProductsByCategory fuel cfg category (minus (maxProducts opts) (len acc)) w
      = Some (Ok [], w2) /\
      Z.of_nat (served w2)
      = Z.of_nat (served w1) + retryAttempts cfg * (retryAttempts cfg + 1) /\
      upstream w2 = upstream w1 /\
      collect fuel cfg (fetch_input fuel cfg URL_ok) opts (category :: rest) acc w
      = collect fuel cfg (fetch_input fuel cfg URL_ok) opts rest acc w2) /\
  (forall JSON_parse categoryList w0 r w',
      presets_ok cfg opts ->
      scrape fuel cfg URL_ok JSON_parse categoryList opts w0 = Some (r, w') ->
      exists records, r = Ok records).
Proof.
intros fuel cfg URL_ok opts category rest acc counts w w1
       HR Hfuel Hcat Hleft Hcounts Hwin.
split.
- assert (Hbelow : below 0 (minus (maxProducts opts) (len acc)) = true).
  { destruct (maxProducts opts) as [k|]; cbn in *; [|reflexivity].
    destruct (Z.leb_spec (k - len acc) 0); [discriminate|]. apply Z.ltb_lt. lia. }
  destruct (@fetchProductsByCategory_gives_up fuel cfg category _ counts w w1
              HR Hfuel Hbelow Hcounts Hwin) as (w2 & Hfetch & Hserved & Hup).
  exists w2. repeat split; try assumption.
  apply collect_skips; [exact Hleft|].
  unfold fetch_input. rewrite Hcat. exact Hfetch.
- intros JSON_parse categoryList w0 r w' Hpresets Hrun.
  eapply scrape_quiet; eauto.
Qed.

Lemma exhausted_category_is_isolated_witness :
exists w2,
  fetchProductsByCategory 5 impatient_config "Engine Compartment|Alternator"
                          (minus (Finite 5) 0) one_bad_category
  = Some (Ok [], w2) /\
  collect 5 impatient_config (fetch_input 5 impatient_config any_url) (plain 5)
          ["Engine Compartment|Alternator"; "Engine Compartment|Battery"] []
          one_bad_category
  = collect 5 impatient_config (fetch_input 5 impatient_config any_url) (plain 5)
            ["Engine Compartment|Battery"] [] w2.
Proof.
destruct (@exhausted_category_is_isolated 5 impatient_config any_url (plain 5)
            "Engine Compartment|Alternator" ["Engine Compartment|Battery"] []
            (VObj [("totalCount", VNum 0);
                   ("category", VStr "Engine Compartment|Alternator");
                   ("rawResponse", VObj [("data", VArr [item 1])])])
            one_bad_category
            {| upstream := upstream one_bad_category; served := 1;
               trace := [Issued (GetCategoryCounts "Engine Compartment|Alternator")
                                (page_of 1)] |})
  as ((w2 & Hfetch & _ & _ & Hcollect) & _).
- cbn. lia.
- cbn. lia.
- reflexivity.
- reflexivity.
- reflexivity.
- intros i Hlo Hhi. cbn in Hlo, Hhi.
  assert (Hi : i = 1%nat \/ i = 2%nat) by lia.
  destruct Hi as [-> | ->]; eexists; reflexivity.
- exists w2. split; [exact Hfetch | exact Hcollect].
Defined.




(** C7.  [mapProductToPart] of mapper.js never throws; it returns [null]
  exactly for an empty (falsy) product.  When the mapping of any other
  product throws, the result is the minimal part: an identifier and a
  name that are not empty, the source [lkq], and the message of the error
  under [otherParams.mappingError].  [mapProducts] keeps the parts that
  are not [null]. *)
Theorem mapper_null_iff_empty :
forall (JSON_parse : string -> option value) (product : value),
  (exists part,
      Mapper.mapProductToPart JSON_parse product = Ok part /\
      (part = VNull <-> truthy product = false)) /\
  (forall error,
      truthy product = true ->
      Mapper.build_part JSON_parse product = Throw error ->
      exists m part,
        error = JsError m /\
        Mapper.mapProductToPart JSON_parse product = Ok part /\
        truthy (field part "partNumber") = true /\
        truthy (field part "name") = true /\
        field part "source" = VStr "lkq" /\
        field (field part "otherParams") "mappingError" = VStr m) /\
  (forall products,
      exists records,
        mapProducts JSON_parse products = Ok records /\
        records = filter truthy (map (mapped JSON_parse) products) /\
        ~ In VNull records).
Proof.
intros JSON_parse product. split; [|split].
- destruct (mapProductToPart_cases JSON_parse product)
    as [(Hfalsy & Hrun)|(Htruthy & fields & Hrun)].
  + exists VNull. split; [exact Hrun|]. split; auto.
  + exists (VObj fields). split; [exact Hrun|]. split; [discriminate | congruence].
- intros error Htruthy Hbuild.
  pose proof (polite_build_part JSON_parse product) as Hpolite.
  rewrite Hbuild in Hpolite. destruct error as [m|]; [|congruence].
  exists m. eexists. split; [reflexivity|].
  unfold Mapper.mapProductToPart. rewrite Htruthy, Hbuild. cbn [negb].
  unfold Mapper.minimal_part. cbn [message MapperCommon.obind].
  split; [reflexivity|].
  unfold field. cbn [get lookup String.eqb Ascii.eqb Bool.eqb].
  repeat split; apply or_default; reflexivity.
- intros products. eexists. split; [apply mapProducts_eq|]. split; [reflexivity|].
  intros Hin. apply filter_In in Hin. destruct Hin as (_ & Habs). discriminate.
Qed.

Lemma mapper_null_iff_empty_witness :
exists m part,
  JsError "map is not a function" = JsError m /\
  Mapper.mapProductToPart no_json broken_product = Ok part /\
  truthy (field part "partNumber") = true /\
  truthy (field part "name") = true /\
  field part "source" = VStr "lkq" /\
  field (field part "otherParams") "mappingError" = VStr m.
Proof.
apply (proj1 (proj2 (@mapper_null_iff_empty no_json broken_product))).
- reflexivity.
- reflexivity.
Defined.

(** C8.  The two mappers differ on the year of a compatibility entry: for
  a fitment whose year is the text 2015, mapper.js keeps the text and the
  mapper text in index.js returns the number 2015, entry by entry and in
  the part as a whole. *)
Theorem year_representation_differs :
forall (JSON_parse : string -> option value) (text : string),
  text <> "" ->
  JSON_parse text = Some fitments_2015 ->
  result_years (Mapper.mapProductToPart JSON_parse (VObj [("fitmentJson", VStr text)]))
  = Some [VStr "2015"] /\
  result_years (IndexMapper.mapProductToPart JSON_parse (VObj [("fitmentJson", VStr text)]))
  = Some [VNum 2015] /\
  (exists fitment,
      result_years (MapperCommon.obind (Mapper.compatibility_entry fitment)
                                       (fun entry => Ok (VObj [("compatibility", VArr [entry])])))
      = Some [field fitment "SystemYear"] /\
      result_years (MapperCommon.obind (IndexMapper.compatibility_entry fitment)
                                       (fun entry => Ok (VObj [("compatibility", VArr [entry])])))
      = Some [VNum 2015] /\
      field fitment "SystemYear" = VStr "2015").
Proof.
intros JSON_parse text Htext Hparse.
destruct text as [|c rest]; [congruence|].
split; [|split].
- unfold Mapper.mapProductToPart, Mapper.build_part.
  cbn [truthy negb String.eqb get lookup Ascii.eqb Bool.eqb MapperCommon.obind
       MapperCommon.parsed_or].
  rewrite Hparse. reflexivity.
- unfold IndexMapper.mapProductToPart, IndexMapper.build_part.
  cbn [truthy negb String.eqb get lookup Ascii.eqb Bool.eqb MapperCommon.obind
       MapperCommon.parsed_or].
  rewrite Hparse. reflexivity.
- exists (VObj [("SystemMake", VStr "Honda"); ("SystemModel", VStr "Civic");
                ("SystemYear", VStr "2015")]).
  repeat split.
Qed.

Lemma year_representation_differs_witness :
result_years (Mapper.mapProductToPart parse_fitments
                (VObj [("fitmentJson", VStr fitment_text)]))
= Some [VStr "2015"] /\
result_years (IndexMapper.mapProductToPart parse_fitments
                (VObj [("fitmentJson", VStr fitment_text)]))
= Some [VNum 2015].
Proof.
destruct (@year_representation_differs parse_fitments fitment_text) as (Ha & Hb & _).
- discriminate.
- reflexivity.
- split; [exact Ha | exact Hb].
Defined.




(** C10.  The batcher keeps the order: whenever it returns, the output at
  each position is the enrichment of the product at that position, and
  the two lists end together; with a retry ceiling that is not negative
  and a group size of at least 1 it does return. *)
Theorem batcher_keeps_order :
forall (fuel : nat) (cfg : config) (products : list value) (w : world),
  (forall outs w',
      fetchProductDetails fuel cfg products w = Some (Ok outs, w') ->
      forall i,
        match nth_error products i, nth_error outs i with
        | Some product, Some out => enriched (retryAttempts cfg) product out
        | None, None => True
        | _, _ => False
        end) /\
  (0 <= retryAttempts cfg -> 0 < parallelRequests cfg ->
   (List.length products < fuel)%nat ->
   exists outs w', fetchProductDetails fuel cfg products w = Some (Ok outs, w')).
Proof.
intros fuel cfg products w. split.
- intros outs w' Hrun. apply Forall2_nth.
  eapply fetchProductDetails_Forall2. exact Hrun.
- intros HR Hsize Hfuel. apply fetchProductDetails_safe; assumption.
Qed.

Lemma batcher_keeps_order_witness :
exists outs w',
  fetchProductDetails 10 small_config [item 1; item 2; item 3]
                      (scripted [] (Returns (VObj [("vin", VStr "1HG")])))
  = Some (Ok outs, w').
Proof.
apply (proj2 (@batcher_keeps_order 10 small_config [item 1; item 2; item 3]
                (scripted [] (Returns (VObj [("vin", VStr "1HG")]))))).
- cbn. lia.
- cbn. lia.
- cbn. lia.
Defined.

(* ===================================================================== *)
(** ** Further properties of utils/scraper-utils.js *)
(* ===================================================================== *)

Module UtilsMore.
Import Js Sim ScraperUtils LkqScraper Spec Props.
Import CompFacts RetryFacts BatcherFacts.

Section ChunkShape.
Variable A : Type.
Variable array : list A.
Variable size : Z.
Hypothesis size_pos : 0 < size.

Lemma window_length (i : Z) :
  0 <= i < len array ->
  len (slice array i (i + size)) = Z.min size (len array - i).
Proof.
  intros Hi. rewrite slice_window by (auto; lia). unfold len in *.
  rewrite length_firstn, length_skipn. lia.
Qed.

(** What the loop of [chunk] adds from index [i] on. *)
Lemma chunk_loop_shape :
  forall (fuel : nat) (i : Z) (chunks out : list (list A)),
    0 <= i ->
    chunk_loop fuel array size i chunks = Some out ->
    exists rest,
      out = (chunks ++ rest)%list /\
      Forall (fun b => 1 <= len b <= size) rest /\
      (forall j, (S j < List.length rest)%nat -> len (nth j rest []) = size) /\
      len rest = (Z.max 0 (len array - i) + size - 1) / size.
Proof.
  induction fuel as [|fuel IH]; intros i chunks out Hi Hrun; [discriminate|].
  cbn [chunk_loop] in Hrun. fold (len array) in Hrun.
  destruct (Z.ltb_spec i (len array)) as [Hlt|Hge].
  - apply IH in Hrun; [|lia].
    destruct Hrun as (rest & -> & Hall & Hfull & Hcount).
    exists (slice array i (i + size) :: rest).
    pose proof (@window_length i ltac:(lia)) as Hw.
    split; [rewrite <- app_assoc; reflexivity|].
    split; [constructor; [lia | exact Hall]|].
    split.
    + intros [|j] Hj; cbn [nth].
      * destruct rest as [|b rest']; [cbn in Hj; lia|].
        (* a further chunk exists, so this one is full *)
        assert (Hmore : 0 < len (b :: rest')) by (unfold len; cbn; lia).
        rewrite Hcount in Hmore.
        destruct (Z_lt_le_dec (len array - i) (size + 1)) as [Hshort|Hlong]; [|lia].
        exfalso.
        assert (Hz : (Z.max 0 (len array - (i + size)) + size - 1) / size = 0).
        { apply Z.div_small. lia. }
        lia.
      * apply Hfull. cbn in Hj. lia.
    + unfold len at 1. cbn [List.length]. rewrite Nat2Z.inj_succ.
      fold (len rest). rewrite Hcount.
      destruct (Z_lt_le_dec (len array - i) size) as [Hshort|Hlong].
      * replace (Z.max 0 (len array - (i + size)) + size - 1) with (size - 1) by lia.
        rewrite Z.div_small by lia.
        apply Z.div_unique with (r := len array - i - 1); lia.
      * replace (Z.max 0 (len array - i) + size - 1)
          with ((Z.max 0 (len array - (i + size)) + size - 1) + 1 * size) by lia.
        rewrite Z.div_add by lia. lia.
  - inversion Hrun; subst. exists []. rewrite app_nil_r.
    split; [reflexivity|]. split; [constructor|].
    split; [intros j Hj; cbn in Hj; lia|].
    replace (Z.max 0 (len array - i)) with 0 by lia.
    rewrite Z.div_small by lia. reflexivity.
Qed.
End ChunkShape.

Section RetryBounds.
Variable A : Type.
Variable fn : Comp A.
Variable maxRetries : Z.

(** The counters of the loop of [retry], whatever [fn] does. *)
Lemma retry_loop_counts :
  forall (fuel : nat) (retries : Z) (lastError : exn) (t t' : tally)
         (w w' : world) (r : outcome A),
    0 <= retries ->
    retry_loop fn maxRetries fuel retries lastError t w = Some (r, w', t') ->
    exists j : nat,
      attempts t' = (attempts t + j)%nat /\
      backoffs t' = (backoffs t + Nat.pred j)%nat /\
      Z.of_nat j <= Z.max 0 (maxRetries + 1 - retries) /\
      (retries <= maxRetries -> (1 <= j)%nat).
Proof.
  induction fuel as [|fuel IH]; intros retries lastError t t' w w' r Hpos Hrun;
    [discriminate|].
  cbn [retry_loop] in Hrun.
  destruct (Z.leb_spec retries maxRetries) as [Hle|Hgt].
  - destruct (fn w) as [[[v|error] w1]|] eqn:Hfn; [| |discriminate].
    + inversion Hrun; subst. exists 1%nat. cbn. repeat split; lia.
    + destruct (Z.gtb_spec (retries + 1) maxRetries) as [Hlast|Hmore].
      * inversion Hrun; subst. exists 1%nat. cbn. repeat split; lia.
      * destruct (message error) as [m|e'].
        -- cbn [sleep] in Hrun. apply IH in Hrun; [|lia].
           destruct Hrun as (j & Ha & Hb & Hj & Hone). cbn in Ha, Hb.
           specialize (Hone ltac:(lia)).
           exists (S j). repeat split; try lia.
        -- inversion Hrun; subst. exists 1%nat. cbn. repeat split; lia.
  - inversion Hrun; subst. exists 0%nat. cbn. repeat split; lia.
Qed.
End RetryBounds.

End UtilsMore.

Import Js Sim ScraperUtils LkqApi LkqScraper Spec Props.
Import CompFacts RetryFacts BatcherFacts PagingFacts PipelineFacts.
Import MapperFacts ScrapeFacts TraceFacts FailureFacts LogFacts.
Import UtilsMore.

(** X1.  For a size of at least 1, [chunk] returns for every array, and
  what it returns is a partition of the array into consecutive groups:
  the groups concatenated give the array back, no group is empty or
  longer than [size], every group but the last has exactly [size]
  elements, and there are ceil(length / size) groups. *)
Theorem chunk_partitions :
forall (A : Type) (array : list A) (size : Z) (fuel : nat),
  0 < size ->
  (List.length array < fuel)%nat ->
  exists batches,
    chunk fuel array size = Some batches /\
    List.concat batches = array /\
    Forall (fun b => 1 <= len b <= size) batches /\
    (forall j, (S j < List.length batches)%nat -> len (nth j batches []) = size) /\
    len batches = (len array + size - 1) / size.
Proof.
intros A array size fuel Hsize Hfuel.
destruct (@chunk_ends A array size fuel Hsize Hfuel) as (batches & Hrun).
exists batches. split; [exact Hrun|].
unfold chunk in Hrun.
pose proof (@chunk_loop_concat A array size Hsize fuel 0 [] batches ltac:(lia) Hrun)
  as (rest1 & Hout1 & Hcat).
pose proof (@chunk_loop_shape A array size Hsize fuel 0 [] batches ltac:(lia) Hrun)
  as (rest & Hout & Hall & Hfull & Hcount).
cbn [app] in Hout, Hout1. subst rest1 rest.
split; [exact Hcat|]. split; [exact Hall|]. split; [exact Hfull|].
rewrite Hcount. f_equal. unfold len. lia.
Qed.

Lemma chunk_partitions_witness :
exists batches,
  chunk 6 [1; 2; 3; 4; 5] 2 = Some batches /\
  List.concat batches = [1; 2; 3; 4; 5] /\
  Forall (fun b => 1 <= len b <= 2) batches /\
  (forall j, (S j < List.length batches)%nat -> len (nth j batches []) = 2) /\
  len batches = (len [1; 2; 3; 4; 5] + 2 - 1) / 2.
Proof.
apply (@chunk_partitions Z [1; 2; 3; 4; 5] 2 6).
- lia.
- cbn. lia.
Defined.

(** X2.  The edges of [chunk]: the empty array gives no group whatever the
  size is, and for a size of zero or less the loop never ends on an array
  that has an element. *)
Theorem chunk_edges :
forall (A : Type) (size : Z),
  (forall fuel : nat, chunk (S fuel) (@nil A) size = Some []) /\
  (size <= 0 ->
   forall (array : list A) (fuel : nat), array <> [] -> chunk fuel array size = None).
Proof.
intros A size. split.
- intros fuel. reflexivity.
- intros Hsize array fuel Hne. unfold chunk.
  apply chunk_loop_diverges; [exact Hsize|].
  destruct array; [congruence | unfold len; cbn; lia].
Qed.

Lemma chunk_edges_witness :
chunk 1 (@nil Z) 0 = Some [] /\ chunk 9 [1; 2] 0 = None.
Proof.
destruct (chunk_edges Z 0) as [Hempty Hloop].
split; [apply Hempty | apply Hloop; [lia | discriminate]].
Defined.

(** X3.  Whatever the operation does and however [retry] ends, the
  operation was started at most [maxRetries + 1] times, the backoff timer
  ran exactly once between two attempts and never after the last one, and
  with a ceiling that is not negative the operation was started at least
  once; with a negative ceiling it is never started and [retry] throws
  [undefined] at once. *)
Theorem retry_attempts_bounded :
forall (A : Type) (fn : Comp A) (maxRetries : Z) (w w' : world)
       (r : outcome A) (t : tally),
  retry_tally fn maxRetries w = Some (r, w', t) ->
  Z.of_nat (attempts t) <= Z.max 0 (maxRetries + 1) /\
  backoffs t = Nat.pred (attempts t) /\
  (0 <= maxRetries -> (1 <= attempts t)%nat) /\
  (maxRetries < 0 -> attempts t = 0%nat /\ r = Throw JsUndefined /\ w' = w).
Proof.
intros A fn maxRetries w w' r t Hrun.
pose proof Hrun as Hcount. unfold retry_tally in Hcount.
apply retry_loop_counts in Hcount; [|lia].
destruct Hcount as (j & Ha & Hb & Hj & Hone). cbn in Ha, Hb.
rewrite Ha, Hb. split; [lia|]. split; [reflexivity|].
split; [intros; apply Hone; lia|].
intros Hneg. rewrite (@retry_negative A fn maxRetries w Hneg) in Hrun.
inversion Hrun; subst. auto.
Qed.

Lemma retry_attempts_bounded_witness :
Z.of_nat (attempts {| attempts := 2; backoffs := 1 |}) <= Z.max 0 (3 + 1) /\
backoffs {| attempts := 2; backoffs := 1 |} =
Nat.pred (attempts {| attempts := 2; backoffs := 1 |}) /\
(0 <= 3 -> (1 <= attempts {| attempts := 2; backoffs := 1 |})%nat) /\
(3 < 0 -> attempts {| attempts := 2; backoffs := 1 |} = 0%nat /\
          Ok (VNum 7) = Throw JsUndefined /\
          {| upstream := upstream (scripted [Fails "ECONNRESET"] (Returns (VNum 7)));
             served := 2;
             trace := [Issued (GetProductDetails (VNum 1)) (Fails "ECONNRESET");
                       Slept RetryBackoff;
                       Issued (GetProductDetails (VNum 1)) (Returns (VNum 7))] |}
          = scripted [Fails "ECONNRESET"] (Returns (VNum 7))).
Proof.
apply (@retry_attempts_bounded value (makeApiRequest (GetProductDetails (VNum 1))) 3
         (scripted [Fails "ECONNRESET"] (Returns (VNum 7)))).
reflexivity.
Defined.

(* ===================================================================== *)
(** ** What a run asks of the upstream *)
(* ===================================================================== *)

Module BudgetFacts.
Import Js Sim ScraperUtils LkqApi LkqScraper Spec Props.
Import CompFacts RetryFacts BatcherFacts TraceFacts.

Lemma spends_ret {A} (a : A) : spends 0 (ret a).
Proof. intros w r w' H. inversion H; subst. repeat split; lia. Qed.

Lemma spends_throw {A} (e : exn) : spends 0 (@throw A e).
Proof. intros w r w' H. inversion H; subst. repeat split; lia. Qed.

Lemma spends_lift {A} (o : outcome A) : spends 0 (lift o).
Proof. intros w r w' H. inversion H; subst. repeat split; lia. Qed.

Lemma spends_sleep (p : pause) : spends 0 (sleep p).
Proof. intros w r w' H. inversion H; subst. cbn. repeat split; lia. Qed.

Lemma spends_out_of_fuel {A} (n : nat) : spends n (@out_of_fuel A).
Proof. intros w r w' H. discriminate. Qed.

Lemma spends_makeApiRequest (r : request) : spends 1 (makeApiRequest r).
Proof.
intros w o w' H. unfold makeApiRequest in H.
destruct (upstream w (served w)); inversion H; subst; cbn; repeat split; lia.
Qed.

Lemma spends_weaken {A} (n m : nat) (c : Comp A) :
(n <= m)%nat -> spends n c -> spends m c.
Proof.
intros Hle Hc w r w' H. destruct (Hc _ _ _ H) as (Hu & Hlo & Hhi).
repeat split; [exact Hu | lia | lia].
Qed.

Lemma spends_bind {A B} (n m : nat) (c : Comp A) (k : A -> Comp B) :
spends n c -> (forall a, spends m (k a)) -> spends (n + m) (bind c k).
Proof.
intros Hc Hk w r w' H. apply bind_inv in H.
destruct H as [(e & Hrun & _)|(a & w1 & Hrun & Hrest)].
- destruct (Hc _ _ _ Hrun) as (Hu & Hlo & Hhi). repeat split; [exact Hu | lia | lia].
- destruct (Hc _ _ _ Hrun) as (Hu & Hlo & Hhi).
  destruct (Hk _ _ _ _ Hrest) as (Hu' & Hlo' & Hhi').
  repeat split; [congruence | lia | lia].
Qed.

Lemma spends_try {A} (n m : nat) (c : Comp A) (h : exn -> Comp A) :
spends n c -> (forall e, spends m (h e)) -> spends (n + m) (try_catch c h).
Proof.
intros Hc Hh w r w' H. apply try_catch_inv in H.
destruct H as [(a & Hrun & _)|(e & w1 & Hrun & Hrest)].
- destruct (Hc _ _ _ Hrun) as (Hu & Hlo & Hhi). repeat split; [exact Hu | lia | lia].
- destruct (Hc _ _ _ Hrun) as (Hu & Hlo & Hhi).
  destruct (Hh _ _ _ _ Hrest) as (Hu' & Hlo' & Hhi').
  repeat split; [congruence | lia | lia].
Qed.

Lemma spends_if {A} (n : nat) (b : bool) (c1 c2 : Comp A) :
spends n c1 -> spends n c2 -> spends n (if b then c1 else c2).
Proof. destruct b; auto. Qed.

(** The handler that logs the message and goes on with [k]. *)
Lemma spends_logged {A} (n : nat) (k : Comp A) (error : exn) :
spends n k -> spends n (_ <- lift (message error) ;; k).
Proof. intros Hk. apply (@spends_bind _ _ 0 n); [apply spends_lift | intros _; exact Hk]. Qed.

Lemma spends_retry_loop {A} (fn : Comp A) (R : Z) (n : nat) :
spends n fn ->
forall fuel retries lastError t w r w' t',
  0 <= retries ->
  retry_loop fn R fuel retries lastError t w = Some (r, w', t') ->
  upstream w' = upstream w /\
  (served w <= served w')%nat /\
  (served w' <= served w + n * Z.to_nat (R + 1 - retries))%nat.
Proof.
intros Hfn. induction fuel as [|fuel IH]; intros retries lastError t w r w' t' Hpos H.
- discriminate.
- cbn [retry_loop] in H. destruct (Z.leb_spec retries R) as [Hle|Hgt].
  + destruct (fn w) as [[[v|e] w1]|] eqn:Hrun; [| |discriminate].
    * inversion H; subst. destruct (Hfn _ _ _ Hrun) as (Hu & Hlo & Hhi).
      repeat split; [exact Hu | lia | nia].
    * destruct (Hfn _ _ _ Hrun) as (Hu & Hlo & Hhi).
      destruct (Z.gtb_spec (retries + 1) R) as [Hlast|Hmore].
      -- inversion H; subst. repeat split; [exact Hu | lia | nia].
      -- destruct (message e); [|inversion H; subst; repeat split; [exact Hu | lia | nia]].
         cbn [sleep] in H. apply IH in H; [|lia].
         cbn [upstream served] in H. destruct H as (Hu' & Hlo' & Hhi').
         replace (Z.to_nat (R + 1 - retries))
           with (S (Z.to_nat (R + 1 - (retries + 1)))) by lia.
         repeat split; [congruence | lia | nia].
  + inversion H; subst. repeat split; lia.
Qed.

Lemma spends_retry {A} (fn : Comp A) (R : Z) (n : nat) :
spends n fn -> spends (n * tries R) (retry fn R).
Proof.
intros Hfn w r w' H. unfold retry, retry_tally in H.
destruct (retry_loop fn R (retry_fuel R) 0 JsUndefined
                     {| attempts := 0; backoffs := 0 |} w)
  as [[[r1 w1] t1]|] eqn:Hloop; [|discriminate].
cbn in H. inversion H; subst.
eapply spends_retry_loop in Hloop; [|exact Hfn|lia].
unfold tries. replace (R + 1 - 0) with (R + 1) in Hloop by lia. exact Hloop.
Qed.

Lemma spends_getSearchResults (R : Z) (category : string) (sk tk : Z) :
spends (tries R) (getSearchResults R category sk tk).
Proof.
unfold getSearchResults. eapply spends_weaken; [|apply spends_retry].
2: { apply (@spends_bind _ _ 0 1); [apply spends_sleep|].
     intros _. apply spends_makeApiRequest. }
lia.
Qed.

Lemma spends_getProductDetails (R : Z) (productId : value) :
spends (tries R) (getProductDetails R productId).
Proof.
unfold getProductDetails. eapply spends_weaken; [|apply spends_retry].
2: { apply (@spends_bind _ _ 0 1); [apply spends_sleep|].
     intros _. apply spends_makeApiRequest. }
lia.
Qed.

Lemma spends_getCategoryCounts (R : Z) (category : string) :
spends (tries R) (getCategoryCounts R category).
Proof.
unfold getCategoryCounts. eapply spends_weaken; [|apply spends_retry].
2: { apply (@spends_bind _ _ 1 0); [apply spends_makeApiRequest|].
     intros response. apply (@spends_bind _ _ 0 0); [apply spends_lift|].
     intros count. apply spends_ret. }
lia.
Qed.

Lemma spends_connection_test (R : Z) : spends (tries R) (connection_test R).
Proof.
unfold connection_test. eapply spends_weaken; [|apply spends_bind].
2: apply spends_getSearchResults.
2: { intros results. apply (@spends_if _ 0); [apply spends_throw|].
     apply (@spends_bind _ _ 0 0); [apply spends_lift | intros err].
     apply (@spends_if _ 0); [apply spends_throw|].
     apply (@spends_bind _ _ 0 0); [apply spends_lift | intros data].
     apply (@spends_if _ 0); [|apply spends_ret].
     apply (@spends_bind _ _ 0 0); [apply spends_lift | intros _; apply spends_throw]. }
lia.
Qed.

Lemma spends_initializeApi (R : Z) : spends (5 * tries R) (initializeApi R).
Proof.
unfold initializeApi. eapply spends_weaken; [|apply spends_try].
2: { apply spends_bind.
     - apply spends_try.
       + apply (@spends_bind _ _ (tries R) 0); [apply spends_getCategoryCounts|].
         intros _. apply spends_ret.
       + intros e. apply (@spends_logged _ 0). apply spends_ret.
     - intros _. apply (@spends_bind _ _ (tries R * tries 3) 0).
       + apply spends_retry, spends_connection_test.
       + intros _. apply spends_ret. }
2: { intros e. apply (@spends_logged _ 0). apply spends_ret. }
unfold tries. change (Z.to_nat (3 + 1)) with 4%nat. lia.
Qed.

(** Both probes are wrapped: [initializeApi] ends normally for every
  ceiling. *)
Lemma initializeApi_ends (cfg : config) : safe (initializeApi (retryAttempts cfg)).
Proof.
intros w. destruct (Z_lt_le_dec (retryAttempts cfg) 0) as [Hneg|Hpos].
- exists tt, w. unfold initializeApi, getCategoryCounts, try_catch, bind, retry.
  rewrite retry_negative by exact Hneg. reflexivity.
- apply (@ScrapeFacts.initializeApi_safe cfg Hpos w).
Qed.

Lemma initialize_ends (cfg : config) : safe (initialize cfg).
Proof. unfold initialize. apply PipelineFacts.safe_try, initializeApi_ends. Qed.

Section Batcher.
Variable cfg : config.
Let R := retryAttempts cfg.

Lemma spends_with_details (product : value) :
  spends (tries R) (with_details cfg product).
Proof.
  unfold with_details. eapply spends_weaken; [|apply spends_try].
  2: { apply (@spends_bind _ _ 0 (tries R)); [apply spends_lift | intros id].
       apply (@spends_bind _ _ 0 (tries R)); [apply spends_lift | intros pid].
       apply spends_if.
       - eapply spends_weaken; [|apply (@spends_bind _ _ 0 0)];
           [lia | apply spends_lift | intros _; apply spends_ret].
       - eapply spends_weaken; [|apply (@spends_bind _ _ (tries R) 0)];
           [lia | apply spends_getProductDetails | intros details].
         apply spends_if; apply spends_ret. }
  2: { intros e. apply (@spends_logged _ 0). apply spends_ret. }
  lia.
Qed.

Lemma spends_all {X Y} (f : X -> Comp Y) (n : nat) (batch : list X) :
  (forall x, spends n (f x)) -> spends (List.length batch * n) (all f batch).
Proof.
  intros Hf. induction batch as [|x rest IH].
  - apply spends_ret.
  - cbn [all List.length]. eapply spends_weaken; [|apply spends_bind].
    2: apply Hf.
    2: { intros y. apply spends_bind; [exact IH | intros ys; apply spends_ret]. }
    lia.
Qed.

Lemma spends_detail_batches (batches : list (list value)) :
  forall acc,
    spends (List.length (List.concat batches) * tries R)
           (detail_batches cfg batches acc).
Proof.
  induction batches as [|batch rest IH]; intros acc.
  - apply spends_ret.
  - cbn [detail_batches List.concat]. rewrite length_app.
    eapply spends_weaken; [|apply spends_bind].
    2: { apply spends_all. apply spends_with_details. }
    2: { intros res. apply (@spends_bind _ _ 0).
         - destruct rest; [apply spends_ret | apply spends_sleep].
         - intros _. apply IH. }
    lia.
Qed.

Lemma spends_fetchProductDetails (fuel : nat) (products : list value) :
  spends (List.length products * tries R) (fetchProductDetails fuel cfg products).
Proof.
  unfold fetchProductDetails. destruct products as [|p rest];
    [apply spends_ret|].
  destruct (chunk fuel (p :: rest) (parallelRequests cfg)) as [batches|] eqn:Hchunk;
    [|apply spends_out_of_fuel].
  apply chunk_concat in Hchunk; [|discriminate].
  destruct Hchunk as (_ & Hcat). rewrite <- Hcat. apply spends_detail_batches.
Qed.
End Batcher.

(** *** Predicates on the added events that hold of the empty list and
      of concatenations *)

Section Closed.
Variable P : list event -> Prop.
Hypothesis P_nil : P [].
Hypothesis P_app : forall a b, P a -> P b -> P (a ++ b).

Lemma closed_bind {A B} (c : Comp A) (k : A -> Comp B) :
  grows P c -> (forall a, grows P (k a)) -> grows P (bind c k).
Proof.
  intros Hc Hk w r w' H. apply bind_inv in H.
  destruct H as [(e & Hrun & _)|(a & w1 & Hrun & Hrest)].
  - eapply Hc. exact Hrun.
  - destruct (Hc _ _ _ Hrun) as (n1 & E1 & P1).
    destruct (Hk _ _ _ _ Hrest) as (n2 & E2 & P2).
    exists (n1 ++ n2)%list. rewrite E2, E1, app_assoc. auto.
Qed.

Lemma closed_try {A} (c : Comp A) (h : exn -> Comp A) :
  grows P c -> (forall e, grows P (h e)) -> grows P (try_catch c h).
Proof.
  intros Hc Hh w r w' H. apply try_catch_inv in H.
  destruct H as [(a & Hrun & _)|(e & w1 & Hrun & Hrest)].
  - eapply Hc. exact Hrun.
  - destruct (Hc _ _ _ Hrun) as (n1 & E1 & P1).
    destruct (Hh _ _ _ _ Hrest) as (n2 & E2 & P2).
    exists (n1 ++ n2)%list. rewrite E2, E1, app_assoc. auto.
Qed.

Lemma closed_logged {A} (k : Comp A) (error : exn) :
  grows P k -> grows P (_ <- lift (message error) ;; k).
Proof. intros Hk. apply closed_bind; [apply grows_lift, P_nil | intros _; exact Hk]. Qed.

Lemma closed_sleep (p : pause) : P [Slept p] -> grows P (sleep p).
Proof. intros Hp w r w' H. inversion H; subst. exists [Slept p]. auto. Qed.

Lemma closed_request (r : request) :
  (forall a, P [Issued r a]) -> grows P (makeApiRequest r).
Proof.
  intros Hr w o w' H. unfold makeApiRequest in H.
  exists [Issued r (upstream w (served w))]. split; [|apply Hr].
  destruct (upstream w (served w)); inversion H; subst; reflexivity.
Qed.

Lemma closed_retry_loop {A} (fn : Comp A) (R : Z) :
  P [Slept RetryBackoff] ->
  grows P fn ->
  forall fuel retries lastError t w r w' t',
    retry_loop fn R fuel retries lastError t w = Some (r, w', t') ->
    exists new, trace w' = (trace w ++ new)%list /\ P new.
Proof.
  intros Hb Hfn. induction fuel as [|fuel IH]; intros retries lastError t w r w' t' H.
  - discriminate.
  - cbn [retry_loop] in H. destruct (retries <=? R).
    + destruct (fn w) as [[[v|e] w1]|] eqn:Hrun; [| |discriminate].
      * inversion H; subst. eapply Hfn. exact Hrun.
      * destruct (Hfn _ _ _ Hrun) as (n1 & E1 & P1).
        destruct (retries + 1 >? R).
        -- inversion H; subst. eauto.
        -- destruct (message e); [|inversion H; subst; eauto].
           cbn [sleep] in H. apply IH in H. destruct H as (n2 & E2 & P2).
           cbn [trace] in E2.
           exists (n1 ++ [Slept RetryBackoff] ++ n2)%list.
           rewrite E2, E1, <- !app_assoc. auto.
    + inversion H; subst. exists []. rewrite app_nil_r. auto.
Qed.

Lemma closed_retry {A} (fn : Comp A) (R : Z) :
  P [Slept RetryBackoff] -> grows P fn -> grows P (retry fn R).
Proof.
  intros Hb Hfn w r w' H. unfold retry, retry_tally in H.
  destruct (retry_loop fn R (retry_fuel R) 0 JsUndefined
                       {| attempts := 0; backoffs := 0 |} w)
    as [[[r1 w1] t1]|] eqn:Hloop; [|discriminate].
  cbn in H. inversion H; subst. eapply closed_retry_loop; eauto.
Qed.

Lemma closed_all {X Y} (f : X -> Comp Y) (batch : list X) :
  (forall x, In x batch -> grows P (f x)) -> grows P (all f batch).
Proof.
  induction batch as [|x rest IH]; intros Hf.
  - apply grows_ret, P_nil.
  - cbn [all]. apply closed_bind; [apply Hf; left; reflexivity | intros y].
    apply closed_bind; [|intros ys; apply grows_ret, P_nil].
    apply IH. intros x' Hin. apply Hf. right. exact Hin.
Qed.

(** The detail callback adds the timers of one catalog call and requests
    for the id of its product only. *)
Lemma closed_with_details (cfg : config) (product : value) :
  P [Slept RetryBackoff] -> P [Slept HumanDelay] ->
  (forall a, P [Issued (GetProductDetails (product_id product)) a]) ->
  grows P (with_details cfg product).
Proof.
  intros Hb Hd Hreq w r w' H.
  assert (Hcall : grows P (getProductDetails (retryAttempts cfg) (product_id product))).
  { unfold getProductDetails. apply closed_retry; [exact Hb|].
    apply closed_bind; [apply closed_sleep, Hd | intros _].
    apply closed_request. exact Hreq. }
  assert (Hstay : exists new, trace w = (trace w ++ new)%list /\ P new)
    by (exists []; rewrite app_nil_r; auto).
  revert H. unfold with_details, try_catch, bind, lift, ret.
  destruct (get product "id") as [id|e] eqn:Hid.
  - destruct (get_ok_any product "id" "productId" Hid) as (pid & Hpid).
    rewrite Hpid.
    assert (Hsame : or_ id pid = product_id product)
      by (unfold product_id, field; rewrite Hid, Hpid; reflexivity).
    rewrite Hsame.
    destruct (truthy (product_id product)); cbn [negb].
    + destruct (getProductDetails (retryAttempts cfg) (product_id product) w)
        as [[[details|e] w1]|] eqn:Hrun; [| |discriminate].
      * destruct (negb (truthy details)); intros H; inversion H; subst;
          eapply Hcall; exact Hrun.
      * destruct (message e); intros H; inversion H; subst;
          eapply Hcall; exact Hrun.
    + destruct (stringify_prefix product 100) as [text|e];
        [|destruct (message e)]; intros H; inversion H; subst; exact Hstay.
  - destruct (message e); intros H; inversion H; subst; exact Hstay.
Qed.
End Closed.

Lemma group_waits_app (a b : list event) :
group_waits (a ++ b) = (group_waits a + group_waits b)%nat.
Proof.
induction a as [|ev rest IH]; [reflexivity|].
cbn [app group_waits]. destruct ev as [r o|[]]; rewrite IH; reflexivity.
Qed.

Lemma no_group_waits_app (a b : list event) :
group_waits a = 0%nat -> group_waits b = 0%nat -> group_waits (a ++ b) = 0%nat.
Proof. intros Ha Hb. rewrite group_waits_app, Ha, Hb. reflexivity. Qed.

Lemma detail_event_incl (l l' : list value) (new : list event) :
incl l l' -> Forall (detail_event l) new -> Forall (detail_event l') new.
Proof.
intros Hincl. apply Forall_impl. intros [[cat sk tk|url sk tk|cat|pid] a|p]; cbn; auto.
intros (product & Hin & Heq). exists product. split; [apply Hincl, Hin | exact Heq].
Qed.

Section BatcherTrace.
Variable cfg : config.

(** The calls of one group neither wait between groups nor ask for
    anything but the details of the group's products. *)
Lemma all_with_details_trace (batch : list value) :
  grows (fun new => group_waits new = 0%nat /\ Forall (detail_event batch) new)
        (all (with_details cfg) batch).
Proof.
  apply closed_all.
  - split; [reflexivity | constructor].
  - intros a b (Ha & Fa) (Hb & Fb).
    split; [apply no_group_waits_app; assumption | apply Forall_app; auto].
  - intros product Hin. apply closed_with_details.
    + split; [reflexivity | constructor].
    + intros a b (Ha & Fa) (Hb & Fb).
      split; [apply no_group_waits_app; assumption | apply Forall_app; auto].
    + split; [reflexivity | repeat constructor].
    + split; [reflexivity | repeat constructor].
    + intros a. split; [reflexivity|]. constructor; [|constructor].
      exists product. auto.
Qed.

Lemma detail_batches_trace (batches : list (list value)) :
  forall acc w r w',
    detail_batches cfg batches acc w = Some (r, w') ->
    exists new,
      trace w' = (trace w ++ new)%list /\
      Forall (detail_event (List.concat batches)) new /\
      (forall outs, r = Ok outs ->
                    group_waits new = Nat.pred (List.length batches)).
Proof.
  induction batches as [|batch rest IH]; intros acc w r w' H.
  - inversion H; subst. exists []. rewrite app_nil_r.
    split; [reflexivity|]. split; [constructor | reflexivity].
  - cbn [detail_batches List.concat] in H. apply bind_inv in H.
    destruct H as [(e & Hrun & ->)|(res & w1 & Hrun & H)].
    + apply all_with_details_trace in Hrun. destruct Hrun as (n1 & E1 & G1 & F1).
      exists n1. split; [exact E1|]. split; [|discriminate].
      eapply detail_event_incl; [|exact F1]. apply incl_appl, incl_refl.
    + apply all_with_details_trace in Hrun. destruct Hrun as (n1 & E1 & G1 & F1).
      assert (F1' : Forall (detail_event (batch ++ List.concat rest)) n1)
        by (eapply detail_event_incl; [|exact F1]; apply incl_appl, incl_refl).
      apply bind_inv in H.
      destruct H as [(e & Hwait & ->)|(u & w2 & Hwait & H)].
      * exfalso. destruct rest; inversion Hwait.
      * apply IH in H. destruct H as (n3 & E3 & F3 & G3).
        assert (F3' : Forall (detail_event (batch ++ List.concat rest)) n3)
          by (eapply detail_event_incl; [|exact F3]; apply incl_appr, incl_refl).
        destruct rest as [|batch' rest'].
        -- inversion Hwait; subst w2.
           exists (n1 ++ n3)%list. rewrite E3, E1, app_assoc.
           split; [reflexivity|]. split; [apply Forall_app; auto|].
           intros outs Hr. rewrite group_waits_app, G1, (G3 outs Hr). reflexivity.
        -- inversion Hwait; subst w2. cbn [trace] in E3.
           exists (n1 ++ [Slept GroupWait] ++ n3)%list.
           rewrite E3, E1, <- !app_assoc.
           split; [reflexivity|].
           split; [apply Forall_app; split; [exact F1'|];
                   apply Forall_app; split; [repeat constructor | exact F3']|].
           intros outs Hr. rewrite !group_waits_app, G1, (G3 outs Hr). reflexivity.
Qed.
End BatcherTrace.

End BudgetFacts.

Import BudgetFacts.

(** X4.  [initializeApi] never throws and always ends, for every retry
  ceiling and whatever the upstream answers: both probes are wrapped, so
  [initialize] gets no error to log and throw on.  The probes issue at
  most five times [retryAttempts + 1] calls, and none for a negative
  ceiling. *)
Theorem initializeApi_never_throws :
forall (cfg : config) (w : world),
  exists w',
    initializeApi (retryAttempts cfg) w = Some (Ok tt, w') /\
    initialize cfg w = Some (Ok tt, w') /\
    upstream w' = upstream w /\
    (served w <= served w' <= served w + 5 * tries (retryAttempts cfg))%nat.
Proof.
intros cfg w.
destruct (initializeApi_ends cfg w) as ([] & w' & Hrun).
exists w'. split; [exact Hrun|].
split; [unfold initialize; apply try_ok; exact Hrun|].
destruct (@spends_initializeApi (retryAttempts cfg) _ _ _ Hrun) as (Hu & Hlo & Hhi).
auto.
Qed.

(** X5.  Each catalog call of [api.js] issues at most [retryAttempts + 1]
  requests, however it ends, and none when the ceiling is negative. *)
Theorem catalog_calls_within_budget :
forall (R : Z),
  (forall category sk tk, spends (tries R) (getSearchResults R category sk tk)) /\
  (forall productId, spends (tries R) (getProductDetails R productId)) /\
  (forall category, spends (tries R) (getCategoryCounts R category)).
Proof.
intros R. split; [|split].
- intros. apply spends_getSearchResults.
- intros. apply spends_getProductDetails.
- intros. apply spends_getCategoryCounts.
Qed.

Lemma catalog_calls_within_budget_witness :
upstream (scripted [] (Fails "ETIMEDOUT")) = upstream (scripted [] (Fails "ETIMEDOUT")) /\
(served (scripted [] (Fails "ETIMEDOUT")) <= 3)%nat /\
(3 <= served (scripted [] (Fails "ETIMEDOUT")) + tries 2)%nat.
Proof.
destruct (catalog_calls_within_budget 2) as (Hsearch & _ & _).
apply (Hsearch "Engine Compartment|Alternator" 0 50
         (scripted [] (Fails "ETIMEDOUT")) (Throw (JsError "ETIMEDOUT"))
         {| upstream := upstream (scripted [] (Fails "ETIMEDOUT"));
            served := 3;
            trace := [Slept HumanDelay;
                      Issued (GetSearchResults "Engine Compartment|Alternator" 0 50)
                             (Fails "ETIMEDOUT");
                      Slept RetryBackoff;
                      Slept HumanDelay;
                      Issued (GetSearchResults "Engine Compartment|Alternator" 0 50)
                             (Fails "ETIMEDOUT");
                      Slept RetryBackoff;
                      Slept HumanDelay;
                      Issued (GetSearchResults "Engine Compartment|Alternator" 0 50)
                             (Fails "ETIMEDOUT")] |}).
reflexivity.
Defined.

(** X6.  Whatever [fetchProductDetails] adds to the trace is a timer or a
  detail request for [product.id || product.productId] of one of the
  given products, it leaves the upstream's later replies alone, and it
  issues at most [retryAttempts + 1] requests per product. *)
Theorem batcher_asks_only_for_its_products :
forall (fuel : nat) (cfg : config) (products : list value)
       (w w' : world) (r : outcome (list value)),
  fetchProductDetails fuel cfg products w = Some (r, w') ->
  exists new,
    trace w' = (trace w ++ new)%list /\
    Forall (detail_event products) new /\
    upstream w' = upstream w /\
    (served w' <= served w + List.length products * tries (retryAttempts cfg))%nat.
Proof.
intros fuel cfg products w w' r Hrun.
destruct (@spends_fetchProductDetails cfg fuel products _ _ _ Hrun) as (Hu & _ & Hhi).
assert (Htrace : exists new, trace w' = (trace w ++ new)%list /\
                             Forall (detail_event products) new).
{ revert Hrun. unfold fetchProductDetails. destruct products as [|p rest].
  - intros H. inversion H; subst. exists []. rewrite app_nil_r. auto.
  - destruct (chunk fuel (p :: rest) (parallelRequests cfg)) as [batches|] eqn:Hchunk;
      [|discriminate].
    intros H. apply detail_batches_trace in H. destruct H as (new & E & F & _).
    apply chunk_concat in Hchunk; [|discriminate].
    destruct Hchunk as (_ & Hcat). rewrite Hcat in F. eauto. }
destruct Htrace as (new & E & F). exists new. auto.
Qed.

Lemma batcher_asks_only_for_its_products_witness :
exists new,
  trace {| upstream := upstream (scripted [] (Returns (VObj [("vin", VStr "1HG")])));
           served := 1;
           trace := [Slept HumanDelay;
                     Issued (GetProductDetails (VNum 1))
                            (Returns (VObj [("vin", VStr "1HG")]))] |}
  = (trace (scripted [] (Returns (VObj [("vin", VStr "1HG")]))) ++ new)%list /\
  Forall (detail_event [item 1]) new /\
  upstream {| upstream := upstream (scripted [] (Returns (VObj [("vin", VStr "1HG")])));
              served := 1;
              trace := [Slept HumanDelay;
                        Issued (GetProductDetails (VNum 1))
                               (Returns (VObj [("vin", VStr "1HG")]))] |}
  = upstream (scripted [] (Returns (VObj [("vin", VStr "1HG")]))) /\
  (served {| upstream := upstream (scripted [] (Returns (VObj [("vin", VStr "1HG")])));
             served := 1;
             trace := [Slept HumanDelay;
                       Issued (GetProductDetails (VNum 1))
                              (Returns (VObj [("vin", VStr "1HG")]))] |}
   <= served (scripted [] (Returns (VObj [("vin", VStr "1HG")])))
      + List.length [item 1] * tries (retryAttempts small_config))%nat.
Proof.
apply (@batcher_asks_only_for_its_products 5 small_config [item 1]
         (scripted [] (Returns (VObj [("vin", VStr "1HG")])))
         _ (Ok [VObj [("id", VNum 1); ("details", VObj [("vin", VStr "1HG")])]])).
reflexivity.
Defined.

(** X7.  When the batcher returns, it has waited between groups exactly
  once per pair of consecutive groups: ceil(n / size) - 1 times for [n]
  products, never after the last group and never for a single group. *)
Theorem batcher_waits_between_groups :
forall (fuel : nat) (cfg : config) (products outs : list value) (w w' : world),
  0 < parallelRequests cfg ->
  fetchProductDetails fuel cfg products w = Some (Ok outs, w') ->
  exists new,
    trace w' = (trace w ++ new)%list /\
    group_waits new = Nat.pred (groups (len products) (parallelRequests cfg)).
Proof.
intros fuel cfg products outs w w' Hsize. unfold fetchProductDetails.
destruct products as [|p rest].
- intros H. inversion H; subst. exists []. rewrite app_nil_r.
  split; [reflexivity|]. unfold groups, len. cbn [List.length Z.of_nat].
  rewrite Z.div_small by lia. reflexivity.
- destruct (chunk fuel (p :: rest) (parallelRequests cfg)) as [batches|] eqn:Hchunk;
    [|discriminate].
  intros H. apply detail_batches_trace in H. destruct H as (new & E & _ & G).
  exists new. split; [exact E|]. rewrite (G outs eq_refl).
  unfold chunk in Hchunk.
  apply (@UtilsMore.chunk_loop_shape _ (p :: rest) _ Hsize) in Hchunk; [|lia].
  destruct Hchunk as (rest' & Hout & _ & _ & Hcount). cbn [app] in Hout. subst rest'.
  unfold groups. rewrite <- (Nat2Z.id (List.length batches)). fold (len batches).
  rewrite Hcount. pose proof (len_nonneg (p :: rest)).
  replace (Z.max 0 (len (p :: rest) - 0)) with (len (p :: rest)) by lia.
  reflexivity.
Qed.

Lemma batcher_waits_between_groups_witness :
exists new,
  trace (snd (match fetchProductDetails 9 small_config [item 1; item 2; item 3]
                      (scripted [] (Returns (VStr ""))) with
              | Some rw => rw
              | None => (Ok [], scripted [] (Returns (VStr "")))
              end))
  = (trace (scripted [] (Returns (VStr ""))) ++ new)%list /\
  group_waits new = Nat.pred (groups (len [item 1; item 2; item 3])
                                     (parallelRequests small_config)).
Proof.
apply (@batcher_waits_between_groups 9 small_config [item 1; item 2; item 3]
         [item 1; item 2; item 3] (scripted [] (Returns (VStr "")))).
- cbn. lia.
- reflexivity.
Defined.

(* ===================================================================== *)
(** ** Further properties of the pagination loops *)
(* ===================================================================== *)

Module PagesMore.
Import Js Sim ScraperUtils LkqApi LkqScraper Spec Props.
Import CompFacts RetryFacts BatcherFacts PagingFacts PipelineFacts.
Import TraceFacts FailureFacts BudgetFacts.

Lemma received_app (a b : list event) :
received (a ++ b) = (received a ++ received b)%list.
Proof. unfold received. rewrite page_requests_app, flat_map_app. reflexivity. Qed.

Lemma received_silent (n : list event) : no_pages n -> received n = [].
Proof. unfold no_pages, received. intros ->. reflexivity. Qed.

(** Of the attempts of [getSearchResults] only the one that returned
  carries items. *)
Lemma getSearchResults_loop_received (R : Z) (category : string) (sk tk : Z) :
forall fuel retries lastError t w r w' t',
  retry_loop (sleep HumanDelay ;;; makeApiRequest (GetSearchResults category sk tk))
             R fuel retries lastError t w = Some (r, w', t') ->
  exists new,
    trace w' = (trace w ++ new)%list /\
    received new = match r with
                   | Ok response => items_of (Returns response)
                   | Throw _ => []
                   end.
Proof.
induction fuel as [|fuel IH]; intros retries lastError t w r w' t' H.
- discriminate.
- cbn [retry_loop] in H. destruct (retries <=? R).
  + unfold bind at 1, sleep at 1, makeApiRequest at 1 in H. cbn [upstream served trace] in H.
    destruct (upstream w (served w)) as [m|data] eqn:Hreply.
    * destruct (retries + 1 >? R).
      -- inversion H; subst. cbn [trace].
         exists [Slept HumanDelay; Issued (GetSearchResults category sk tk) (Fails m)].
         rewrite <- app_assoc. split; reflexivity.
      -- cbn [message sleep] in H. apply IH in H.
         destruct H as (n2 & E2 & K2). cbn [trace] in E2.
         exists ([Slept HumanDelay; Issued (GetSearchResults category sk tk) (Fails m);
                  Slept RetryBackoff] ++ n2)%list.
         rewrite E2, <- !app_assoc. split; [reflexivity|].
         rewrite received_app, K2. reflexivity.
    * inversion H; subst. cbn [trace].
      exists [Slept HumanDelay; Issued (GetSearchResults category sk tk) (Returns data)].
      rewrite <- app_assoc. split; [reflexivity|].
      unfold received. cbn [page_requests flat_map snd]. apply app_nil_r.
  + inversion H; subst. exists []. rewrite app_nil_r. split; reflexivity.
Qed.

Lemma getSearchResults_received (R : Z) (category : string) (sk tk : Z) w r w' :
getSearchResults R category sk tk w = Some (r, w') ->
exists new,
  trace w' = (trace w ++ new)%list /\
  received new = match r with
                 | Ok response => items_of (Returns response)
                 | Throw _ => []
                 end.
Proof.
unfold getSearchResults, retry, retry_tally. intros H.
match type of H with option_map _ ?x = _ => destruct x as [[[r1 w1] t1]|] eqn:Hloop end;
  [|discriminate].
cbn in H. inversion H; subst. eapply getSearchResults_loop_received. exact Hloop.
Qed.

Lemma makeApiRequest_url_received (url : string) (sk tk : Z) w r w' :
makeApiRequest (GetByUrl url sk tk) w = Some (r, w') ->
exists new,
  trace w' = (trace w ++ new)%list /\
  received new = match r with
                 | Ok response => items_of (Returns response)
                 | Throw _ => []
                 end.
Proof.
unfold makeApiRequest. intros H.
exists [Issued (GetByUrl url sk tk) (upstream w (served w))].
destruct (upstream w (served w)) as [msg|data]; inversion H; subst;
  cbn [trace]; (split; [reflexivity|]);
  unfold received; cbn [page_requests flat_map snd items_of];
  [reflexivity | apply app_nil_r].
Qed.

(** What [absorb] appends is the page of the response. *)
Lemma absorb_received (m : limit) (c : cursor) (response : value)
    (window requested : Z) w r w' :
absorb m c response window requested w = Some (r, w') ->
match r with
| Ok f => allProducts (cursor_of f) = (allProducts c ++ items_of (Returns response))%list
| Throw _ => items_of (Returns response) = []
end.
Proof.
unfold absorb, items_of.
destruct (page_data response) as [products|] eqn:Hdata.
- destruct (Z.eqb_spec (len products) 0) as [Hempty|Hfull].
  + intros H. inversion H; subst. cbn [cursor_of allProducts].
    destruct products; [rewrite app_nil_r; reflexivity | discriminate].
  + match goal with |- context [if reached ?n m then _ else _] => destruct (reached n m) end.
    * intros H. inversion H; subst. reflexivity.
    * intros H. apply bind_inv in H.
      destruct H as [(e & Hrun & ->)|(u & w1 & Hrun & Hret)].
      -- exfalso. revert Hrun.
         match goal with |- context [if ?b then _ else _] => destruct b end; discriminate.
      -- inversion Hret; subst. reflexivity.
- intros H. unfold invalid_response in H. apply bind_inv in H.
  destruct H as [(e & Hrun & ->)|(text & w1 & Hrun & Hthrow)]; [reflexivity|].
  inversion Hthrow; subst. reflexivity.
Qed.

Lemma page_failed_keeps (R : Z) (c : cursor) (e : exn) (f : flow) w w' :
page_failed R c e w = Some (Ok f, w') -> allProducts (cursor_of f) = allProducts c.
Proof.
unfold page_failed. intros H. apply bind_inv in H.
destruct H as [(e' & _ & Habs)|(text & w1 & _ & H)]; [discriminate|].
cbn [consecutiveErrors] in H. destruct (consecutiveErrors c + 1 >=? R).
- inversion H; subst. reflexivity.
- apply bind_inv in H.
  destruct H as [(e' & _ & Habs)|(u & w2 & _ & H)]; [discriminate|].
  inversion H; subst. reflexivity.
Qed.

(** A turn appends what it received. *)
Lemma turn_received (tk : Z) (m : limit) (c : cursor) (window : Z)
    (fetch : Comp value) (guard : bool) (R : Z) w r w' :
(forall w0 r0 w1, fetch w0 = Some (r0, w1) ->
   exists new,
     trace w1 = (trace w0 ++ new)%list /\
     received new = match r0 with
                    | Ok response => items_of (Returns response)
                    | Throw _ => []
                    end) ->
try_catch (if guard then response <- fetch ;; absorb m c response window tk
           else throw (JsError "Invalid URL"))
          (page_failed R c) w = Some (r, w') ->
exists new,
  trace w' = (trace w ++ new)%list /\
  forall f, r = Ok f -> allProducts (cursor_of f) = (allProducts c ++ received new)%list.
Proof.
intros Hfetch H. apply try_catch_inv in H.
destruct H as [(f & Hbody & ->)|(e & w1 & Hbody & Hhandler)].
- destruct guard; [|discriminate].
  apply bind_inv in Hbody.
  destruct Hbody as [(e & _ & Habs)|(response & w1 & Hget & Habsorb)]; [discriminate|].
  destruct (Hfetch _ _ _ Hget) as (n1 & E1 & K1).
  pose proof (absorb_received _ _ _ _ _ _ Habsorb) as Hall.
  apply absorb_trace in Habsorb. destruct Habsorb as ((n2 & E2 & P2) & _).
  exists (n1 ++ n2)%list. rewrite E2, E1, app_assoc. split; [reflexivity|].
  intros f' Hf. inversion Hf; subst f'.
  rewrite received_app, K1, (received_silent P2), app_nil_r. exact Hall.
- assert (Hbefore : exists n1, trace w1 = (trace w ++ n1)%list /\ received n1 = []).
  { destruct guard.
    - apply bind_inv in Hbody.
      destruct Hbody as [(e0 & Hget & _)|(response & w2 & Hget & Habsorb)].
      + destruct (Hfetch _ _ _ Hget) as (n1 & E1 & K1). eauto.
      + destruct (Hfetch _ _ _ Hget) as (n1 & E1 & K1).
        pose proof (absorb_received _ _ _ _ _ _ Habsorb) as Hnone.
        apply absorb_trace in Habsorb. destruct Habsorb as ((n2 & E2 & P2) & _).
        exists (n1 ++ n2)%list. rewrite E2, E1, app_assoc. split; [reflexivity|].
        rewrite received_app, K1, (received_silent P2), Hnone. reflexivity.
    - inversion Hbody; subst. exists []. rewrite app_nil_r. split; reflexivity. }
  destruct Hbefore as (n1 & E1 & K1).
  pose proof Hhandler as Hkeeps.
  apply page_failed_trace in Hhandler. destruct Hhandler as ((n3 & E3 & P3) & _).
  exists (n1 ++ n3)%list. rewrite E3, E1, app_assoc. split; [reflexivity|].
  intros f Hf. subst r. apply page_failed_keeps in Hkeeps.
  rewrite received_app, K1, (received_silent P3), app_nil_r. exact Hkeeps.
Qed.

(** The loop appends what its turns received, in their order. *)
Lemma paginate_received (turn : cursor -> Comp flow) (m : limit) (R : Z) :
(forall c w r w', turn c w = Some (r, w') ->
   exists new,
     trace w' = (trace w ++ new)%list /\
     forall f, r = Ok f ->
               allProducts (cursor_of f) = (allProducts c ++ received new)%list) ->
forall gas c w r w',
  paginate turn m R gas c w = Some (r, w') ->
  exists new,
    trace w' = (trace w ++ new)%list /\
    forall c', r = Ok c' -> allProducts c' = (allProducts c ++ received new)%list.
Proof.
intros Hturn. induction gas as [|gas IH]; intros c w r w' H.
- discriminate.
- cbn [paginate] in H.
  destruct (hasMore c && below (len (allProducts c)) m && (consecutiveErrors c <? R)).
  + apply bind_inv in H.
    destruct H as [(e & Hrun & ->)|(f & w1 & Hrun & Hrest)].
    * destruct (Hturn _ _ _ _ Hrun) as (n1 & E1 & _).
      exists n1. split; [exact E1 | discriminate].
    * destruct (Hturn _ _ _ _ Hrun) as (n1 & E1 & K1).
      specialize (K1 f eq_refl).
      destruct f as [c1|c1]; cbn [cursor_of] in K1.
      -- apply IH in Hrest. destruct Hrest as (n2 & E2 & K2).
         exists (n1 ++ n2)%list. rewrite E2, E1, app_assoc. split; [reflexivity|].
         intros c' Hr. rewrite (K2 c' Hr), K1, received_app, app_assoc. reflexivity.
      -- inversion Hrest; subst. exists n1. split; [exact E1|].
         intros c' Hr. inversion Hr; subst. exact K1.
  + inversion H; subst. exists []. rewrite app_nil_r. split; [reflexivity|].
    intros c' Hr. inversion Hr; subst. rewrite app_nil_r. reflexivity.
Qed.

Section Entry.
Variable fuel : nat.
Variable cfg : config.
Variable URL_ok : string -> bool.

Lemma url_cursor_received (url : string) (m : limit) w r w' :
  url_cursor fuel URL_ok url m w = Some (r, w') ->
  exists c new,
    r = Ok c /\ trace w' = (trace w ++ new)%list /\ allProducts c = received new.
Proof.
  intros H. unfold url_cursor in H.
  assert (Hquiet : quiet (paginate (url_turn URL_ok url m) m 3 fuel start))
    by (apply paginate_quiet; intros c; apply safe_quiet, url_turn_safe).
  destruct (Hquiet _ _ _ H) as (c & ->).
  eapply paginate_received in H.
  - destruct H as (new & E & K). exists c, new. split; [reflexivity|].
    split; [exact E | apply (K c eq_refl)].
  - intros c0 w0 r0 w0' Hturn. unfold url_turn in Hturn.
    eapply turn_received; [|exact Hturn].
    intros w1 r1 w2. apply makeApiRequest_url_received.
Qed.

Lemma category_cursor_received (category : string) (m : limit) w r w' :
  0 <= retryAttempts cfg ->
  category_cursor fuel cfg category m w = Some (r, w') ->
  exists new,
    trace w' = (trace w ++ new)%list /\
    match r with
    | Ok c => allProducts c = received new
    | Throw e => received new = [] /\ e <> JsUndefined
    end.
Proof.
  intros HR H. unfold category_cursor in H. apply bind_inv in H.
  destruct H as [(e & Hcounts & ->)|(v & w1 & Hcounts & Hloop)].
  - pose proof (proper_civil (@proper_getCategoryCounts cfg category HR) _ Hcounts) as He.
    apply grows_getCategoryCounts in Hcounts. destruct Hcounts as (n1 & E1 & P1).
    exists n1. split; [exact E1|]. split; [apply received_silent, P1|].
    intros ->. apply He. reflexivity.
  - apply grows_getCategoryCounts in Hcounts. destruct Hcounts as (n1 & E1 & P1).
    assert (Hquiet : quiet (paginate (category_turn cfg category m) m
                                     (retryAttempts cfg) fuel start))
      by (apply paginate_quiet; intros c; apply safe_quiet, category_turn_safe, HR).
    destruct (Hquiet _ _ _ Hloop) as (c & ->).
    eapply paginate_received in Hloop.
    + destruct Hloop as (n2 & E2 & K2).
      exists (n1 ++ n2)%list. rewrite E2, E1, app_assoc. split; [reflexivity|].
      rewrite received_app, (received_silent P1). apply (K2 c eq_refl).
    + intros c0 w0 r0 w0' Hturn. unfold category_turn in Hturn.
      eapply (@turn_received _ m c0 _ _ true); [|exact Hturn].
      intros w2 r2 w3. apply getSearchResults_received.
Qed.
End Entry.

(** *** The events a pagination run adds *)

Section Closed.
Variable P : list event -> Prop.
Hypothesis P_nil : P [].
Hypothesis P_app : forall a b, P a -> P b -> P (a ++ b).
Hypothesis P_timer : forall p, P [Slept p].

Lemma closed_absorb (m : limit) (c : cursor) (response : value) (window requested : Z) :
  grows P (absorb m c response window requested).
Proof.
  unfold absorb. destruct (page_data response) as [products|].
  - destruct (len products =? 0); [apply grows_ret, P_nil|].
    match goal with |- context [if ?b then _ else _] => destruct b end;
      [apply grows_ret, P_nil|].
    apply closed_bind; auto; [|intros _; apply grows_ret, P_nil].
    match goal with |- context [if ?b then _ else _] => destruct b end;
      [apply closed_sleep, P_timer | apply grows_ret, P_nil].
  - unfold invalid_response. apply closed_bind; auto;
      [apply grows_lift, P_nil | intros text; apply grows_throw, P_nil].
Qed.

Lemma closed_page_failed (R : Z) (c : cursor) (e : exn) :
  grows P (page_failed R c e).
Proof.
  unfold page_failed. apply closed_bind; auto; [apply grows_lift, P_nil | intros _].
  match goal with |- context [if ?b then _ else _] => destruct b end;
    [apply grows_ret, P_nil|].
  apply closed_bind; auto; [apply closed_sleep, P_timer | intros _; apply grows_ret, P_nil].
Qed.

Lemma closed_paginate (turn : cursor -> Comp flow) (m : limit) (R : Z) :
  (forall c, grows P (turn c)) ->
  forall gas c, grows P (paginate turn m R gas c).
Proof.
  intros Hturn. induction gas as [|gas IH]; intros c.
  - apply grows_out_of_fuel.
  - cbn [paginate].
    match goal with |- context [if ?b then _ else _] => destruct b end;
      [|apply grows_ret, P_nil].
    apply closed_bind; auto.
    intros [c'|c']; [apply IH | apply grows_ret, P_nil].
Qed.
End Closed.

Lemma within_take (b : Z) (m : limit) (n : Z) :
0 <= n -> within b m (min_with b (minus m n)).
Proof. intros Hn. unfold within, min_with, minus. destruct m as [k|]; lia. Qed.

Section Events.
Variable fuel : nat.
Variable cfg : config.
Variable URL_ok : string -> bool.

Lemma fetchProductsByCategory_events (category : string) (m : limit) :
  grows (Forall (category_event category (batchSize cfg) m))
        (fetchProductsByCategory fuel cfg category m).
Proof.
  set (P := Forall (category_event category (batchSize cfg) m)).
  assert (P_nil : P []) by constructor.
  assert (P_app : forall a b, P a -> P b -> P (a ++ b)%list)
    by (intros a b Ha Hb; apply Forall_app; auto).
  assert (P_timer : forall p, P [Slept p]) by (intros p; repeat constructor).
  unfold fetchProductsByCategory.
  apply closed_try; auto;
    [|intros e; apply closed_logged; auto; apply grows_ret, P_nil].
  apply closed_bind; auto; [|intros c; apply grows_ret, P_nil].
  unfold category_cursor. apply closed_bind; auto.
  - unfold getCategoryCounts. apply closed_retry; auto.
    apply closed_bind; auto.
    + apply closed_request. intros a. repeat constructor.
    + intros response. apply closed_bind; auto;
        [apply grows_lift, P_nil | intros count; apply grows_ret, P_nil].
  - intros _. apply closed_paginate; auto. intros c.
    unfold category_turn. apply closed_try; auto; [|intros e; apply closed_page_failed; auto].
    apply closed_bind; auto; [|intros response; apply closed_absorb; auto].
    unfold getSearchResults. apply closed_retry; auto.
    apply closed_bind; auto; [apply closed_sleep, P_timer | intros _].
    apply closed_request. intros a. constructor; [|constructor].
    split; [reflexivity|]. apply within_take, len_nonneg.
Qed.

Lemma fetchProductsByUrl_events (url : string) (m : limit) :
  grows (Forall (url_event url m)) (fetchProductsByUrl fuel URL_ok url m).
Proof.
  set (P := Forall (url_event url m)).
  assert (P_nil : P []) by constructor.
  assert (P_app : forall a b, P a -> P b -> P (a ++ b)%list)
    by (intros a b Ha Hb; apply Forall_app; auto).
  assert (P_timer : forall p, P [Slept p]) by (intros p; repeat constructor).
  unfold fetchProductsByUrl. destruct (String.eqb url ""); [apply grows_throw, P_nil|].
  apply closed_try; auto;
    [|intros e; apply closed_logged; auto; apply grows_ret, P_nil].
  apply closed_bind; auto; [|intros c; apply grows_ret, P_nil].
  unfold url_cursor. apply closed_paginate; auto. intros c.
  unfold url_turn. apply closed_try; auto; [|intros e; apply closed_page_failed; auto].
  destruct (URL_ok url); [|apply grows_throw, P_nil].
  apply closed_bind; auto; [|intros response; apply closed_absorb; auto].
  apply closed_request. intros a. constructor; [|constructor].
  split; [reflexivity|]. apply within_take, len_nonneg.
Qed.
End Events.

End PagesMore.

Import PagesMore.

(** X8.  What a pagination entry point returns is exactly what it
  received: the items of the well-formed pages the upstream returned to
  its page requests, in the order of the requests, cut at [maxProducts].
  No item is dropped, repeated or reordered, and a failed or malformed
  reply contributes nothing. *)
Theorem collected_products_are_the_received_pages :
forall (fuel : nat) (cfg : config) (URL_ok : string -> bool) (m : limit)
       (input : string) (products : list value) (w w' : world),
  fetchProductsByCategory fuel cfg input m w = Some (Ok products, w') \/
  fetchProductsByUrl fuel URL_ok input m w = Some (Ok products, w') ->
  exists new,
    trace w' = (trace w ++ new)%list /\
    products = trim_to m (received new).
Proof.
intros fuel cfg URL_ok m input products w w' [H|H].
- unfold fetchProductsByCategory in H.
  destruct (Z_lt_le_dec (retryAttempts cfg) 0) as [Hneg|HR].
  { exfalso. revert H.
    unfold category_cursor, getCategoryCounts, try_catch, bind, retry.
    rewrite retry_negative by exact Hneg. cbn. discriminate. }
  apply try_catch_inv in H.
  destruct H as [(a & Hbody & Heq)|(e & w1 & Hbody & Hhandler)].
  + inversion Heq; subst a. apply bind_inv in Hbody.
    destruct Hbody as [(e & _ & Habs)|(c & w1 & Hcursor & Hret)]; [discriminate|].
    inversion Hret; subst.
    apply category_cursor_received in Hcursor; [|exact HR].
    destruct Hcursor as (new & E & K). exists new. rewrite K. auto.
  + apply bind_inv in Hbody.
    destruct Hbody as [(e' & Hcursor & He)|(c & w2 & _ & Hret)]; [|discriminate].
    inversion He; subst e'.
    apply category_cursor_received in Hcursor; [|exact HR].
    destruct Hcursor as (new & E & K & Hcivil).
    destruct e as [msg|]; [|congruence].
    inversion Hhandler; subst. exists new. rewrite K, trim_to_nil. auto.
- unfold fetchProductsByUrl in H. destruct (String.eqb input ""); [discriminate|].
  apply try_catch_inv in H.
  destruct H as [(a & Hbody & Heq)|(e & w1 & Hbody & Hhandler)].
  + inversion Heq; subst a. apply bind_inv in Hbody.
    destruct Hbody as [(e & _ & Habs)|(c & w1 & Hcursor & Hret)]; [discriminate|].
    inversion Hret; subst.
    apply url_cursor_received in Hcursor.
    destruct Hcursor as (c' & new & Hc & E & K). inversion Hc; subst c'.
    exists new. rewrite K. auto.
  + exfalso. apply bind_inv in Hbody.
    destruct Hbody as [(e' & Hcursor & _)|(c & w2 & _ & Hret)]; [|discriminate].
    apply url_cursor_received in Hcursor.
    destruct Hcursor as (c' & new & Hc & _). discriminate.
Qed.

Lemma collected_products_are_the_received_pages_witness :
exists new,
  trace (world_of url_run two_then_none) = (trace two_then_none ++ new)%list /\
  products_of url_run = trim_to (Finite 3) (received new).
Proof.
apply (@collected_products_are_the_received_pages 9 small_config any_url (Finite 3)
         alternator_url (products_of url_run) two_then_none
         (world_of url_run two_then_none)).
right. reflexivity.
Defined.

(** X9.  A pagination run stays on its target: everything
  [fetchProductsByCategory] adds to the trace is a timer, the count probe
  of its category or a page request for its category, and everything
  [fetchProductsByUrl] adds is a timer or a page request for its URL.  No
  page request asks for more items than the batch size (50 for a URL) or
  than [maxProducts]. *)
Theorem pagination_stays_on_target :
forall (fuel : nat) (cfg : config) (URL_ok : string -> bool) (m : limit)
       (input : string),
  grows (Forall (category_event input (batchSize cfg) m))
        (fetchProductsByCategory fuel cfg input m) /\
  grows (Forall (url_event input m)) (fetchProductsByUrl fuel URL_ok input m).
Proof.
intros fuel cfg URL_ok m input. split.
- apply fetchProductsByCategory_events.
- apply fetchProductsByUrl_events.
Qed.

Lemma pagination_stays_on_target_witness :
exists new,
  trace (world_of category_run (scripted [page_of 1; page_of 2] (page_of 0)))
  = (trace (scripted [page_of 1; page_of 2] (page_of 0)) ++ new)%list /\
  Forall (category_event "Engine Compartment|Alternator" (batchSize small_config)
                         (Finite 3)) new.
Proof.
destruct (pagination_stays_on_target 9 small_config any_url (Finite 3)
            "Engine Compartment|Alternator") as (Hcategory & _).
apply (Hcategory (scripted [page_of 1; page_of 2] (page_of 0))
                 (Ok (products_of category_run))).
reflexivity.
Defined.

(** X10.  [fetchProductsByUrl] throws in one case only, the missing URL,
  and then before anything is issued; for every other URL it returns a
  list whenever it ends, whatever the upstream does. *)
Theorem fetchProductsByUrl_throws_only_without_url :
forall (fuel : nat) (URL_ok : string -> bool) (url : string) (m : limit)
       (w w' : world) (r : outcome (list value)),
  fetchProductsByUrl fuel URL_ok url m w = Some (r, w') ->
  (url = "" /\ r = Throw (JsError "URL is required") /\ w' = w) \/
  (url <> "" /\ exists products, r = Ok products).
Proof.
intros fuel URL_ok url m w w' r H.
destruct (String.eqb_spec url "") as [Hempty|Hurl].
- left. subst url. unfold fetchProductsByUrl in H. cbn in H.
  inversion H; subst. auto.
- right. split; [exact Hurl|].
  eapply fetchProductsByUrl_quiet; [exact Hurl | exact H].
Qed.

Lemma fetchProductsByUrl_throws_only_without_url_witness :
("" = "" /\
 @Throw (list value) (JsError "URL is required") = Throw (JsError "URL is required") /\
 two_then_none = two_then_none) \/
("" <> "" /\
 exists products : list value, Throw (JsError "URL is required") = Ok products).
Proof.
apply (@fetchProductsByUrl_throws_only_without_url 9 any_url "" (Finite 3)
         two_then_none two_then_none (Throw (JsError "URL is required"))).
reflexivity.
Defined.

(** X11.  A URL that [new URL] rejects costs no request: each turn fails
  before the call, so after three failed turns and two backoff delays
  [fetchProductsByUrl] returns the empty list (at once when no product
  is asked for). *)
Theorem unparsable_url_yields_nothing :
forall (fuel : nat) (URL_ok : string -> bool) (url : string) (m : limit) (w : world),
  url <> "" ->
  URL_ok url = false ->
  (3 <= fuel)%nat ->
  exists w',
    fetchProductsByUrl fuel URL_ok url m w = Some (Ok [], w') /\
    upstream w' = upstream w /\
    served w' = served w /\
    trace w' = (trace w ++ if below 0 m
                           then [Slept PageBackoff; Slept PageBackoff]
                           else [])%list.
Proof.
intros fuel URL_ok url m w Hurl Hbad Hfuel.
unfold fetchProductsByUrl, url_cursor.
destruct (String.eqb_spec url ""); [congruence|].
destruct fuel as [|[|[|fuel]]]; try lia.
unfold try_catch, bind. cbn [paginate start hasMore allProducts consecutiveErrors].
change (len (@nil value)) with 0.
destruct (below 0 m) eqn:Hbelow.
- unfold url_turn, try_catch, bind, page_failed, lift, throw, sleep, ret.
  rewrite Hbad. cbn.
  rewrite Hbelow. cbn.
  eexists. split; [rewrite trim_to_nil; reflexivity|].
  cbn. split; [reflexivity|]. split; [reflexivity|].
  rewrite <- app_assoc. reflexivity.
- cbn. eexists. split; [rewrite trim_to_nil; reflexivity|].
  split; [reflexivity|]. split; [reflexivity|]. rewrite app_nil_r. reflexivity.
Qed.

Lemma unparsable_url_yields_nothing_witness :
exists w',
  fetchProductsByUrl 3 no_url "not a url" Infinity two_then_none = Some (Ok [], w') /\
  upstream w' = upstream two_then_none /\
  served w' = served two_then_none /\
  trace w' = (trace two_then_none ++ if below 0 Infinity
                                     then [Slept PageBackoff; Slept PageBackoff]
                                     else [])%list.
Proof.
apply (@unparsable_url_yields_nothing 3 no_url "not a url" Infinity two_then_none).
- discriminate.
- reflexivity.
- lia.
Defined.

(** X12.  With [retryAttempts] set to zero the loop of
  [fetchProductsByCategory] never runs, because its guard
  [consecutiveErrors < maxRetries] is false from the start: the function
  issues the count probe, no page request, and returns the empty list
  whatever the upstream holds.  The same happens, for every ceiling that
  is not negative, when no product is asked for. *)
Theorem category_fetches_nothing_without_retries :
forall (fuel : nat) (cfg : config) (category : string) (m : limit) (w : world),
  (0 < fuel)%nat ->
  retryAttempts cfg = 0 \/ (0 <= retryAttempts cfg /\ below 0 m = false) ->
  exists w' new,
    fetchProductsByCategory fuel cfg category m w = Some (Ok [], w') /\
    trace w' = (trace w ++ new)%list /\
    page_requests new = [] /\
    (served w' <= served w + tries (retryAttempts cfg))%nat.
Proof.
intros fuel cfg category m w Hfuel Hedge.
assert (HR : 0 <= retryAttempts cfg) by (destruct Hedge as [->|(H & _)]; lia).
destruct (@proper_getCategoryCounts cfg category HR w) as (r1 & w1 & Hcounts & Hcivil).
destruct (grows_getCategoryCounts _ _ _ Hcounts) as (new & E & Hsilent).
destruct (@spends_getCategoryCounts _ _ _ _ _ Hcounts) as (_ & _ & Hhi).
exists w1, new.
split; [|split; [exact E | split; [exact Hsilent | exact Hhi]]].
unfold fetchProductsByCategory, category_cursor, try_catch, bind.
rewrite Hcounts. destruct r1 as [v|e].
- destruct fuel as [|fuel]; [lia|].
  cbn [paginate start hasMore allProducts consecutiveErrors].
  change (len (@nil value)) with 0.
  assert (Hguard : true && below 0 m && (0 <? retryAttempts cfg) = false).
  { destruct Hedge as [->|(_ & ->)]; [apply andb_false_r | reflexivity]. }
  rewrite Hguard. cbn. rewrite trim_to_nil. reflexivity.
- destruct e as [msg|]; [reflexivity | congruence].
Qed.

Lemma category_fetches_nothing_without_retries_witness :
exists w' new,
  fetchProductsByCategory 1 no_retry_config "Engine Compartment|Alternator" Infinity
                          two_then_none = Some (Ok [], w') /\
  trace w' = (trace two_then_none ++ new)%list /\
  page_requests new = [] /\
  (served w' <= served two_then_none + tries (retryAttempts no_retry_config))%nat.
Proof.
apply (@category_fetches_nothing_without_retries 1 no_retry_config
         "Engine Compartment|Alternator" Infinity two_then_none).
- lia.
- left. reflexivity.
Defined.

(* ===================================================================== *)
(** ** Further properties of the mappers and of the merge *)
(* ===================================================================== *)

Module MapperMore.
Import Js MapperCommon Spec Props MapperFacts.
Local Open Scope outcome_scope.

Lemma lookup_assign_same (k : string) (v : value) (fields : list (string * value)) :
lookup k (assign k v fields) = Some v.
Proof.
induction fields as [|[k' v'] rest IH]; cbn [assign lookup].
- rewrite String.eqb_refl. reflexivity.
- destruct (String.eqb k k') eqn:Heq; cbn [lookup].
  + rewrite String.eqb_refl. reflexivity.
  + rewrite Heq. exact IH.
Qed.

Lemma lookup_assign_other (k k' : string) (v : value) (fields : list (string * value)) :
k' <> k -> lookup k' (assign k v fields) = lookup k' fields.
Proof.
intros Hne. induction fields as [|[k0 v0] rest IH]; cbn [assign lookup].
- destruct (String.eqb_spec k' k); [congruence | reflexivity].
- destruct (String.eqb_spec k k0) as [->|Hk]; cbn [lookup].
  + destruct (String.eqb_spec k' k0); [congruence | reflexivity].
  + destruct (String.eqb k' k0); [reflexivity | exact IH].
Qed.

Lemma lookup_keys (k : string) (fields : list (string * value)) :
existsb (String.eqb k) (map fst fields) = false -> lookup k fields = None.
Proof.
induction fields as [|[k' v'] rest IH]; cbn [map fst existsb lookup]; [reflexivity|].
destruct (String.eqb k k'); cbn [orb]; [discriminate | exact IH].
Qed.

Section Copy.
Variable fields : list (string * value).

(** The loop over [Object.keys(product)] of [mapProductToPart]. *)
Let step (otherParams : list (string * value)) (key : string) :=
  if Mapper.includes Mapper.explicitFields key then otherParams
  else match get (VObj fields) key with
       | Ok x => assign key x otherParams
       | Throw _ => otherParams
       end.

Lemma copy_lookup (k : string) :
  forall (ks : list string) (acc : list (string * value)),
    lookup k (fold_left step ks acc) =
    if Mapper.includes Mapper.explicitFields k then lookup k acc
    else if existsb (String.eqb k) ks then Some (field (VObj fields) k)
         else lookup k acc.
Proof.
  induction ks as [|key rest IH]; intros acc; cbn [fold_left existsb].
  - destruct (Mapper.includes Mapper.explicitFields k); reflexivity.
  - rewrite IH. unfold step.
    destruct (Mapper.includes Mapper.explicitFields k) eqn:Hk.
    + destruct (Mapper.includes Mapper.explicitFields key) eqn:Hkey; [reflexivity|].
      cbn [get]. apply lookup_assign_other. intros ->. congruence.
    + destruct (existsb (String.eqb k) rest); [rewrite orb_true_r; reflexivity|].
      rewrite orb_false_r.
      destruct (String.eqb_spec k key) as [->|Hne].
      * rewrite Hk. cbn [get]. rewrite lookup_assign_same. reflexivity.
      * destruct (Mapper.includes Mapper.explicitFields key); [reflexivity|].
        cbn [get]. apply lookup_assign_other. exact Hne.
Qed.

(** [otherParams] of an object: the fields the mapper does not map
    explicitly, each with the value the product has. *)
Lemma other_params_fields (otherParams : list (string * value)) (k : string) :
  Mapper.other_params (VObj fields) = Ok otherParams ->
  field (VObj otherParams) k =
  if Mapper.includes Mapper.explicitFields k then VUndefined
  else field (VObj fields) k.
Proof.
  intros H.
  assert (Heq : Mapper.other_params (VObj fields) =
                Ok (if truthy (field (VObj fields) "details")
                    then assign "details" (field (VObj fields) "details")
                                (fold_left step (map fst fields) [])
                    else fold_left step (map fst fields) []))
    by reflexivity.
  rewrite Heq in H. inversion H as [Hout]. clear H Heq Hout.
  assert (Hcopied : lookup k (fold_left step (map fst fields) []) =
                    if Mapper.includes Mapper.explicitFields k then None
                    else if existsb (String.eqb k) (map fst fields)
                         then Some (field (VObj fields) k) else None)
    by (rewrite copy_lookup; reflexivity).
  assert (Habsent : existsb (String.eqb k) (map fst fields) = false ->
                    field (VObj fields) k = VUndefined).
  { intros Hno. unfold field. cbn [get]. rewrite (lookup_keys _ _ Hno). reflexivity. }
  assert (Hplain : field (VObj (fold_left step (map fst fields) [])) k =
                   if Mapper.includes Mapper.explicitFields k then VUndefined
                   else field (VObj fields) k).
  { unfold field at 1. cbn [get]. rewrite Hcopied.
    destruct (Mapper.includes Mapper.explicitFields k); [reflexivity|].
    destruct (existsb (String.eqb k) (map fst fields)) eqn:Hin; [reflexivity|].
    symmetry. apply Habsent. reflexivity. }
  destruct (truthy (field (VObj fields) "details")); [|exact Hplain].
  destruct (String.eqb_spec k "details") as [->|Hne].
  - unfold field at 1. cbn [get]. rewrite lookup_assign_same. reflexivity.
  - rewrite <- Hplain. unfold field. cbn [get].
    rewrite lookup_assign_other by exact Hne. reflexivity.
Qed.
End Copy.

(** Steps through the [try] block of a mapper: each call that is bound is
  split into its result, in every equation at once. *)
Ltac mapper_steps :=
repeat match goal with
       | H : obind ?o _ = Ok _ |- _ =>
           let E := fresh "E" in
           destruct o eqn:E; cbn [obind] in *; [|discriminate]
       end.

Section WithParser.
Variable JSON_parse : string -> option value.

Lemma build_part_other_params (product part : value) :
  Mapper.build_part JSON_parse product = Ok part ->
  exists otherParams,
    Mapper.other_params product = Ok otherParams /\
    field part "otherParams" = VObj otherParams.
Proof.
  unfold Mapper.build_part. intros H. mapper_steps.
  inversion H; subst. eexists. split; reflexivity.
Qed.

(** No field of an object product is lost. *)
Lemma build_part_keeps (fields : list (string * value)) (part : value) (k : string) :
  Mapper.build_part JSON_parse (VObj fields) = Ok part ->
  field (field part "otherParams") k =
  if Mapper.includes Mapper.explicitFields k then VUndefined
  else field (VObj fields) k.
Proof.
  intros H. apply build_part_other_params in H.
  destruct H as (otherParams & Hother & ->).
  apply other_params_fields. exact Hother.
Qed.

(** The minimal part of the [catch] block has the required fields. *)
Lemma minimal_part_conforms (product part : value) (error : exn) :
  Mapper.minimal_part product error = Ok part -> conforms part.
Proof.
  unfold Mapper.minimal_part. destruct (message error) as [m|e]; cbn [obind];
    [|discriminate].
  intros H. inversion H; subst. unfold conforms, has_key, field. cbn.
  repeat split; try discriminate. left. reflexivity.
Qed.

Lemma map_condition_known (ftcDisplay : value) :
  In (map_condition ftcDisplay) conditions.
Proof.
  unfold map_condition, conditions.
  destruct (strict_eq_str ftcDisplay "Used"); [cbn; auto|].
  destruct (strict_eq_str ftcDisplay "New"); [cbn; auto|].
  destruct (strict_eq_str ftcDisplay "Refurbished"); cbn; auto.
Qed.

Lemma build_part_conforms (product part : value) :
  Mapper.build_part JSON_parse product = Ok part -> conforms part.
Proof.
  unfold Mapper.build_part. intros H. mapper_steps.
  inversion H; subst. unfold conforms, has_key, field. cbn.
  repeat split; try discriminate. right. apply map_condition_known.
Qed.

Lemma mapped_conforms (product : value) :
  truthy (mapped JSON_parse product) = true -> conforms (mapped JSON_parse product).
Proof.
  unfold mapped, Mapper.mapProductToPart.
  destruct (negb (truthy product)); [discriminate|].
  destruct (Mapper.build_part JSON_parse product) as [part|error] eqn:Hbuild.
  - intros _. eapply build_part_conforms. exact Hbuild.
  - destruct (Mapper.minimal_part product error) as [part|e] eqn:Hmin; [|discriminate].
    intros _. eapply minimal_part_conforms. exact Hmin.
Qed.

Lemma mapProducts_conforms (products records : list value) :
  LkqScraper.mapProducts JSON_parse products = Ok records ->
  Forall conforms records.
Proof.
  intros H. rewrite mapProducts_eq in H.
  inversion H; subst. apply Forall_forall. intros part Hin.
  apply filter_In in Hin. destruct Hin as (Hin & Htruthy).
  apply in_map_iff in Hin. destruct Hin as (product & <- & _).
  apply mapped_conforms. exact Htruthy.
Qed.

Lemma filters_agree (parts : list value) :
  Forall (fun part => part = VNull \/ exists fields, part = VObj fields) parts ->
  filter (fun part => match part with VNull => false | _ => true end) parts =
  filter truthy parts.
Proof.
  induction 1 as [|part rest [->|(fields & ->)] _ IH]; cbn [filter truthy];
    [reflexivity | exact IH | rewrite IH; reflexivity].
Qed.

Lemma mapped_shape (product : value) :
  mapped JSON_parse product = VNull \/
  exists fields, mapped JSON_parse product = VObj fields.
Proof.
  unfold mapped.
  destruct (mapProductToPart_cases JSON_parse product) as [(_ & ->)|(_ & fields & ->)];
    eauto.
Qed.
End WithParser.

End MapperMore.

Import MapperCommon MapperMore.

(** X13.  The list mapper of [mapper.js] and the [mapProducts] method of
  the scraper class are the same function on arrays: neither throws, and
  both return the parts of the truthy products in the order of the
  products ([filter(part => part !== null)] and [filter(Boolean)] keep the
  same parts, since a part is [null] or an object). *)
Theorem list_mappers_agree :
forall (JSON_parse : string -> option value) (products : list value),
  Mapper.mapProductsToParts JSON_parse products =
  LkqScraper.mapProducts JSON_parse products /\
  LkqScraper.mapProducts JSON_parse products =
  Ok (filter truthy (map (mapped JSON_parse) products)).
Proof.
intros JSON_parse products. split; [|apply mapProducts_eq].
rewrite mapProducts_eq. unfold Mapper.mapProductsToParts.
rewrite (@omap_total _ _ _ (mapped JSON_parse));
  [|intros product; apply mapped_eq].
cbn [obind]. f_equal. apply filters_agree.
apply Forall_forall. intros part Hin. apply in_map_iff in Hin.
destruct Hin as (product & <- & _). apply mapped_shape.
Qed.

(** X14.  Every record [mapProducts] returns has what the Part model
  requires of it: it is an object with [partNumber], [name] and [source],
  its source is 'lkq', and its condition, when it has one, is one of
  'new', 'used', 'refurbished', 'unknown'.  This holds on the normal path
  and for the minimal part of the [catch] block. *)
Theorem records_conform_to_the_part_model :
forall (JSON_parse : string -> option value) (products records : list value),
  LkqScraper.mapProducts JSON_parse products = Ok records ->
  Forall conforms records.
Proof.
intros JSON_parse products records. apply mapProducts_conforms.
Qed.

Lemma records_conform_to_the_part_model_witness :
Forall conforms
       (match LkqScraper.mapProducts no_json [VObj alternator; VNull; broken_product] with
        | Ok records => records
        | Throw _ => []
        end).
Proof.
apply (@records_conform_to_the_part_model no_json
         [VObj alternator; VNull; broken_product]).
reflexivity.
Defined.



(** X16.  The detail callback changes a product in one way only: it
  returns the product as it came, or the product is an object and the
  result is that object with the truthy payload under [details] and
  every other field as it was.  Mapping the result then puts the payload
  under [otherParams.details]. *)
Theorem merge_keeps_the_product :
forall (cfg : LkqScraper.config) (product out : value) (w w' : Sim.world),
  LkqScraper.with_details cfg product w = Some (Ok out, w') ->
  out = product \/
  exists fields details,
    product = VObj fields /\
    truthy details = true /\
    out = VObj (assign "details" details fields) /\
    field out "details" = details /\
    (forall k, k <> "details" -> field out k = field product k) /\
    (forall JSON_parse part,
        Mapper.build_part JSON_parse out = Ok part ->
        field (field part "otherParams") "details" = details).
Proof.
intros cfg product out w w' H. apply BatcherFacts.with_details_enrichment in H.
destruct H as [e He|id pid Hid Hpid Hno|id pid m w' Hid Hpid Hyes Hcall
               |id pid details w' Hid Hpid Hyes Hcall Hempty
               |id pid details w' Hid Hpid Hyes Hcall Hfull];
  try (left; reflexivity).
right.
assert (Hobj : exists fields, product = VObj fields).
{ destruct product; cbn in Hid, Hpid; try discriminate;
    try (inversion Hid; inversion Hpid; subst; discriminate); eauto. }
destruct Hobj as (fields & ->). exists fields, details.
cbn [LkqScraper.spread].
split; [reflexivity|]. split; [exact Hfull|]. split; [reflexivity|].
assert (Hdetails : field (VObj (assign "details" details fields)) "details" = details)
  by (unfold field; cbn [get]; rewrite lookup_assign_same; reflexivity).
split; [exact Hdetails|]. split.
- intros k Hk. unfold field. cbn [get]. rewrite lookup_assign_other by exact Hk.
  reflexivity.
- intros JSON_parse part Hbuild.
  rewrite (@build_part_keeps JSON_parse _ part "details" Hbuild). exact Hdetails.
Qed.

Lemma merge_keeps_the_product_witness :
VObj (assign "details" vin_details alternator) = VObj alternator \/
exists fields details,
  VObj alternator = VObj fields /\
  truthy details = true /\
  VObj (assign "details" vin_details alternator) = VObj (assign "details" details fields) /\
  field (VObj (assign "details" vin_details alternator)) "details" = details /\
  (forall k, k <> "details" ->
             field (VObj (assign "details" vin_details alternator)) k =
             field (VObj alternator) k) /\
  (forall JSON_parse part,
      Mapper.build_part JSON_parse (VObj (assign "details" vin_details alternator))
      = Ok part ->
      field (field part "otherParams") "details" = details).
Proof.
apply (@merge_keeps_the_product small_config (VObj alternator)
         (VObj (assign "details" vin_details alternator))
         (scripted [] (Sim.Returns vin_details))
         (world_of (LkqScraper.with_details small_config (VObj alternator)
                      (scripted [] (Sim.Returns vin_details)))
                   (scripted [] (Sim.Returns vin_details)))).
reflexivity.
Defined.

(** X17.  Embedded JSON that does not parse costs nothing but itself: when
  [JSON.parse] throws on [fitmentJson] and on [_salvageSourceVehicle],
  the [try] block goes on with the defaults, so the part has an empty
  compatibility list and takes its manufacturer from
  [product.sourceVehicleMake]. *)
Theorem unparsable_json_falls_back :
forall (JSON_parse : string -> option value) (product part : value),
  (forall s, field product "fitmentJson" = VStr s -> JSON_parse s = None) ->
  (forall s, field product "_salvageSourceVehicle" = VStr s -> JSON_parse s = None) ->
  Mapper.build_part JSON_parse product = Ok part ->
  field part "compatibility" = VArr [] /\
  field part "manufacturer" = or_ (field product "sourceVehicleMake") (VStr "").
Proof.
intros JSON_parse product part Hfit Hsv H.
unfold Mapper.build_part in H. mapper_steps. inversion H; subst. clear H.
assert (Hdefault : forall (dflt x : value) (k : string),
           get product k = Ok x ->
           (forall s, field product k = VStr s -> JSON_parse s = None) ->
           parsed_or JSON_parse dflt x = dflt).
{ intros dflt x k Hget Hnone. unfold parsed_or. destruct x; try reflexivity.
  destruct (truthy (VStr s)); [|reflexivity].
  rewrite (Hnone s); [reflexivity|]. unfold field. rewrite Hget. reflexivity. }
repeat match goal with
       | E : context [parsed_or JSON_parse ?d ?x] |- _ =>
           rewrite (@Hdefault d x _ ltac:(eassumption) ltac:(eassumption)) in E
       end.
match goal with
| E : array_map _ (VArr []) = Ok ?l |- _ => cbn in E; inversion E; subst l
end.
match goal with
| E : get (VObj []) "Make" = Ok ?x |- _ => cbn in E; inversion E; subst x
end.
split; [reflexivity|].
unfold field at 2.
match goal with
| E : get product "sourceVehicleMake" = Ok ?x |- _ => rewrite E
end.
reflexivity.
Qed.

Lemma unparsable_json_falls_back_witness :
field (mapped no_json (VObj [("number", VStr "ALT-7");
                             ("fitmentJson", VStr "[{");
                             ("sourceVehicleMake", VStr "Honda")])) "compatibility"
= VArr [] /\
field (mapped no_json (VObj [("number", VStr "ALT-7");
                             ("fitmentJson", VStr "[{");
                             ("sourceVehicleMake", VStr "Honda")])) "manufacturer"
= or_ (field (VObj [("number", VStr "ALT-7");
                    ("fitmentJson", VStr "[{");
                    ("sourceVehicleMake", VStr "Honda")]) "sourceVehicleMake")
      (VStr "").
Proof.
apply (@unparsable_json_falls_back no_json
         (VObj [("number", VStr "ALT-7");
                ("fitmentJson", VStr "[{");
                ("sourceVehicleMake", VStr "Honda")])).
- intros s _. reflexivity.
- intros s _. reflexivity.
- reflexivity.
Defined.

(** X18.  The mapper of [mapper.js] and the mapper text that follows the
  class in [index.js] fill fourteen fields in the same way: whenever both
  [try] blocks succeed on a product, the two parts agree on each of them,
  and also on the price unless [product.price] is a falsy value other than
  [undefined] (the one tests [!== undefined], the other truthiness). *)
Theorem mapper_texts_agree :
forall (JSON_parse : string -> option value) (product p1 p2 : value),
  Mapper.build_part JSON_parse product = Ok p1 ->
  IndexMapper.build_part JSON_parse product = Ok p2 ->
  Forall (fun k => field p1 k = field p2 k) shared_fields /\
  (truthy (field product "price") = true \/ field product "price" = VUndefined ->
   field p1 "price" = field p2 "price").
Proof.
intros JSON_parse product p1 p2 H1 H2.
unfold Mapper.build_part in H1. unfold IndexMapper.build_part in H2.
mapper_steps. inversion H1; subst. inversion H2; subst. clear H1 H2.
split; [repeat constructor|].
intros Hprice. cbn [field get lookup String.eqb Ascii.eqb Bool.eqb].
match goal with
| E1 : Mapper.map_price product = Ok ?a, E2 : IndexMapper.map_price product = Ok ?b |- _ =>
    revert E1 E2 Hprice; unfold Mapper.map_price, IndexMapper.map_price, field
end.
destruct (get product "price") as [price|e]; cbn [obind]; [|discriminate].
intros Hm1 Hm2 [Htruthy | Hundef]; [|rewrite Hundef in *].
- rewrite Htruthy in Hm2. destruct price; cbn in Htruthy; try discriminate; congruence.
- cbn [truthy] in Hm2. congruence.
Qed.

Lemma mapper_texts_agree_witness :
Forall (fun k => field (mapped parse_fitments (VObj alternator)) k =
                 field (match IndexMapper.build_part parse_fitments (VObj alternator) with
                        | Ok part => part
                        | Throw _ => VNull
                        end) k) shared_fields /\
(truthy (field (VObj alternator) "price") = true \/
 field (VObj alternator) "price" = VUndefined ->
 field (mapped parse_fitments (VObj alternator)) "price" =
 field (match IndexMapper.build_part parse_fitments (VObj alternator) with
        | Ok part => part
        | Throw _ => VNull
        end) "price").
Proof.
apply (@mapper_texts_agree parse_fitments (VObj alternator)); reflexivity.
Defined.

(* ===================================================================== *)
(** ** Cookie strings: written by the browser session, read by
     parseCookies *)
(* ===================================================================== *)

Module CookieFacts.
Import Js MapperCommon Spec Props CookieUtils.









(** *** Reversal and trimming *)






















End CookieFacts.

Import CookieUtils CookieFacts.





(* ===================================================================== *)
(** ** What makeApiRequest sends, and what it makes of the response *)
(* ===================================================================== *)

Module WireFacts.
Import Js LkqApi Spec Props Wire MapperMore.

Lemma prop_assign (k k' : string) (v : value) (params : list (string * value)) :
prop (assign k v params) k' = if String.eqb k' k then v else prop params k'.
Proof.
unfold prop. destruct (String.eqb_spec k' k) as [->|Hne].
- rewrite lookup_assign_same. reflexivity.
- rewrite lookup_assign_other by exact Hne. reflexivity.
Qed.

Lemma prop_remove (k k' : string) (params : list (string * value)) :
prop (remove k params) k' = if String.eqb k' k then VUndefined else prop params k'.
Proof.
unfold prop, remove. induction params as [|[k0 v0] rest IH]; cbn [filter lookup fst].
- destruct (String.eqb k' k); reflexivity.
- destruct (String.eqb_spec k0 k) as [->|Hk0]; cbn [negb lookup].
  + rewrite IH. destruct (String.eqb_spec k' k); reflexivity.
  + destruct (String.eqb_spec k' k0) as [->|Hne].
    * destruct (String.eqb_spec k0 k); [congruence | reflexivity].
    * exact IH.
Qed.

Lemma not_zero_false (v : value) : not_zero v = false -> v = VNum 0.
Proof.
destruct v; cbn; try discriminate. intros H.
apply negb_false_iff, Z.eqb_eq in H. subst. reflexivity.
Qed.

Lemma without_coordinates_facts (p1 : list (string * value)) :
truthy (prop (without_coordinates p1) "latitude") = false /\
truthy (prop (without_coordinates p1) "longitude") = false /\
prop (without_coordinates p1) "action" = prop p1 "action".
Proof.
unfold without_coordinates.
destruct (truthy (prop p1 "latitude")) eqn:Hlat.
- destruct (truthy (prop (remove "latitude" p1) "longitude")) eqn:Hlon.
  + rewrite !prop_remove. cbn. auto.
  + rewrite Hlon, !prop_remove. cbn. auto.
- destruct (truthy (prop p1 "longitude")) eqn:Hlon.
  + rewrite !prop_remove. cbn. auto.
  + rewrite Hlat, Hlon. auto.
Qed.

Lemma prepare_unfold (method : string) (params : list (string * value)) :
prepare method params =
let p3 := without_coordinates
            (if negb (truthy (prop params "action")) && isGET method
             then assign "action" (VStr "GetSearchResults") params
             else params) in
if isGET method then
  if negb (truthy (prop p3 "catalogId")) && not_zero (prop p3 "catalogId")
  then assign "catalogId" (VNum 0) p3
  else p3
else p3.
Proof. reflexivity. Qed.

(** What holds of the parameters after the adjustments. *)
Lemma prepare_facts (method : string) (params : list (string * value)) :
truthy (prop (prepare method params) "latitude") = false /\
truthy (prop (prepare method params) "longitude") = false /\
(isGET method = true ->
 truthy (prop (prepare method params) "action") = true /\
 (truthy (prop (prepare method params) "catalogId") = true \/
  prop (prepare method params) "catalogId" = VNum 0)).
Proof.
rewrite prepare_unfold. cbv zeta.
set (p1 := if negb (truthy (prop params "action")) && isGET method
           then assign "action" (VStr "GetSearchResults") params
           else params).
destruct (without_coordinates_facts p1) as (Hlat & Hlon & Haction).
set (p3 := without_coordinates p1) in *.
destruct (isGET method) eqn:Hget.
- assert (Hp1 : truthy (prop p1 "action") = true).
  { subst p1. rewrite andb_true_r.
    destruct (truthy (prop params "action")) eqn:Hgiven; cbn [negb];
      [exact Hgiven | rewrite prop_assign; reflexivity]. }
  destruct (negb (truthy (prop p3 "catalogId")) && not_zero (prop p3 "catalogId"))
           eqn:Hcat.
  + rewrite !prop_assign. cbn [String.eqb Ascii.eqb Bool.eqb].
    split; [exact Hlat|]. split; [exact Hlon|]. intros _.
    split; [rewrite Haction; exact Hp1 | right; reflexivity].
  + split; [exact Hlat|]. split; [exact Hlon|]. intros _.
    split; [rewrite Haction; exact Hp1|].
    apply andb_false_iff in Hcat. destruct Hcat as [Hcat|Hcat].
    * left. apply negb_false_iff. exact Hcat.
    * right. apply not_zero_false. exact Hcat.
- split; [exact Hlat|]. split; [exact Hlon|]. discriminate.
Qed.

Lemma prepare_frame (method : string) (params : list (string * value)) (k : string) :
adjusted k = false -> prop (prepare method params) k = prop params k.
Proof.
unfold adjusted. intros H.
apply orb_false_iff in H. destruct H as (H & Hcat).
apply orb_false_iff in H. destruct H as (H & Hlon).
apply orb_false_iff in H. destruct H as (Hact & Hlat).
unfold prepare.
repeat match goal with
       | |- context [if ?b then _ else _] => destruct b
       end;
  repeat first [rewrite prop_assign | rewrite prop_remove];
  rewrite ?Hact, ?Hlat, ?Hlon, ?Hcat; reflexivity.
Qed.

Lemma prepare_again (method : string) (params : list (string * value)) :
prepare method (prepare method params) = prepare method params.
Proof.
destruct (prepare_facts method params) as (Hlat & Hlon & Hget).
set (p := prepare method params) in *.
unfold prepare at 1. fold p.
destruct (isGET method) eqn:Hmethod.
- destruct (Hget eq_refl) as (Haction & Hcat).
  rewrite Haction. cbn [negb andb]. rewrite Hlat, Hlon.
  destruct Hcat as [Hcat|Hcat]; rewrite Hcat; reflexivity.
- rewrite andb_false_r, Hlat, Hlon. reflexivity.
Qed.

Lemma truthy_prop_sent (params : list (string * value)) (k : string) :
truthy (prop params k) = true \/ prop params k = VNum 0 ->
In k (map fst (query params)).
Proof.
unfold prop, query. rewrite map_map. cbn [fst].
induction params as [|[k0 v0] rest IH]; cbn [lookup map fst].
- intros [H|H]; discriminate.
- destruct (String.eqb_spec k k0) as [->|Hne]; [left; reflexivity|].
  intros H. right. apply IH. exact H.
Qed.

Lemma sanitized_entry (headers : list (string * string)) :
Forall2 (fun sent shown =>
           fst shown = fst sent /\
           (secret_header (fst sent) = false -> snd shown = snd sent))
        headers (sanitizedHeaders headers).
Proof.
rewrite LogFacts.sanitizedHeaders_map.
induction headers as [|[k v] rest IH]; cbn [map]; constructor; [|exact IH].
cbn [fst snd]. unfold secret_header.
destruct (String.eqb_spec k "Cookie") as [->|Hk]; cbn [andb orb].
- destruct (negb (String.eqb v "")); cbn [fst snd];
    (split; [reflexivity | discriminate]).
- cbn [fst snd]. destruct (String.prefix "XvPW5hYbpt" k); cbn [fst snd];
    (split; [reflexivity|]); [discriminate | reflexivity].
Qed.

End WireFacts.

Import Wire WireFacts.

(** X21.  Before [makeApiRequest] builds the URL it adjusts the
  parameters: no truthy [latitude] or [longitude] is ever sent, a GET
  always carries a truthy [action] and a [catalogId] (the caller's, or
  the defaults [GetSearchResults] and [0]) and its query string has a
  pair for each, every other parameter is sent as the caller gave it,
  and adjusting twice changes nothing more. *)
Theorem request_parameters_are_normalised :
forall (method : string) (params : list (string * value)),
  truthy (prop (prepare method params) "latitude") = false /\
  truthy (prop (prepare method params) "longitude") = false /\
  (isGET method = true ->
   truthy (prop (prepare method params) "action") = true /\
   (truthy (prop (prepare method params) "catalogId") = true \/
    prop (prepare method params) "catalogId" = VNum 0) /\
   In "action" (map fst (query (prepare method params))) /\
   In "catalogId" (map fst (query (prepare method params)))) /\
  (forall k, adjusted k = false -> prop (prepare method params) k = prop params k) /\
  prepare method (prepare method params) = prepare method params.
Proof.
intros method params.
destruct (prepare_facts method params) as (Hlat & Hlon & Hget).
split; [exact Hlat|]. split; [exact Hlon|]. split.
- intros Hmethod. destruct (Hget Hmethod) as (Haction & Hcat).
  split; [exact Haction|]. split; [exact Hcat|].
  split; apply truthy_prop_sent; auto.
- split; [intros k; apply prepare_frame | apply prepare_again].
Qed.

Lemma request_parameters_are_normalised_witness :
truthy (prop (prepare "get" located_search) "action") = true /\
(truthy (prop (prepare "get" located_search) "catalogId") = true \/
 prop (prepare "get" located_search) "catalogId" = VNum 0) /\
In "action" (map fst (query (prepare "get" located_search))) /\
In "catalogId" (map fst (query (prepare "get" located_search))).
Proof.
destruct (request_parameters_are_normalised "get" located_search)
  as (_ & _ & Hget & _).
apply Hget. reflexivity.
Defined.

(** X22.  [makeApiRequest] ends in one of two ways, the two the
  pagination code is written against: it returns [response.data], and
  then the status was below 500 and neither the content type nor the
  body looked like HTML, or it throws an [Error] that has a message.  A
  status from 400 to 499 is no failure: every such response that does
  not look like HTML is returned, the empty body of a 400 included. *)
Theorem responses_are_returned_or_thrown :
forall (x : exchange),
  (forall v, settle x = Ok v ->
             exists r, x = Answered r /\ status r < 500 /\ v = data r /\
                       html_like r = false) /\
  (exists a, reply_of x = Some a) /\
  (forall r, x = Answered r -> status r < 500 -> html_like r = false ->
             responseStr (data r) <> None ->
             settle x = Ok (data r)).
Proof.
intros x.
assert (Hcivil : settle x <> Throw JsUndefined ->
                 exists a, reply_of x = Some a).
{ unfold reply_of. destruct (settle x) as [v|[m|]]; eauto. congruence. }
assert (Hsplit : forall A C : Prop,
           A -> settle x <> Throw JsUndefined -> C ->
           A /\ (exists a, reply_of x = Some a) /\ C) by auto.
destruct x as [m|r]; cbn [settle] in *.
- apply Hsplit; discriminate.
- unfold html_like.
  destruct (Z.ltb_spec (status r) 500) as [Hlow|Hhigh].
  + assert (Hct : GetLkqCookies.includes "text/html"
                    match contentType r with
                    | Some h => if String.eqb h "" then "" else h
                    | None => ""
                    end
                  = match contentType r with
                    | Some h => GetLkqCookies.includes "text/html" h
                    | None => false
                    end).
    { destruct (contentType r) as [h|]; [|reflexivity].
      destruct (String.eqb_spec h ""); [subst; reflexivity | reflexivity]. }
    rewrite Hct in *. clear Hct.
    destruct (match contentType r with
              | Some h => GetLkqCookies.includes "text/html" h
              | None => false
              end) eqn:Htype; cbn [orb] in *.
    * destruct (responseStr (data r)) as [s|]; cbn [method_of] in *;
        apply Hsplit; try discriminate;
        intros r' Hr' _ Hhtml; inversion Hr'; subst r'; rewrite Htype in Hhtml;
        discriminate.
    * destruct (responseStr (data r)) as [s|] eqn:Hstr; cbn [method_of] in *.
      -- destruct (GetLkqCookies.includes "<!DOCTYPE html>" s ||
                   GetLkqCookies.includes "<html" s) eqn:Hbody.
         ++ apply Hsplit; try discriminate.
            intros r' Hr' _ Hhtml. inversion Hr'; subst r'.
            rewrite Htype, Hstr in Hhtml. cbn [orb] in Hhtml. congruence.
         ++ apply Hsplit; try discriminate.
            ** intros v Hv. inversion Hv; subst v. exists r.
               repeat split; [exact Hlow|]. rewrite Htype, Hstr. exact Hbody.
            ** intros r' Hr' _ _ _. inversion Hr'. reflexivity.
      -- apply Hsplit; try discriminate.
         intros r' Hr' _ _ Hsome. inversion Hr'; subst r'. congruence.
  + apply Hsplit; try discriminate.
    intros r' Hr' Hlow. inversion Hr'; subst r'. lia.
Qed.

Lemma responses_are_returned_or_thrown_witness :
settle (Answered bad_request) = Ok (data bad_request).
Proof.
destruct (responses_are_returned_or_thrown (Answered bad_request)) as (_ & _ & Hreturned).
apply (Hreturned bad_request); [reflexivity | cbn; lia | reflexivity | discriminate].
Defined.

(** X23.  The scrubbing of the request headers changes secret values
  only: the logged headers have the names of the sent ones, in their
  order, and every header other than [Cookie] and the [XvPW5hYbpt]
  tokens is shown with the value that was sent. *)
Theorem scrubbing_keeps_the_other_headers :
forall (headers : list (string * string)),
  Forall2 (fun sent shown =>
             fst shown = fst sent /\
             (secret_header (fst sent) = false -> snd shown = snd sent))
          headers (sanitizedHeaders headers) /\
  map fst (sanitizedHeaders headers) = map fst headers.
Proof.
intros headers. pose proof (sanitized_entry headers) as Hall.
split; [exact Hall|].
induction Hall as [|sent shown rest rest' (Hname & _) _ IH]; [reflexivity|].
cbn [map]. rewrite Hname, IH. reflexivity.
Qed.

(* ===================================================================== *)
(** ** Storing the records *)
(* ===================================================================== *)

Module StorageFacts.
Import Js Spec Props Storage.

Section Store.
Variable DB : Type.
Variable Part_findOne : value -> string -> Db DB value.
Variable Part_findByIdAndUpdate : value -> list (string * value) -> Db DB unit.
Variable Part_create : list (string * value) -> Db DB unit.
Variable Job_findOneAndUpdate : value -> job_update -> Db DB unit.
Variable Job_startTime : value -> Db DB value.

Let upsert := upsert Part_findOne Part_findByIdAndUpdate Part_create.
Let store_item := store_item Part_findOne Part_findByIdAndUpdate Part_create.
Let store_items := store_items Part_findOne Part_findByIdAndUpdate Part_create.

Lemma dbind_inv {A B} (c : Db DB A) (k : A -> Db DB B) db r db' :
  dbind c k db = (r, db') ->
  (exists e, c db = (Throw e, db') /\ r = Throw e) \/
  (exists a db1, c db = (Ok a, db1) /\ k a db1 = (r, db')).
Proof.
  unfold dbind. destruct (c db) as [[a|e] db1]; intros H.
  - right. eauto.
  - left. inversion H; subst. eauto.
Qed.

(** The [try] block counts the item once, as created or as updated. *)
Lemma upsert_counts (source : string) (item : list (string * value)) (r r' : counts)
      (n : Z) db db' :
  balanced n r ->
  upsert source item r db = (Ok r', db') ->
  balanced (n + 1) r' /\ total r' = total r.
Proof.
  intros (Hsum & Herr & Hc & Hu & Hf) H. unfold upsert, Storage.upsert in H.
  apply dbind_inv in H. destruct H as [(e & _ & Habs)|(existing & db1 & _ & H)];
    [discriminate|].
  destruct (truthy existing).
  - apply dbind_inv in H. destruct H as [(e & _ & Habs)|(id & db2 & _ & H)];
      [discriminate|].
    apply dbind_inv in H. destruct H as [(e & _ & Habs)|(u & db3 & _ & H)];
      [discriminate|].
    inversion H; subst. unfold balanced. cbn. repeat split; lia.
  - apply dbind_inv in H. destruct H as [(e & _ & Habs)|(u & db2 & _ & H)];
      [discriminate|].
    inversion H; subst. unfold balanced. cbn. repeat split; lia.
Qed.

(** One turn of the loop counts the item once. *)
Lemma store_item_counts (source : string) (item : list (string * value))
      (r r' : counts) (n : Z) db db' :
  balanced n r ->
  store_item source item r db = (Ok r', db') ->
  balanced (n + 1) r' /\ total r' = total r.
Proof.
  intros Hbal H. unfold store_item, Storage.store_item, dtry in H.
  fold (upsert source item r) in H.
  destruct (upsert source item r db) as [[r1|e] db1] eqn:Hup.
  - inversion H; subst. eapply upsert_counts; eauto.
  - destruct Hbal as (Hsum & Herr & Hc & Hu & Hf).
    apply dbind_inv in H. destruct H as [(e' & _ & Habs)|(m & db2 & _ & H)];
      [discriminate|].
    inversion H; subst. unfold balanced. cbn. rewrite length_app. cbn.
    repeat split; lia.
Qed.

Lemma store_items_counts (source : string) (data : list (list (string * value))) :
  forall (r r' : counts) (n : Z) db db',
    balanced n r ->
    store_items source data r db = (Ok r', db') ->
    balanced (n + Z.of_nat (List.length data)) r' /\ total r' = total r.
Proof.
  induction data as [|item rest IH]; intros r r' n db db' Hbal H.
  - inversion H; subst. cbn. rewrite Z.add_0_r. auto.
  - cbn [store_items Storage.store_items] in H. apply dbind_inv in H.
    destruct H as [(e & _ & Habs)|(r1 & db1 & Hitem & H)]; [discriminate|].
    eapply store_item_counts in Hitem; [|exact Hbal].
    destruct Hitem as (Hbal1 & Htotal1).
    eapply IH in H; [|exact Hbal1]. destruct H as (Hbal' & Htotal').
    split; [|congruence].
    replace (n + Z.of_nat (List.length (item :: rest)))
      with (n + 1 + Z.of_nat (List.length rest)) by (cbn [List.length]; lia).
    exact Hbal'.
Qed.

(** A part that fails to store does not end the loop, as long as the
    database throws [Error]s. *)
Hypothesis findOne_civil :
  forall n s db, fst (Part_findOne n s db) <> Throw JsUndefined.
Hypothesis update_civil :
  forall id item db, fst (Part_findByIdAndUpdate id item db) <> Throw JsUndefined.
Hypothesis create_civil :
  forall item db, fst (Part_create item db) <> Throw JsUndefined.

Lemma truthy_get (v : value) (k : string) :
  truthy v = true -> exists x, get v k = Ok x.
Proof.
  destruct v; cbn; try discriminate; intros _; eauto;
    repeat match goal with |- context [if ?b then _ else _] => destruct b end; eauto.
Qed.

Lemma upsert_civil (source : string) (item : list (string * value)) (r : counts) db :
  fst (upsert source item r db) <> Throw JsUndefined.
Proof.
  assert (Hthrown : forall (A B : Type) (o : outcome A) (d : DB) (e : exn),
             fst (o, d) <> Throw JsUndefined -> o = Throw e ->
             fst (@Throw B e, d) <> Throw JsUndefined).
  { intros A B o d e Ho -> Heq. apply Ho. cbn in *. inversion Heq. reflexivity. }
  unfold upsert, Storage.upsert, dbind.
  match goal with |- context [Part_findOne ?n ?s db] =>
    pose proof (findOne_civil n s db) as Hfind;
      destruct (Part_findOne n s db) as [[existing|e] db1] end;
    [|eapply Hthrown; [exact Hfind | reflexivity]].
  destruct (truthy existing) eqn:Htruthy.
  - destruct (truthy_get existing "_id" Htruthy) as (id & ->). unfold dlift.
    match goal with |- context [Part_findByIdAndUpdate ?i ?it db1] =>
      pose proof (update_civil i it db1) as Hupd;
        destruct (Part_findByIdAndUpdate i it db1) as [[u|e] db2] end;
      [discriminate | eapply Hthrown; [exact Hupd | reflexivity]].
  - match goal with |- context [Part_create ?it db1] =>
      pose proof (create_civil it db1) as Hcre;
        destruct (Part_create it db1) as [[u|e] db2] end;
      [discriminate | eapply Hthrown; [exact Hcre | reflexivity]].
Qed.

Lemma store_item_ends (source : string) (item : list (string * value)) (r : counts) db :
  exists r' db', store_item source item r db = (Ok r', db').
Proof.
  unfold store_item, Storage.store_item, dtry. fold (upsert source item r).
  pose proof (upsert_civil source item r db) as Hcivil.
  destruct (upsert source item r db) as [[r1|e] db1]; [eauto|].
  destruct e as [m|]; [|cbn in Hcivil; congruence].
  unfold dbind, dlift, dret. cbn [message]. eauto.
Qed.

Lemma store_items_end (source : string) (data : list (list (string * value))) :
  forall r db, exists r' db', store_items source data r db = (Ok r', db').
Proof.
  induction data as [|item rest IH]; intros r db.
  - exists r, db. reflexivity.
  - cbn [store_items Storage.store_items]. unfold dbind.
    destruct (store_item_ends source item r db) as (r1 & db1 & Hitem).
    fold (store_item source item r). rewrite Hitem. apply IH.
Qed.
End Store.

End StorageFacts.

Import Storage StorageFacts.

(** X24.  Whenever [storeScrapedData] returns, its counters account for
  every item exactly once, whatever the database did: created + updated +
  failed is the number of items, which is [total]; [errors] has one
  entry per failed item; and [totalItemsScraped] is the running total
  plus the items created and updated. *)
Theorem storage_counters_add_up :
forall (DB : Type)
       (Part_findOne : value -> string -> Db DB value)
       (Part_findByIdAndUpdate : value -> list (string * value) -> Db DB unit)
       (Part_create : list (string * value) -> Db DB unit)
       (Job_findOneAndUpdate : value -> job_update -> Db DB unit)
       (Job_startTime : value -> Db DB value)
       (source : string) (data : list (list (string * value))) (opts : options)
       (db db' : DB) (s : summary),
  storeScrapedData Part_findOne Part_findByIdAndUpdate Part_create
                   Job_findOneAndUpdate Job_startTime source data opts db
  = (Ok s, db') ->
  total (result s) = Z.of_nat (List.length data) /\
  created (result s) + updated (result s) + failed (result s) = total (result s) /\
  Z.of_nat (List.length (errors (result s))) = failed (result s) /\
  totalItemsScraped s = currentTotal opts + created (result s) + updated (result s) /\
  0 <= created (result s) /\ 0 <= updated (result s) /\ 0 <= failed (result s).
Proof.
intros DB Part_findOne Part_findByIdAndUpdate Part_create Job_findOneAndUpdate
       Job_startTime source data opts db db' s H.
unfold storeScrapedData, dtry in H.
match type of H with
| match ?body db with _ => _ end = _ => destruct (body db) as [[s1|e] db1] eqn:Hbody
end.
- inversion H; subst s1 db1. clear H.
  apply dbind_inv in Hbody.
  destruct Hbody as [(e & _ & Habs)|(u & db1 & _ & Hbody)]; [discriminate|].
  apply dbind_inv in Hbody.
  destruct Hbody as [(e & _ & Habs)|(r & db2 & Hloop & Hbody)]; [discriminate|].
  apply dbind_inv in Hbody.
  destruct Hbody as [(e & _ & Habs)|(u' & db3 & _ & Hbody)]; [discriminate|].
  inversion Hbody; subst. cbn [result totalItemsScraped].
  apply (@store_items_counts DB Part_findOne Part_findByIdAndUpdate Part_create
           source data _ _ 0) in Hloop.
  + destruct Hloop as ((Hsum & Herr & Hc & Hu & Hf) & Htotal). cbn [total] in Htotal.
    rewrite Htotal. repeat split; try assumption; try reflexivity; lia.
  + unfold balanced. cbn. repeat split; lia.
- exfalso. apply dbind_inv in H.
  destruct H as [(e' & _ & Habs)|(m & db2 & _ & H)]; [discriminate|].
  apply dbind_inv in H.
  destruct H as [(e' & _ & Habs)|(u & db3 & _ & H)]; [discriminate|].
  inversion H.
Qed.

Lemma storage_counters_add_up_witness :
total (result (summary_of shelf_run)) = Z.of_nat (List.length three_parts) /\
created (result (summary_of shelf_run)) + updated (result (summary_of shelf_run))
+ failed (result (summary_of shelf_run)) = total (result (summary_of shelf_run)) /\
Z.of_nat (List.length (errors (result (summary_of shelf_run))))
= failed (result (summary_of shelf_run)) /\
totalItemsScraped (summary_of shelf_run)
= currentTotal no_job + created (result (summary_of shelf_run))
  + updated (result (summary_of shelf_run)) /\
0 <= created (result (summary_of shelf_run)) /\
0 <= updated (result (summary_of shelf_run)) /\
0 <= failed (result (summary_of shelf_run)).
Proof.
apply (@storage_counters_add_up shelf shelf_findOne shelf_update shelf_create shelf_job
         shelf_startTime "lkq" three_parts no_job [] (snd shelf_run)).
reflexivity.
Defined.

(** X25.  A part that cannot be stored does not stop the others: as long
  as the database rejects with [Error]s and the job record can be
  written, [storeScrapedData] returns for every list of parts, with the
  failures counted in its result instead of thrown. *)
Theorem failed_part_does_not_stop_storage :
forall (DB : Type)
       (Part_findOne : value -> string -> Db DB value)
       (Part_findByIdAndUpdate : value -> list (string * value) -> Db DB unit)
       (Part_create : list (string * value) -> Db DB unit)
       (Job_findOneAndUpdate : value -> job_update -> Db DB unit)
       (Job_startTime : value -> Db DB value),
  (forall n s db, fst (Part_findOne n s db) <> Throw JsUndefined) ->
  (forall id item db, fst (Part_findByIdAndUpdate id item db) <> Throw JsUndefined) ->
  (forall item db, fst (Part_create item db) <> Throw JsUndefined) ->
  (forall id u db, exists db', Job_findOneAndUpdate id u db = (Ok tt, db')) ->
  (forall id db, exists v db', Job_startTime id db = (Ok v, db')) ->
  forall (source : string) (data : list (list (string * value))) (opts : options)
         (db : DB),
  exists s db',
    storeScrapedData Part_findOne Part_findByIdAndUpdate Part_create
                     Job_findOneAndUpdate Job_startTime source data opts db
    = (Ok s, db').
Proof.
intros DB Part_findOne Part_findByIdAndUpdate Part_create Job_findOneAndUpdate
       Job_startTime Hfind Hupdate Hcreate Hjob Hstart source data opts db.
unfold storeScrapedData, dtry, dbind.
assert (Hfirst : exists db1,
           (if truthy (jobId opts) && negb (updateTotalOnly opts)
            then Job_findOneAndUpdate (jobId opts) (Running (currentTotal opts =? 0))
            else dret tt) db = (Ok tt, db1)).
{ destruct (truthy (jobId opts) && negb (updateTotalOnly opts));
    [apply Hjob | exists db; reflexivity]. }
destruct Hfirst as (db1 & ->).
destruct (@store_items_end DB Part_findOne Part_findByIdAndUpdate Part_create
            Hfind Hupdate Hcreate source data
            {| total := Z.of_nat (List.length data); created := 0; updated := 0;
               failed := 0; errors := [] |} db1) as (r & db2 & ->).
destruct (truthy (jobId opts)).
- destruct (updateTotalOnly opts).
  + destruct (Hjob (jobId opts) (Progress (currentTotal opts + created r + updated r)) db2)
      as (db3 & ->).
    eexists _, _. reflexivity.
  + destruct (Hstart (jobId opts) db2) as (v & db3 & ->).
    destruct (Hjob (jobId opts) (Completed (currentTotal opts + created r + updated r)) db3)
      as (db4 & ->).
    eexists _, _. reflexivity.
- eexists _, _. reflexivity.
Qed.

Lemma failed_part_does_not_stop_storage_witness :
exists s db',
  storeScrapedData shelf_findOne shelf_update shelf_create shelf_job shelf_startTime
                   "lkq" three_parts no_job [] = (Ok s, db').
Proof.
apply (@failed_part_does_not_stop_storage shelf shelf_findOne shelf_update shelf_create
         shelf_job shelf_startTime).
- intros n s db. discriminate.
- intros id item db. discriminate.
- intros item db. unfold shelf_create.
  destruct (truthy (item_number item)); discriminate.
- intros id u db. exists db. reflexivity.
- intros id db. exists VNull, db. reflexivity.
Defined.

(* ===================================================================== *)
(** ** Further properties of the orchestrator *)
(* ===================================================================== *)

Module ScrapeMore.
Import Js Sim ScraperUtils LkqApi LkqScraper Spec Props.
Import CompFacts TraceFacts BudgetFacts PagesMore.

Lemma detail_requests_app (a b : list event) :
detail_requests (a ++ b) = (detail_requests a ++ detail_requests b)%list.
Proof.
induction a as [|ev rest IH]; [reflexivity|].
cbn [app detail_requests]. destruct ev as [[cat sk tk|url sk tk|cat|pid] o|p];
  rewrite IH; reflexivity.
Qed.

Lemma no_details_app (a b : list event) :
detail_requests a = [] -> detail_requests b = [] -> detail_requests (a ++ b) = [].
Proof. intros Ha Hb. rewrite detail_requests_app, Ha, Hb. reflexivity. Qed.

Lemma category_events_no_details (category : string) (b : Z) (m : limit)
    (new : list event) :
Forall (category_event category b m) new -> detail_requests new = [].
Proof.
induction 1 as [|ev rest Hev _ IH]; [reflexivity|].
destruct ev as [[cat sk tk|url sk tk|cat|pid] o|p]; cbn in Hev |- *;
  try exact IH; contradiction.
Qed.

Lemma url_events_no_details (url : string) (m : limit) (new : list event) :
Forall (url_event url m) new -> detail_requests new = [].
Proof.
induction 1 as [|ev rest Hev _ IH]; [reflexivity|].
destruct ev as [[cat sk tk|u sk tk|cat|pid] o|p]; cbn in Hev |- *;
  try exact IH; contradiction.
Qed.

Lemma initializeApi_no_details (R : Z) :
grows (fun new => detail_requests new = []) (initializeApi R).
Proof.
set (P := fun new : list event => detail_requests new = []).
assert (P_nil : P []) by reflexivity.
assert (P_app : forall a b, P a -> P b -> P (a ++ b)%list) by exact no_details_app.
assert (P_timer : forall p, P [Slept p]) by reflexivity.
unfold initializeApi.
apply closed_try; auto; [|intros e; apply closed_logged; auto; apply grows_ret, P_nil].
apply closed_bind; auto.
- apply closed_try; auto; [|intros e; apply closed_logged; auto; apply grows_ret, P_nil].
  apply closed_bind; auto; [|intros v; apply grows_ret, P_nil].
  unfold getCategoryCounts. apply closed_retry; auto.
  apply closed_bind; auto; [apply closed_request; reflexivity | intros response].
  apply closed_bind; auto;
    [apply grows_lift, P_nil | intros count; apply grows_ret, P_nil].
- intros _. apply closed_bind; auto; [|intros v; apply grows_ret, P_nil].
  apply closed_retry; auto. unfold connection_test.
  apply closed_bind; auto.
  + unfold getSearchResults. apply closed_retry; auto.
    apply closed_bind; auto; [apply closed_sleep, P_timer | intros _].
    apply closed_request. reflexivity.
  + intros results. destruct (negb (truthy results)); [apply grows_throw, P_nil|].
    apply closed_bind; auto; [apply grows_lift, P_nil | intros err].
    destruct (truthy err); [apply grows_throw, P_nil|].
    apply closed_bind; auto; [apply grows_lift, P_nil | intros data].
    destruct (negb (truthy data) || negb (isArray data)); [|apply grows_ret, P_nil].
    apply closed_bind; auto;
      [apply grows_lift, P_nil | intros _; apply grows_throw, P_nil].
Qed.

Section Collect.
Variable fuel : nat.
Variable cfg : config.
Variable URL_ok : string -> bool.
Variable opts : options.
Hypothesis no_details : fetchDetails opts = false.

Lemma fetch_no_details (input : string) (m : limit) :
  grows (fun new => detail_requests new = []) (fetchProductsByUrl fuel URL_ok input m) /\
  grows (fun new => detail_requests new = []) (fetchProductsByCategory fuel cfg input m).
Proof.
  split; intros w r w' H.
  - apply fetchProductsByUrl_events in H. destruct H as (new & E & F).
    exists new. split; [exact E|]. eapply url_events_no_details. exact F.
  - apply fetchProductsByCategory_events in H. destruct H as (new & E & F).
    exists new. split; [exact E|]. eapply category_events_no_details. exact F.
Qed.

Lemma collect_no_details (fetch : string -> limit -> Comp (list value)) :
  (forall input m, grows (fun new => detail_requests new = []) (fetch input m)) ->
  forall inputs acc,
    grows (fun new => detail_requests new = []) (collect fuel cfg fetch opts inputs acc).
Proof.
  intros Hfetch. induction inputs as [|input rest IH]; intros acc.
  - apply grows_ret. reflexivity.
  - cbn [collect]. destruct (exhausted _); [apply grows_ret; reflexivity|].
    apply closed_bind; [exact no_details_app | apply Hfetch | intros products].
    destruct (len products =? 0); [apply IH|].
    rewrite no_details.
    apply closed_bind; [exact no_details_app | | intros detailed; apply IH].
    apply grows_ret. reflexivity.
Qed.
End Collect.

End ScrapeMore.

Import Js Sim ScraperUtils LkqApi LkqScraper Spec Props.
Import CompFacts TraceFacts BudgetFacts PagesMore MapperMore ScrapeMore.



(** X27.  With a limit of zero or less [scrape] asks for nothing beyond
  its initialization: for every list of inputs and every configuration
  it returns the empty list in the world [initialize] left. *)
Theorem scrape_without_budget_fetches_nothing :
forall (fuel : nat) (cfg : config) (URL_ok : string -> bool)
       (JSON_parse : string -> option value) (categoryList : list string)
       (opts : options) (k : Z) (w : world),
  categoryList <> [] ->
  maxProducts opts = Finite k ->
  k <= 0 ->
  exists w',
    initialize cfg w = Some (Ok tt, w') /\
    scrape fuel cfg URL_ok JSON_parse categoryList opts w = Some (Ok [], w').
Proof.
intros fuel cfg URL_ok JSON_parse categoryList opts k w Hne Hmax Hk.
destruct (initialize_ends cfg w) as ([] & w' & Hinit).
exists w'. split; [exact Hinit|].
unfold scrape. destruct categoryList as [|c rest]; [congruence|].
assert (Hcollect : forall fetch inputs,
           collect fuel cfg fetch opts inputs [] w' = Some (Ok [], w')).
{ intros fetch [|input inputs]; [reflexivity|].
  cbn [collect]. rewrite Hmax. cbn [minus exhausted].
  change (len (@nil value)) with 0.
  destruct (Z.leb_spec (k - 0) 0); [reflexivity | lia]. }
unfold try_catch, bind. rewrite Hinit.
destruct (usePresetUrls opts && negb (len (categoryUrls cfg) =? 0));
  rewrite Hcollect; reflexivity.
Qed.

Lemma scrape_without_budget_fetches_nothing_witness :
exists w',
  initialize small_config two_then_none = Some (Ok tt, w') /\
  scrape 1 small_config any_url no_json [alternator_url] (plain 0) two_then_none
  = Some (Ok [], w').
Proof.
apply (@scrape_without_budget_fetches_nothing 1 small_config any_url no_json
         [alternator_url] (plain 0) 0 two_then_none).
- discriminate.
- reflexivity.
- lia.
Defined.

(** X28.  With [fetchDetails] off, [scrape] issues no detail request at
  all, however it ends: what it asks of the upstream is the two probes of
  its initialization and the page requests of its inputs. *)
Theorem scrape_without_details_asks_for_none :
forall (fuel : nat) (cfg : config) (URL_ok : string -> bool)
       (JSON_parse : string -> option value) (categoryList : list string)
       (opts : options) (w w' : world) (r : outcome (list value)),
  fetchDetails opts = false ->
  scrape fuel cfg URL_ok JSON_parse categoryList opts w = Some (r, w') ->
  exists new,
    trace w' = (trace w ++ new)%list /\ detail_requests new = [].
Proof.
intros fuel cfg URL_ok JSON_parse categoryList opts w w' r Hoff.
set (P := fun new : list event => detail_requests new = []).
assert (P_nil : P []) by reflexivity.
assert (P_app : forall a b, P a -> P b -> P (a ++ b)%list) by exact no_details_app.
assert (Hgrows : grows P (scrape fuel cfg URL_ok JSON_parse categoryList opts)).
{ unfold scrape. destruct categoryList as [|c rest]; [apply grows_ret, P_nil|].
  apply closed_try; auto;
    [|intros e; apply closed_logged; auto; apply grows_throw, P_nil].
  apply closed_bind; auto.
  - unfold initialize. apply closed_try; auto;
      [apply initializeApi_no_details
      |intros e; apply closed_logged; auto; apply grows_throw, P_nil].
  - intros _. apply closed_bind; auto; [|intros raw; apply grows_lift, P_nil].
    destruct (usePresetUrls opts && negb (len (categoryUrls cfg) =? 0)).
    + apply collect_no_details; [exact Hoff|].
      intros input m. apply (fetch_no_details fuel cfg URL_ok input m).
    + apply collect_no_details; [exact Hoff|].
      intros input m. unfold fetch_input.
      destruct (String.prefix "http" input);
        apply (fetch_no_details fuel cfg URL_ok input m). }
intros H. exact (Hgrows _ _ _ H).
Qed.

Lemma scrape_without_details_asks_for_none_witness :
exists new,
  trace (world_of scrape_run (scripted [page_of 1; page_of 1; page_of 2] (page_of 0)))
  = (trace (scripted [page_of 1; page_of 1; page_of 2] (page_of 0)) ++ new)%list /\
  detail_requests new = [].
Proof.
apply (@scrape_without_details_asks_for_none 40 small_config any_url no_json
         [alternator_url] (plain 3)
         (scripted [page_of 1; page_of 1; page_of 2] (page_of 0))
         (world_of scrape_run (scripted [page_of 1; page_of 1; page_of 2] (page_of 0)))
         (Ok (products_of scrape_run))).
- reflexivity.
- reflexivity.
Defined.
